(** * Exam mixer (services/docxService.ts): a shallow embedding and its properties

    The development follows the source file top-down: JavaScript strings and
    the pattern library, the random source and the Fisher-Yates shuffle, the
    balanced key generator, the document tree, the segmenter and validator,
    the answer resolver, the option shuffle and the variant loop with its
    answer matrix; then the cleaning and the layout of a rendered question,
    the sections and the preamble of a variant and the footer files. *)

From Stdlib Require Import ZArith NArith Ascii String DecimalString.
From Stdlib Require DecimalPos DecimalZ.
From stdpp Require Import base decidable option list numbers strings sorting gmap.

Local Open Scope nat_scope.
#[local] Set Warnings "-register-all".

(** ** JavaScript strings

    A JavaScript string is a sequence of UTF-16 code units.  [js] reads a
    literal of this file (UTF-8 bytes) into code units, so that the patterns
    and messages of the source can be written as they are there. *)

Abbreviation char := N (only parsing).
Abbreviation jsstring := (list N) (only parsing).

Definition ch (a : ascii) : N := N_of_ascii a.
Arguments ch : simpl never.

(** One code point to UTF-16. *)
Definition utf16 (cp : N) : list N :=
  if (cp <? 65536)%N then [cp]
  else [(55296 + (cp - 65536) / 1024)%N; (56320 + (cp - 65536) mod 1024)%N].

Fixpoint utf8_decode (bs : list N) : list N :=
  match bs with
  | [] => []
  | b0 :: r0 =>
    if (b0 <? 128)%N then b0 :: utf8_decode r0
    else match r0 with
    | [] => [b0]
    | b1 :: r1 =>
      if (b0 <? 224)%N then
        ((b0 - 192) * 64 + (b1 - 128))%N :: utf8_decode r1
      else match r1 with
      | [] => [b0; b1]
      | b2 :: r2 =>
        if (b0 <? 240)%N then
          ((b0 - 224) * 4096 + (b1 - 128) * 64 + (b2 - 128))%N
            :: utf8_decode r2
        else match r2 with
        | [] => [b0; b1; b2]
        | b3 :: r3 =>
          utf16 ((b0 - 240) * 262144 + (b1 - 128) * 4096
                 + (b2 - 128) * 64 + (b3 - 128))%N ++ utf8_decode r3
        end
      end
    end
  end.

Definition js (s : string) : list N :=
  utf8_decode (map N_of_ascii (list_ascii_of_string s)).
Arguments js : simpl never.

(** [s.startsWith(p)], with the rest of [s] when it does. *)
Fixpoint stripPrefix (p s : list N) : option (list N) :=
  match p, s with
  | [], _ => Some s
  | a :: p', b :: s' => if (a =? b)%N then stripPrefix p' s' else None
  | _ :: _, [] => None
  end.

(** [hay.includes(needle)] *)
Fixpoint includes (needle hay : list N) : bool :=
  match stripPrefix needle hay with
  | Some _ => true
  | None => match hay with [] => false | _ :: hay' => includes needle hay' end
  end.

(** *** Character classes *)

(** The class [\s]: white space and line terminators. *)
Definition isSpace (c : N) : bool :=
  ((9 <=? c) && (c <=? 13) || (c =? 32) || (c =? 160) || (c =? 5760)
   || (8192 <=? c) && (c <=? 8202) || (c =? 8232) || (c =? 8233)
   || (c =? 8239) || (c =? 8287) || (c =? 12288) || (c =? 65279))%N.

(** The class [\d]. *)
Definition isDigit (c : N) : bool := ((48 <=? c) && (c <=? 57))%N.

(** [[A-D]] and [[a-d]] *)
Definition isUpperAD (c : N) : bool := ((65 <=? c) && (c <=? 68))%N.
Definition isLowerAD (c : N) : bool := ((97 <=? c) && (c <=? 100))%N.
Definition isOptionLetter (c : N) : bool := isUpperAD c || isLowerAD c.

(** [[\.\)\:]] and [[\)\.]] *)
Definition isSeparator (c : N) : bool :=
  ((c =? ch ".") || (c =? ch ")") || (c =? ch ":"))%N.
Definition isSeparatorTF (c : N) : bool :=
  ((c =? ch ")") || (c =? ch "."))%N.

(** [toUpperCase] and [toLowerCase] of an option letter. *)
Definition toUpperLetter (c : N) : N :=
  if isLowerAD c then (c - 32)%N else c.
Definition toLowerLetter (c : N) : N :=
  if isUpperAD c then (c + 32)%N else c.

(** A greedy run of a class: the matched run and the rest. *)
Fixpoint spanClass (p : N → bool) (s : list N) : list N * list N :=
  match s with
  | c :: s' =>
    if p c then let '(run, rest) := spanClass p s' in (c :: run, rest)
    else ([], s)
  | [] => ([], [])
  end.

(** [s.trim()] *)
Definition trimStart (s : list N) : list N := (spanClass isSpace s).2.
Definition trimEnd (s : list N) : list N := reverse (trimStart (reverse s)).
Definition trim (s : list N) : list N := trimEnd (trimStart s).

(** [s.split] at line feeds *)
Fixpoint splitLines (s : list N) : list (list N) :=
  match s with
  | [] => [[]]
  | c :: s' =>
    if (c =? 10)%N then [] :: splitLines s'
    else match splitLines s' with
         | l :: ls => (c :: l) :: ls
         | [] => [[c]]
         end
  end.

(** A literal under the [i] flag: each letter of the patterns below has two
    case forms and the canonicalisation of the [i] flag (without [u]) relates
    no third code unit to them.  [ciChar (lower, upper) c] is the match of one
    such letter; [ciPrefix] the match of a word of them. *)
Definition ciChar (l : N * N) (c : N) : bool := ((c =? l.1) || (c =? l.2))%N.

Fixpoint ciPrefix (w : list (N * N)) (s : list N) : option (list N) :=
  match w, s with
  | [], _ => Some s
  | l :: w', c :: s' => if ciChar l c then ciPrefix w' s' else None
  | _ :: _, [] => None
  end.

(** The two case forms of the letters used by the patterns. *)
Definition bothCases (c : N) : N * N :=
  if ((65 <=? c) && (c <=? 90))%N then ((c + 32)%N, c)
  else if ((97 <=? c) && (c <=? 122))%N then (c, (c - 32)%N)
  else if ((192 <=? c) && (c <=? 222) && negb (c =? 215))%N then ((c + 32)%N, c)
  else if ((224 <=? c) && (c <=? 254) && negb (c =? 247))%N then (c, (c - 32)%N)
  else if ((7680 <=? c) && (c <=? 7935) && negb ((7830 <=? c) && (c <=? 7839)))%N
       then (if N.even c then ((c + 1)%N, c) else (c, (c - 1)%N))
  else (c, c).

Definition ci (s : string) : list (N * N) := map bothCases (js s).

(** ** The pattern library *)

(** OPTION_PREFIX_REGEX: at the start of the text, a run of white space ($1),
    a letter of [A-D] or [a-d] ($2), a run of white space ($3) and one of the
    separators [.], [)], [:] ($4).  The
    classes of its pieces are disjoint, so the greedy runs never give back a
    character and the match is the one computed here. *)
Record OptionMatch := mkOptionMatch {
  om_lead : list N;      (* $1 *)
  om_letter : N;         (* $2 *)
  om_gap : list N;       (* $3 *)
  om_sep : N;            (* $4 *)
  om_rest : list N       (* the text after the match *)
}.

Definition matchOptionPrefix (text : list N) : option OptionMatch :=
  let '(lead, r1) := spanClass isSpace text in
  match r1 with
  | c :: r2 =>
    if isOptionLetter c then
      let '(gap, r3) := spanClass isSpace r2 in
      match r3 with
      | p :: r4 =>
        if isSeparator p then Some (mkOptionMatch lead c gap p r4) else None
      | [] => None
      end
    else None
  | [] => None
  end.

Definition testOptionPrefix (text : list N) : bool :=
  bool_decide (is_Some (matchOptionPrefix text)).

(** looseRegex: the whole text is a run of white space ($1), a letter of
    [A-D] or [a-d] ($2) and a run of white space ($3). *)
Definition matchLoose (text : list N) : option (list N * N * list N) :=
  let '(lead, r1) := spanClass isSpace text in
  match r1 with
  | c :: r2 =>
    if isOptionLetter c then
      let '(gap, r3) := spanClass isSpace r2 in
      match r3 with
      | [] => Some (lead, c, gap)
      | _ :: _ => None
      end
    else None
  | [] => None
  end.

Definition testLoose (text : list N) : bool :=
  bool_decide (is_Some (matchLoose text)).

(** KEY_REGEX_EXTRACT, under the [i] flag: [<Key], white space, [=], white
    space, a captured run of code units other than [>], and [>]; a match at
    the start of
    [s], with its capture group. *)
Definition matchKeyHere (s : list N) : option (list N) :=
  r ← ciPrefix (ci "<Key") s;
  match (spanClass isSpace r).2 with
  | c :: r1 =>
    if (c =? ch "=")%N then
      let '(value, r3) :=
        spanClass (λ c, negb (c =? ch ">")%N) (spanClass isSpace r1).2 in
      match r3 with
      | _ :: _ => Some value
      | [] => None
      end
    else None
  | [] => None
  end.

(** The leftmost match of a pattern given by its match at one position. *)
Fixpoint searchFrom {A} (here : list N → option A) (s : list N) : option A :=
  match here s with
  | Some a => Some a
  | None => match s with [] => None | _ :: s' => searchFrom here s' end
  end.

Definition matchKey (text : list N) : option (list N) :=
  searchFrom matchKeyHere text.

Definition testKey (text : list N) : bool :=
  bool_decide (is_Some (matchKey text)).

(** QUESTION_START_REGEX = "/^(\s*(?:Câu|Bài|Câu hỏi)\s*\d+)([\s\.:]+)?/i":
    the groups $1 and $2 (empty when the optional group takes nothing) and
    the rest of the text. *)
Definition questionNumber (afterWord : list N) : option (list N * list N) :=
  let '(sp, r1) := spanClass isSpace afterWord in
  let '(digits, r2) := spanClass isDigit r1 in
  match digits with
  | [] => None
  | _ :: _ => Some (sp ++ digits, r2)
  end.

Definition questionWord (w : string) (s : list N) : option (list N * list N) :=
  r ← ciPrefix (ci w) s;
  '(num, rest) ← questionNumber r;
  Some (take (length (js w)) s ++ num, rest).

Definition matchQuestionStart (text : list N)
  : option (list N * list N * list N) :=
  let '(lead, r0) := spanClass isSpace text in
  '(g1, r) ← (match questionWord "Câu" r0 with
              | Some m => Some m
              | None =>
                match questionWord "Bài" r0 with
                | Some m => Some m
                | None => questionWord "Câu hỏi" r0
                end
              end);
  let '(g2, rest) :=
    spanClass (λ c, isSpace c || (c =? ch ".")%N || (c =? ch ":")%N) r in
  Some (lead ++ g1, g2, rest).

Definition testQuestionStart (text : list N) : bool :=
  bool_decide (is_Some (matchQuestionStart text)).

(** [isQuestionStart]: the text is stripped of leading white space first. *)
Definition isQuestionStart (text : list N) : bool :=
  testQuestionStart (trimStart text).

(** "/^PHẦN\s+[IVX]+\./i" at the start of [s]. *)
Definition isRoman (c : N) : bool :=
  ciChar (bothCases (ch "I")) c || ciChar (bothCases (ch "V")) c
  || ciChar (bothCases (ch "X")) c.

Definition testPartHeader (s : list N) : bool :=
  match ciPrefix (ci "PHẦN") s with
  | Some r =>
    let '(sp, r1) := spanClass isSpace r in
    let '(num, r2) := spanClass isRoman r1 in
    match sp, num, r2 with
    | _ :: _, _ :: _, c :: _ => (c =? ch ".")%N
    | _, _, _ => false
    end
  | None => false
  end.

(** "/TỰ\s+LUẬN/i" anywhere in [s]. *)
Definition essayWordHere (s : list N) : option unit :=
  r ← ciPrefix (ci "TỰ") s;
  let '(sp, r1) := spanClass isSpace r in
  match sp with
  | [] => None
  | _ :: _ => _ ← ciPrefix (ci "LUẬN") r1; Some ()
  end.

Definition testEssayWord (s : list N) : bool :=
  bool_decide (is_Some (searchFrom essayWordHere s)).

Definition isSectionHeader (text : list N) : bool :=
  testPartHeader (trim text) || testEssayWord (trim text).

(** "/PHẦN\s+(IV|4)/i" anywhere in [s]. *)
Definition partFourHere (s : list N) : option unit :=
  r ← ciPrefix (ci "PHẦN") s;
  let '(sp, r1) := spanClass isSpace r in
  match sp with
  | [] => None
  | _ :: _ =>
    match ciPrefix (ci "IV") r1 with
    | Some _ => Some ()
    | None => _ ← ciPrefix (ci "4") r1; Some ()
    end
  end.

Definition isEssaySectionLabel (text : list N) : bool :=
  bool_decide (is_Some (searchFrom partFourHere text)) || testEssayWord text.

(** The line-initial option markers of [detectType]:
    "/^([A-D])[\.\)\:]/" and "/^([a-d])[\)\.]/". *)
Definition testUpperMarker (line : list N) : bool :=
  match line with
  | c :: p :: _ => isUpperAD c && isSeparator p
  | _ => false
  end.

Definition testLowerMarker (line : list N) : bool :=
  match line with
  | c :: p :: _ => isLowerAD c && isSeparatorTF p
  | _ => false
  end.

(** "/A[\.\)\:].*B[\.\)\:].*C[\.\)\:]/s".  Under the [s] flag the dot
    matches every code unit, line terminators included, so the pattern asks
    for the three markers in this order anywhere in the text.  [afterMarker l
    s] is the text after the leftmost [l] followed by a separator. *)
Fixpoint afterMarker (l : N) (s : list N) : option (list N) :=
  match s with
  | c :: s' =>
    match s' with
    | p :: s'' =>
      if ((c =? l)%N && isSeparator p)%bool then Some s'' else afterMarker l s'
    | [] => None
    end
  | [] => None
  end.

Definition testInlineOptions (text : list N) : bool :=
  bool_decide (is_Some
    (r ← afterMarker (ch "A") text; r ← afterMarker (ch "B") r;
     afterMarker (ch "C") r)).

(** ** The document tree

    The nodes of a parsed document: text nodes and elements with their
    qualified name, attributes and children. *)

Inductive Node : Type :=
| Text (data : list N)
| Elem (name : string) (attrs : list (string * list N)) (children : list Node).

Definition nodeName (n : Node) : string :=
  match n with
  | Text _ => "#text"%string
  | Elem name _ _ => name
  end.

Definition childNodes (n : Node) : list Node :=
  match n with
  | Text _ => []
  | Elem _ _ children => children
  end.

(** [nodeType === 1] *)
Definition isElement (n : Node) : bool :=
  match n with
  | Text _ => false
  | Elem _ _ _ => true
  end.

Fixpoint textContent (n : Node) : list N :=
  match n with
  | Text data => data
  | Elem _ _ children => concat (map textContent children)
  end.

(** The descendants of a node in document order. *)
Fixpoint descendants (n : Node) : list Node :=
  match n with
  | Text _ => []
  | Elem _ _ children => concat (map (λ c, c :: descendants c) children)
  end.

Definition named (name : string) (n : Node) : bool :=
  bool_decide (nodeName n = name).

Definition getElementsByTagName (name : string) (n : Node) : list Node :=
  filter (λ d, named name d = true) (descendants n).

Definition getAttribute (name : string) (n : Node) : option (list N) :=
  match n with
  | Text _ => None
  | Elem _ attrs _ => snd <$> head (filter (λ a, a.1 = name) attrs)
  end.

(** [el.appendChild(c)] and [el.insertBefore(c, el.firstChild)] *)
Definition appendChild (c : Node) (n : Node) : Node :=
  match n with
  | Text data => Text data
  | Elem name attrs children => Elem name attrs (children ++ [c])
  end.

Definition prependChild (c : Node) (n : Node) : Node :=
  match n with
  | Text data => Text data
  | Elem name attrs children => Elem name attrs (c :: children)
  end.

(** The outcome of an update of the first descendant with a given name:
    the updated tree, no such descendant, or an exception of the DOM. *)
Inductive Upd (A : Type) : Type :=
| Updated (a : A)
| Absent
| Failed.
Arguments Updated {A} a.
Arguments Absent {A}.
Arguments Failed {A}.

Definition updMap {A B} (f : A → B) (u : Upd A) : Upd B :=
  match u with
  | Updated a => Updated (f a)
  | Absent => Absent
  | Failed => Failed
  end.

(** [f] applied to [n.getElementsByTagName(name)[0]], in place. *)
Fixpoint updateFirst (name : string) (f : Node → option Node) (n : Node)
  : Upd Node :=
  match n with
  | Text _ => Absent
  | Elem nm attrs children =>
    updMap (Elem nm attrs)
      ((fix go (cs : list Node) : Upd (list Node) :=
          match cs with
          | [] => Absent
          | c :: cs' =>
            if named name c then
              match f c with
              | Some c' => Updated (c' :: cs')
              | None => Failed
              end
            else
              match updateFirst name f c with
              | Updated c' => Updated (c' :: cs')
              | Absent => updMap (cons c) (go cs')
              | Failed => Failed
              end
          end) children)
  end.

(** [parent.removeChild(parent.getElementsByTagName(name)[0])] when there is
    such a descendant: the first one in document order is removed when it is
    a child of [parent]; [removeChild] throws when it lies deeper. *)
Fixpoint removeFirstChild (name : string) (cs : list Node)
  : Upd (list Node) :=
  match cs with
  | [] => Absent
  | c :: cs' =>
    if named name c then Updated cs'
    else match getElementsByTagName name c with
         | _ :: _ => Failed
         | [] => updMap (cons c) (removeFirstChild name cs')
         end
  end.

(** [hasUnderline]: some run of the node has, in its first [w:rPr], a first
    [w:u] whose [w:val] is absent, empty or different from "none". *)
Definition underlineOf (rPr : Node) : bool :=
  match head (getElementsByTagName "w:u" rPr) with
  | Some u =>
    match getAttribute "w:val" u with
    | None => true
    | Some val => bool_decide (val = []) || bool_decide (val ≠ js "none")
    end
  | None => false
  end.

Definition runUnderlined (r : Node) : bool :=
  match head (getElementsByTagName "w:rPr" r) with
  | Some rPr => underlineOf rPr
  | None => false
  end.

Definition hasUnderline (pNode : Node) : bool :=
  existsb runUnderlined (getElementsByTagName "w:r" pNode).

(** ** Styling helpers *)

(** [applyRunStyle(runNode, { bold: true, color })].  [None] stands for the
    exception of [removeChild]. *)
Definition styleRunProps (color : list N) (rPr : Node) : option Node :=
  let rPr :=
    match getElementsByTagName "w:b" rPr with
    | [] => appendChild (Elem "w:b" [] []) rPr
    | _ :: _ => rPr
    end in
  let newColor := Elem "w:color" [("w:val"%string, color)] [] in
  match rPr with
  | Text _ => Some rPr
  | Elem nm attrs cs =>
    match removeFirstChild "w:color" cs with
    | Updated cs' => Some (Elem nm attrs (cs' ++ [newColor]))
    | Absent => Some (Elem nm attrs (cs ++ [newColor]))
    | Failed => None
    end
  end.

Definition applyRunStyle (color : list N) (runNode : Node) : option Node :=
  let runNode :=
    match getElementsByTagName "w:rPr" runNode with
    | [] => prependChild (Elem "w:rPr" [] []) runNode
    | _ :: _ => runNode
    end in
  match updateFirst "w:rPr" (styleRunProps color) runNode with
  | Updated r => Some r
  | Absent => Some runNode
  | Failed => None
  end.

Definition blue : list N := js "0000FF".

(** ** replaceOptionLabel

    The text of the first [w:t] (in document order) that matches the standard
    or the loose pattern is rewritten; the run that holds it is styled.  The
    labels and separators passed by the callers hold no [$], so the
    replacement patterns insert them as they are. *)
Definition relabelText (newLabel separator text : list N) : option (list N) :=
  match matchOptionPrefix text with
  | Some m => Some (om_lead m ++ newLabel ++ separator ++ om_rest m)
  | None =>
    match matchLoose text with
    | Some (lead, _, gap) => Some (lead ++ newLabel ++ gap)
    | None => None
    end
  end.

(** The outcome of the walk below a node: the [w:t] itself was rewritten (its
    parent still has to be styled), a descendant was rewritten, nothing
    matched ([false] is returned), or an exception. *)
Inductive Walk (A : Type) : Type :=
| Here (a : A)
| Below (a : A)
| NoMatch
| Raised.
Arguments Here {A} a.
Arguments Below {A} a.
Arguments NoMatch {A}.
Arguments Raised {A}.

Section Relabel.

Variable rewrite : list N → option (list N).

Fixpoint relabelWalk (node : Node) : Walk Node :=
  match node with
  | Text _ => NoMatch
  | Elem nm attrs children =>
    match (if bool_decide (nm = "w:t") && negb (bool_decide (textContent node = []))
           then rewrite (textContent node) else None) with
    | Some text => Here (Elem nm attrs [Text text])
    | None =>
      match
        (fix go (cs : list Node) : Walk (list Node) :=
           match cs with
           | [] => NoMatch
           | c :: cs' =>
             match relabelWalk c with
             | Here c' => Here (c' :: cs')
             | Below c' => Below (c' :: cs')
             | NoMatch =>
               match go cs' with
               | Here r => Here (c :: r)
               | Below r => Below (c :: r)
               | NoMatch => NoMatch
               | Raised => Raised
               end
             | Raised => Raised
             end
           end) children
      with
      | Here cs' =>
        if bool_decide (nm = "w:r") then
          match applyRunStyle blue (Elem nm attrs cs') with
          | Some r => Below r
          | None => Raised
          end
        else Below (Elem nm attrs cs')
      | Below cs' => Below (Elem nm attrs cs')
      | NoMatch => NoMatch
      | Raised => Raised
      end
    end
  end.

End Relabel.

(** The node after [replaceOptionLabel(node, newLabel, separator)]; [None]
    when the call throws.  The nodes it is called on have no parent. *)
Definition replaceOptionLabel (node : Node) (newLabel separator : list N)
  : option Node :=
  match relabelWalk (relabelText newLabel separator) node with
  | Here n | Below n => Some n
  | NoMatch => Some node
  | Raised => None
  end.

(** ** Question types and the answer resolver *)

Inductive QuestionType : Type := MCQ | TRUE_FALSE | SHORT_ANSWER | ESSAY | UNKNOWN.

#[global] Instance QuestionType_eq_dec : EqDecision QuestionType.
Proof. solve_decision. Defined.

(** The loop of the MCQ branch of [getAnswerFromNodes].  [labels] is the
    table [labelsMCQ] of the caller. *)
Fixpoint scanAnswer (labels : list (list N)) (nodes : list Node)
    (currentOptionLabelIndex : nat) (answerByPosition : list N) : list N :=
  match nodes with
  | [] => answerByPosition
  | node :: rest =>
    let text := textContent node in
    if testOptionPrefix text then
      if hasUnderline node then
        match matchOptionPrefix text with
        | Some m => [toUpperLetter (om_letter m)]
        | None =>
          scanAnswer labels rest (S currentOptionLabelIndex)
            (match labels !! currentOptionLabelIndex with
             | Some l => l
             | None => answerByPosition
             end)
        end
      else scanAnswer labels rest (S currentOptionLabelIndex) answerByPosition
    else scanAnswer labels rest currentOptionLabelIndex answerByPosition
  end.

Definition getAnswerFromNodes (nodes : list Node) (type : QuestionType)
    (originalText : list N) : list N :=
  match type with
  | SHORT_ANSWER =>
    match matchKey originalText with
    | Some value => trim value
    | None => []
    end
  | ESSAY => []
  | MCQ => scanAnswer [js "A"; js "B"; js "C"; js "D"] nodes 0 []
  | TRUE_FALSE =>
    concat (map (λ node,
      if testOptionPrefix (textContent node) then
        if hasUnderline node then js "Đ" else js "S"
      else []) nodes)
  | UNKNOWN => []
  end.

(** ** The classifier *)

Definition detectType (text : list N) : QuestionType :=
  if testKey text then SHORT_ANSWER else
  let lines := map trim (splitLines text) in
  let mcqCount := length (filter (λ line, testUpperMarker line = true) lines) in
  let tfCount := length (filter (λ line, testLowerMarker line = true) lines) in
  if bool_decide (2 ≤ mcqCount) && bool_decide (tfCount < mcqCount) then MCQ
  else if bool_decide (2 ≤ tfCount) && bool_decide (mcqCount < tfCount)
  then TRUE_FALSE
  else if testInlineOptions text then MCQ
  else UNKNOWN.

(** ** Question blocks, segments and validation issues (types.ts) *)

Module QuestionBlock.
Record t : Type := mk {
  id : list N;
  originalIndex : nat;
  label : list N;
  type : QuestionType;
  xmlContent : list (list N);
  textContent : list N;
  isValid : bool;
  hasUnderline : bool;
  hasKeyTag : bool;
  section : list N;
  detectedOptionNodes : option nat
}.
End QuestionBlock.

Inductive SegmentType : Type := static | question.

#[global] Instance SegmentType_eq_dec : EqDecision SegmentType.
Proof. solve_decision. Defined.

Module DocSegment.
Record t : Type := mk {
  type : SegmentType;
  xmlContent : list (list N);
  textContent : list N;
  questionData : option QuestionBlock.t
}.
End DocSegment.

Inductive Severity : Type := error | warning.

#[global] Instance Severity_eq_dec : EqDecision Severity.
Proof. solve_decision. Defined.

Module ValidationIssue.
Record t : Type := mk {
  questionIndex : nat;
  questionLabel : list N;
  issue : list N;
  suggestion : list N;
  severity : Severity;
  questionId : list N;
  questionType : QuestionType
}.
End ValidationIssue.

(** ** getValidationIssues *)

Definition issueOf (q : QuestionBlock.t) (index : nat) (issue suggestion : string)
    (severity : Severity) : ValidationIssue.t :=
  ValidationIssue.mk index (QuestionBlock.label q) (js issue) (js suggestion)
    severity (QuestionBlock.id q) (QuestionBlock.type q).

(** The issues pushed for the question [q] at position [index]. *)
Definition questionIssues (q : QuestionBlock.t) (index : nat)
  : list ValidationIssue.t :=
  match QuestionBlock.type q with
  | MCQ =>
    (match QuestionBlock.detectedOptionNodes q with
     | Some n =>
       if bool_decide (n < 2) then
         [issueOf q index "Các đáp án không nằm trên dòng riêng biệt."
            "Vui lòng ngắt dòng (Enter) giữa các đáp án A, B, C, D để phần mềm có thể trộn."
            error]
       else []
     | None => []
     end) ++
    (if negb (QuestionBlock.hasUnderline q) then
       [issueOf q index "Chưa gạch chân đáp án đúng."
          "Vui lòng gạch chân (Underline) vào đáp án đúng (A, B, C hoặc D)."
          error]
     else [])
  | TRUE_FALSE =>
    if negb (QuestionBlock.hasUnderline q) then
      [issueOf q index "Chưa có ý nào được gạch chân (Đúng)."
         "Gạch chân vào các ý Đúng (a, b, c, d). Nếu tất cả đều Sai, hãy kiểm tra lại xem đã định dạng đúng chưa."
         warning]
    else []
  | SHORT_ANSWER =>
    if negb (QuestionBlock.hasKeyTag q) then
      [issueOf q index "Thiếu thẻ đáp án <Key=...>."
         "Thêm thẻ <Key=Giá trị> vào cuối câu hỏi."
         error]
    else []
  | ESSAY =>
    if bool_decide (QuestionBlock.textContent q = [])
       || bool_decide (length (trim (QuestionBlock.textContent q)) < 5) then
      [issueOf q index "Nội dung câu tự luận quá ngắn hoặc trống."
         "Kiểm tra lại nội dung câu hỏi."
         warning]
    else []
  | UNKNOWN =>
    [issueOf q index "Không nhận diện được dạng câu hỏi."
       "Kiểm tra lại định dạng. Nếu là tự luận, hãy đảm bảo nó nằm trong phần có tiêu đề 'PHẦN IV' hoặc 'TỰ LUẬN'."
       error]
  end.

Definition getValidationIssues (questions : list QuestionBlock.t)
  : list ValidationIssue.t :=
  concat (imap (λ index q, questionIssues q index) questions).

(** ** The platform

    The XML parser and serialiser and the UUID generator belong to the
    browser.  [parseFromString] gives the document node (its children are the
    top-level nodes of the document), [serializeToString] the markup of a
    node, [randomUUID n] the identifier drawn for the [n]-th question. *)

Definition quote : N := 34%N.

Definition W_NAMESPACE : list N :=
  js "http://schemas.openxmlformats.org/wordprocessingml/2006/main".

(** The wrapper of [parseXmlToNodes] and [applyFixToQuestion]. *)
Definition wrapBody (xml : list N) : list N :=
  js "<w:body xmlns:w=" ++ [quote] ++ W_NAMESPACE ++ [quote] ++ js ">"
  ++ xml ++ js "</w:body>".

Definition documentElement (doc : Node) : option Node :=
  head (filter (λ c, isElement c = true) (childNodes doc)).

Module ProcessedDoc.
Record t : Type := mk {
  questions : list QuestionBlock.t;
  segments : list DocSegment.t;
  originalXml : list N;
  zip : gmap string (list N);
  finalSectPr : option (list N)
}.
End ProcessedDoc.

(** The result of a call that may throw [new Error(message)]. *)
Inductive Result (A : Type) : Type :=
| Ok (a : A)
| Thrown (message : list N).
Arguments Ok {A} a.
Arguments Thrown {A} message.

Section Platform.

Variable parseFromString : list N → Node.
Variable serializeToString : Node → list N.
Variable randomUUID : nat → list N.

(** *** processDocxFile *)

(** The state of the segmenter loop. *)
Record Segmenter := mkSegmenter {
  segments : list DocSegment.t;
  questions : list QuestionBlock.t;
  currentSegment : option DocSegment.t;
  accumulatedNodes : list Node;
  currentSectionLabel : list N
}.

(** The label of a question, normalised to "Câu X". *)
Definition questionLabel (text : list N) : list N :=
  match matchQuestionStart text with
  | Some (g1, _, _) =>
    let l := trim g1 in
    match ciPrefix (ci "Bài") l with
    | Some r => js "Câu " ++ trimStart r
    | None =>
      match ciPrefix (ci "Câu hỏi") l with
      | Some r => js "Câu " ++ trimStart r
      | None => l
      end
    end
  | None => js "Câu ?"
  end.

(** The question block of a finished question segment. *)
Definition buildQuestion (text : list N) (xmlContent : list (list N))
    (nodes : list Node) (sectionLabel : list N) (index : nat)
  : QuestionBlock.t :=
  let label := questionLabel text in
  let hasKey := testKey text in
  let qType := detectType text in
  let qType :=
    if isEssaySectionLabel sectionLabel
    then (if bool_decide (qType = UNKNOWN) then ESSAY else qType)
    else qType in
  let paragraphs := filter (λ node, named "w:p" node = true) nodes in
  let hasU := existsb hasUnderline paragraphs in
  let optionNodeCount :=
    length (filter (λ node,
      (bool_decide (qType = MCQ) || bool_decide (qType = TRUE_FALSE))
      && negb (bool_decide (textContent node = []))
      && testOptionPrefix (textContent node) = true) paragraphs) in
  let isValid := true in
  let isValid :=
    if bool_decide (qType = MCQ) && negb hasU then false else isValid in
  let isValid :=
    if bool_decide (qType = TRUE_FALSE) && negb hasU then false else isValid in
  let isValid :=
    if bool_decide (qType = SHORT_ANSWER) && negb hasKey then false
    else isValid in
  let isValid := if bool_decide (qType = ESSAY) then true else isValid in
  let isValid := if bool_decide (qType = UNKNOWN) then false else isValid in
  QuestionBlock.mk (randomUUID index) index label qType xmlContent text
    isValid hasU hasKey sectionLabel (Some optionNodeCount).

Definition finishCurrentSegment (st : Segmenter) : Segmenter :=
  match currentSegment st with
  | None => st
  | Some seg =>
    let xmlContent := map serializeToString (accumulatedNodes st) in
    let text := DocSegment.textContent seg in
    match DocSegment.type seg with
    | question =>
      let qBlock :=
        buildQuestion text xmlContent (accumulatedNodes st)
          (currentSectionLabel st) (length (questions st)) in
      mkSegmenter
        (segments st ++ [DocSegment.mk question xmlContent text (Some qBlock)])
        (questions st ++ [qBlock]) None [] (currentSectionLabel st)
    | static =>
      mkSegmenter
        (segments st ++ [DocSegment.mk static xmlContent text None])
        (questions st) None [] (currentSectionLabel st)
    end
  end.

(** The body of the loop over the children of the body. *)
Definition segmentNode (st : Segmenter) (node : Node) : Segmenter :=
  let text := textContent node in
  if named "w:p" node && isSectionHeader text then
    let st := finishCurrentSegment st in
    mkSegmenter (segments st) (questions st)
      (Some (DocSegment.mk static [] text None))
      (accumulatedNodes st ++ [node]) (trim text)
  else if named "w:p" node && isQuestionStart text then
    let st := finishCurrentSegment st in
    mkSegmenter (segments st) (questions st)
      (Some (DocSegment.mk question [] text None))
      (accumulatedNodes st ++ [node]) (currentSectionLabel st)
  else
    let seg := default (DocSegment.mk static [] [] None) (currentSegment st) in
    let sep :=
      match DocSegment.textContent seg with
      | [] => []
      | _ :: _ => [10%N]
      end in
    mkSegmenter (segments st) (questions st)
      (Some (DocSegment.mk (DocSegment.type seg) (DocSegment.xmlContent seg)
               (DocSegment.textContent seg ++ sep ++ text)
               (DocSegment.questionData seg)))
      (accumulatedNodes st ++ [node]) (currentSectionLabel st).

(** The last [w:sectPr] element among the children is taken out. *)
Fixpoint takeFirst (p : Node → bool) (l : list Node)
  : option (Node * list Node) :=
  match l with
  | [] => None
  | x :: l' =>
    if p x then Some (x, l')
    else '(y, r) ← takeFirst p l'; Some (y, x :: r)
  end.

Definition extractSectPr (children : list Node) : option Node * list Node :=
  match takeFirst (λ n, isElement n && named "w:sectPr" n) (reverse children)
  with
  | Some (sectPr, r) => (Some sectPr, reverse r)
  | None => (None, children)
  end.

Definition missingDocument : list N :=
  js "Không tìm thấy word/document.xml. File docx không hợp lệ.".
Definition missingBody : list N :=
  js "Cấu trúc file lỗi (thiếu w:body).".

(** [processDocxFile], from the archive that [JSZip.loadAsync] gives. *)
Definition processDocxFile (zip : gmap string (list N))
  : Result ProcessedDoc.t :=
  match zip !! "word/document.xml"%string with
  | None => Thrown missingDocument
  | Some xmlString =>
    let xmlDoc := parseFromString xmlString in
    match head (getElementsByTagName "w:body" xmlDoc) with
    | None => Thrown missingBody
    | Some body =>
      let '(sectPr, children) := extractSectPr (childNodes body) in
      let st :=
        finishCurrentSegment
          (foldl segmentNode (mkSegmenter [] [] None [] []) children) in
      Ok (ProcessedDoc.mk (questions st) (segments st) xmlString zip
            (serializeToString <$> sectPr))
    end
  end.

(** *** applyFixToQuestion

    The call returns a boolean and updates the question in place; [None]
    stands for a call that ends in an exception of the DOM. *)

Definition newRunProps : Node :=
  Elem "w:rPr" [("xmlns:w"%string, W_NAMESPACE)] [].
Definition newUnderline : Node :=
  Elem "w:u" [("w:val"%string, js "single"); ("xmlns:w"%string, W_NAMESPACE)] [].

(** The body of [runs.forEach]: the first [w:rPr] of the run (created when
    there is none) loses its first [w:u] and receives a new one. *)
Definition setUnderline (rPr : Node) : option Node :=
  match rPr with
  | Text _ => Some rPr
  | Elem nm attrs cs =>
    match removeFirstChild "w:u" cs with
    | Updated cs' => Some (Elem nm attrs (cs' ++ [newUnderline]))
    | Absent => Some (Elem nm attrs (cs ++ [newUnderline]))
    | Failed => None
    end
  end.

Definition underlineRun (r : Node) : option Node :=
  let r :=
    match getElementsByTagName "w:rPr" r with
    | [] => prependChild newRunProps r
    | _ :: _ => r
    end in
  match updateFirst "w:rPr" setUnderline r with
  | Updated r' => Some r'
  | Absent => Some r
  | Failed => None
  end.

Fixpoint height (n : Node) : nat :=
  match n with
  | Text _ => 0
  | Elem _ _ cs => S (foldr (λ c h, max (height c) h) 0 cs)
  end.

(** The runs below a node are visited in document order, each one after the
    runs that contain it have been rewritten.  The elements that the visit
    adds hold no run, so the visit ends within the height of the node; a
    [w:u] that is taken out is assumed to hold no run. *)
Fixpoint underlineRunsWithin (depth : nat) (n : Node) : option Node :=
  match depth, n with
  | S depth', Elem nm attrs cs =>
    Elem nm attrs <$>
      mapM (λ c,
        c' ← (if named "w:r" c then underlineRun c else Some c);
        underlineRunsWithin depth' c') cs
  | _, _ => Some n
  end.

Definition underlineRuns (node : Node) : option Node :=
  match node with
  | Text _ => None      (* a text node has no [getElementsByTagName] *)
  | Elem _ _ _ => underlineRunsWithin (height node) node
  end.

(** [match[2].toLowerCase() === fixValue.toLowerCase()]: the letter of the
    match is one of A-D, a-d, and the strings whose lower case is that single
    letter are its two case forms. *)
Definition sameLetter (letter : N) (fixValue : list N) : bool :=
  match fixValue with
  | [c] => isOptionLetter c && (toLowerLetter c =? toLowerLetter letter)%N
  | _ => false
  end.

(** The loop over the nodes of an MCQ or TRUE_FALSE question: the nodes after
    the loop and whether one was modified. *)
Fixpoint underlineOptions (fixValue : list N) (nodes : list Node)
  : option (list Node * bool) :=
  match nodes with
  | [] => Some ([], false)
  | node :: rest =>
    '(node', modified) ←
      (match matchOptionPrefix (textContent node) with
       | Some m =>
         if sameLetter (om_letter m) fixValue
         then node' ← underlineRuns node; Some (node', true)
         else Some (node, false)
       | None => Some (node, false)
       end);
    '(rest', modifiedRest) ← underlineOptions fixValue rest;
    Some (node' :: rest', modified || modifiedRest)
  end.

Definition keyRunXml (fixValue : list N) : list N :=
  js "<w:r xmlns:w=" ++ [quote] ++ W_NAMESPACE ++ [quote]
  ++ js "><w:t xml:space=" ++ [quote] ++ js "preserve" ++ [quote]
  ++ js "> &lt;Key=" ++ fixValue ++ js "&gt;</w:t></w:r>".

(** The branches on the type of the question: the nodes, [isModified] and
    the question after them. *)
Definition fixNodes (q : QuestionBlock.t) (fixValue : list N)
    (nodes : list Node) : option (list Node * bool * QuestionBlock.t) :=
  match QuestionBlock.type q with
  | MCQ | TRUE_FALSE =>
    '(nodes', modified) ← underlineOptions fixValue nodes;
    Some (nodes', modified,
      if modified : bool then
        QuestionBlock.mk (QuestionBlock.id q) (QuestionBlock.originalIndex q)
          (QuestionBlock.label q) (QuestionBlock.type q)
          (QuestionBlock.xmlContent q) (QuestionBlock.textContent q)
          (QuestionBlock.isValid q) true (QuestionBlock.hasKeyTag q)
          (QuestionBlock.section q) (QuestionBlock.detectedOptionNodes q)
      else q)
  | SHORT_ANSWER =>
    match last nodes with
    | Some lastNode =>
      newRun ← documentElement (parseFromString (keyRunXml fixValue));
      if isElement lastNode then
        Some (take (length nodes - 1) nodes ++ [appendChild newRun lastNode],
              true,
              QuestionBlock.mk (QuestionBlock.id q)
                (QuestionBlock.originalIndex q) (QuestionBlock.label q)
                (QuestionBlock.type q) (QuestionBlock.xmlContent q)
                (QuestionBlock.textContent q
                   ++ js " <Key=" ++ fixValue ++ js ">")
                (QuestionBlock.isValid q) (QuestionBlock.hasUnderline q) true
                (QuestionBlock.section q)
                (QuestionBlock.detectedOptionNodes q))
      else None
    | None => Some (nodes, false, q)
    end
  | _ => Some (nodes, false, q)
  end.

Definition applyFixToQuestion (question : QuestionBlock.t) (fixValue : list N)
  : option (bool * QuestionBlock.t) :=
  docs ← mapM (λ xml, documentElement (parseFromString (wrapBody xml)))
    (QuestionBlock.xmlContent question);
  let nodes := omap (λ root, head (childNodes root)) docs in
  r ← fixNodes question fixValue nodes;
  let '(nodes, isModified, q) := r in
  if isModified : bool then
    Some (true,
      QuestionBlock.mk (QuestionBlock.id q) (QuestionBlock.originalIndex q)
        (QuestionBlock.label q) (QuestionBlock.type q)
        (map serializeToString nodes) (QuestionBlock.textContent q)
        true (QuestionBlock.hasUnderline q) (QuestionBlock.hasKeyTag q)
        (QuestionBlock.section q) (QuestionBlock.detectedOptionNodes q))
  else Some (false, q).

End Platform.

(** ** Exam codes and the cells of the answer table

    The codes and counts of the callers are integers.  [toString] is the
    decimal notation of an integer and [Number] reads it back. *)

Definition toString (z : Z) : list N :=
  map N_of_ascii (list_ascii_of_string (NilZero.string_of_int (Z.to_int z))).

Definition Number (s : list N) : Z :=
  match NilZero.int_of_string (string_of_list_ascii (map ascii_of_N s)) with
  | Some i => Z.of_int i
  | None => 0%Z         (* not a number: no code of the program reads so *)
  end.

Inductive Cell : Type :=
| CellNumber (n : nat)
| CellText (s : list N).

Module Variant.
Record t : Type := mk {
  code : list N;
  answers : gmap nat (list N)
}.
End Variant.

Module AnswerTable.
Record t : Type := mk {
  variants : list Variant.t;               (* allVariantAnswers *)
  header : list (list N);
  excelRows : list (gmap (list N) Cell)
}.
End AnswerTable.

(** [codes.sort((a, b) => Number(a) - Number(b))]: the sort is stable. *)
Fixpoint insertCode (code : list N) (sorted : list (list N)) : list (list N) :=
  match sorted with
  | [] => [code]
  | c :: rest =>
    if (Number code <=? Number c)%Z then code :: c :: rest
    else c :: insertCode code rest
  end.

Definition sortCodes (codes : list (list N)) : list (list N) :=
  foldr insertCode [] codes.

(** One row of the table: [{ STT: qIdx }] and one cell per code. *)
Definition excelRow (allVariantAnswers : list Variant.t)
    (variantCodes : list (list N)) (qIdx : nat) : gmap (list N) Cell :=
  foldl (λ row code,
    match find (λ v, bool_decide (Variant.code v = code)) allVariantAnswers with
    | Some variant =>
      <[code := CellText (default [] (Variant.answers variant !! qIdx))]> row
    | None => row
    end) {[ js "STT" := CellNumber qIdx ]} variantCodes.

(** ** The random source

    [Math.random] is the only source of nondeterminism.  A run of the program
    is determined by the sequence of values it returns; [random k] stands for
    the value drawn by the [k]-th call and every function that draws threads
    the number of calls made so far.  [Math.floor(Math.random() * m)] is a
    value below [m], here [random k mod m]. *)

Section Engine.

Variable random : nat → nat.

Definition randomBelow (m : nat) (k : nat) : nat := random k mod m.

(** [[arr[i], arr[j]] = [arr[j], arr[i]]] *)
Definition swap {A} (arr : list A) (i j : nat) : list A :=
  match arr !! i, arr !! j with
  | Some x, Some y => <[j:=x]> (<[i:=y]> arr)
  | _, _ => arr
  end.

(** The loop of [shuffleArray]: [for (i = ...; i > 0; i--)]. *)
Fixpoint shuffleLoop {A} (i : nat) (arr : list A) (k : nat) : list A * nat :=
  match i with
  | 0 => (arr, k)
  | S i' => shuffleLoop i' (swap arr i (randomBelow (i + 1) k)) (S k)
  end.

Definition shuffleArray {A} (array : list A) (k : nat) : list A * nat :=
  shuffleLoop (length array - 1) array k.

(** ** generateBalancedKeys *)

Definition options : list (list N) := [js "A"; js "B"; js "C"; js "D"].

Definition generateBalancedKeys (totalQuestions : nat) (k : nat)
  : list (list N) * nat :=
  let baseCount := totalQuestions / 4 in
  let remainder := totalQuestions mod 4 in
  let keys := concat (map (replicate baseCount) options) in
  let '(keys, k) :=
    if decide (0 < remainder) then
      let '(shuffled, k) := shuffleArray options k in
      (keys ++ take remainder shuffled, k)
    else (keys, k) in
  shuffleArray keys k.

(** ** shuffleQuestionOptions

    The nodes of a question are distinct objects, and the function permutes
    references to them and rewrites them in place.  A reference is the index
    of the node in the list the function receives; the objects are the
    entries of a store indexed by these references. *)

Record OptionScan := mkOptionScan {
  optionIndices : list nat;
  correctOptionIndexOriginal : option nat;     (* [None] is -1 *)
  detectedSeparator : list N
}.

(** The body of the first [forEach]. *)
Definition scanNode (type : QuestionType) (st : OptionScan) (idx : nat)
    (node : Node) : OptionScan :=
  let text := textContent node in
  let correct :=
    if bool_decide (type = MCQ) && hasUnderline node then Some idx
    else correctOptionIndexOriginal st in
  match matchOptionPrefix text with
  | Some m => mkOptionScan (optionIndices st ++ [idx]) correct [om_sep m]
  | None =>
    if testLoose text
    then mkOptionScan (optionIndices st ++ [idx]) correct (detectedSeparator st)
    else st
  end.

Fixpoint scanNodes (type : QuestionType) (nodes : list Node) (idx : nat)
    (st : OptionScan) : OptionScan :=
  match nodes with
  | [] => st
  | node :: rest => scanNodes type rest (S idx) (scanNode type st idx node)
  end.

(** [targetMap[targetLabel] ?? 0] *)
Definition targetMap (targetLabel : list N) : nat :=
  if bool_decide (targetLabel = js "A") then 0
  else if bool_decide (targetLabel = js "B") then 1
  else if bool_decide (targetLabel = js "C") then 2
  else if bool_decide (targetLabel = js "D") then 3
  else 0.

(** The loop that places the pinned node: [remaining] positions are still to
    fill, from position [i] on. *)
Fixpoint placePinned (remaining i targetIndex correctNode : nat)
    (shuffledDistractors : list nat) (distractorIdx : nat) : list nat :=
  match remaining with
  | 0 => []
  | S remaining' =>
    if bool_decide (i = targetIndex) then
      correctNode
        :: placePinned remaining' (S i) targetIndex correctNode
             shuffledDistractors distractorIdx
    else
      default correctNode (shuffledDistractors !! distractorIdx)
        :: placePinned remaining' (S i) targetIndex correctNode
             shuffledDistractors (S distractorIdx)
  end.

Definition labelsMCQ : list (list N) :=
  [js "A"; js "B"; js "C"; js "D"; js "E"; js "F"].
Definition labelsTF : list (list N) :=
  [js "a"; js "b"; js "c"; js "d"; js "e"; js "f"].

(** [labels[idx]] inside a template literal: past the table it reads
    "undefined". *)
Definition labelAt (type : QuestionType) (idx : nat) : list N :=
  default (js "undefined")
    ((if bool_decide (type = MCQ) then labelsMCQ else labelsTF) !! idx).

(** The second [forEach]: the node at the new position [idx] is rewritten in
    the store.  [None] when [replaceOptionLabel] throws. *)
Fixpoint relabelShuffled (type : QuestionType) (detected : list N)
    (shuffledNodes : list nat) (idx : nat) (store : list Node)
  : option (list Node) :=
  match shuffledNodes with
  | [] => Some store
  | ref :: rest =>
    let separatorToUse :=
      if bool_decide (type = MCQ) then js "." else detected in
    match store !! ref with
    | Some node =>
      node' ← replaceOptionLabel node (labelAt type idx) separatorToUse;
      relabelShuffled type detected rest (S idx) (<[ref:=node']> store)
    | None => relabelShuffled type detected rest (S idx) store
    end
  end.

(** The last [forEach]: [newNodes[originalIndex] = shuffledNodes[i]]. *)
Fixpoint writeBack (store : list Node) (optionIndices shuffledNodes : list nat)
    (newNodes : list Node) : list Node :=
  match optionIndices, shuffledNodes with
  | originalIndex :: os, ref :: rs =>
    writeBack store os rs
      (match store !! ref with
       | Some node => <[originalIndex:=node]> newNodes
       | None => newNodes
       end)
  | _, _ => newNodes
  end.

(** The choice of the new order: the correct node pinned at the position of
    the target label and the shuffled distractors around it, or a shuffle of
    all the option nodes. *)
Definition chooseOrder (type : QuestionType) (targetLabel : option (list N))
    (scan : OptionScan) (k : nat) : list nat * nat :=
  let optionIndices := optionIndices scan in
  match type, targetLabel, correctOptionIndexOriginal scan with
  | MCQ, Some (c :: label), Some correctNode =>
    let distractors := filter (λ n, n ≠ correctNode) optionIndices in
    let '(shuffledDistractors, k) := shuffleArray distractors k in
    let targetIndex := targetMap (c :: label) in
    let targetIndex :=
      if bool_decide (length optionIndices ≤ targetIndex)
      then targetIndex mod length optionIndices else targetIndex in
    (placePinned (length optionIndices) 0 targetIndex correctNode
       shuffledDistractors 0, k)
  | _, _, _ => shuffleArray optionIndices k
  end.

Definition shuffleQuestionOptions (nodes : list Node) (type : QuestionType)
    (targetLabel : option (list N)) (k : nat) : option (list Node * nat) :=
  if bool_decide (type = ESSAY) then Some (nodes, k) else
  let scan := scanNodes type nodes 0 (mkOptionScan [] None (js ".")) in
  let optionIndices := optionIndices scan in
  if bool_decide (length optionIndices < 2) then Some (nodes, k) else
  let '(shuffledNodes, k) := chooseOrder type targetLabel scan k in
  store ← relabelShuffled type (detectedSeparator scan) shuffledNodes 0 nodes;
  Some (writeBack store optionIndices shuffledNodes store, k).

(** ** generateVariants

    The body of the loop builds the document of one variant with the calls
    above and the DOM of the platform, and fills [variantAnswers] for the
    global indices of the questions it renders.  It is the parameter
    [renderVariant] here: from the code of the variant and the number of
    random draws so far, the answer map of the variant and the number of
    draws after it, or [None] when the body throws. *)

Section Variants.

Variable renderVariant : list N → nat → option (gmap nat (list N) * nat).

(** [for (let i = 1; i <= count; i++)], with [remaining] iterations to go. *)
Fixpoint variantLoop (startCode : Z) (remaining : nat) (i : Z) (k : nat)
    (allVariantAnswers : list Variant.t) : option (list Variant.t * nat) :=
  match remaining with
  | 0 => Some (allVariantAnswers, k)
  | S remaining' =>
    let variantCode := toString (startCode + i - 1) in
    '(variantAnswers, k) ← renderVariant variantCode k;
    variantLoop startCode remaining' (i + 1) k
      (allVariantAnswers ++ [Variant.mk variantCode variantAnswers])
  end.

Definition generateVariants (docData : ProcessedDoc.t) (count startCode : Z)
    (k : nat) : option (AnswerTable.t * nat) :=
  '(allVariantAnswers, k) ← variantLoop startCode (Z.to_nat count) 1 k [];
  let totalQuestions := length (ProcessedDoc.questions docData) in
  let variantCodes := sortCodes (map Variant.code allVariantAnswers) in
  let excelRows :=
    map (excelRow allVariantAnswers variantCodes) (seq 1 totalQuestions) in
  Some (AnswerTable.mk allVariantAnswers (js "STT" :: variantCodes) excelRows, k).

End Variants.

(** Number of occurrences of a key in a key list. *)
Definition occurrences (x : list N) (l : list (list N)) : nat :=
  length (filter (x =.) l).

End Engine.

(** * Definitions on the side of the specification, and sample documents *)

(** The validity rules of a question that fail, counted from the fields the
    rules read. *)
Definition failingRules (q : QuestionBlock.t) : nat :=
  match QuestionBlock.type q with
  | MCQ =>
    (match QuestionBlock.detectedOptionNodes q with
     | Some n => if bool_decide (n < 2) then 1 else 0
     | None => 0
     end)
    + (if QuestionBlock.hasUnderline q then 0 else 1)
  | TRUE_FALSE => if QuestionBlock.hasUnderline q then 0 else 1
  | SHORT_ANSWER => if QuestionBlock.hasKeyTag q then 0 else 1
  | ESSAY =>
    if bool_decide (5 ≤ length (trim (QuestionBlock.textContent q))) then 0
    else 1
  | UNKNOWN => 1
  end.

(** The severity that goes with the type of a question. *)
Definition severityOf (type : QuestionType) : Severity :=
  match type with
  | TRUE_FALSE | ESSAY => warning
  | MCQ | SHORT_ANSWER | UNKNOWN => error
  end.

(** The essay question with an empty text. *)
Definition emptyEssay : QuestionBlock.t :=
  QuestionBlock.mk (js "q1") 0 (js "Câu 1") ESSAY [] [] true false false
    (js "PHẦN IV. TỰ LUẬN") (Some 0).

(** Sample paragraphs: runs with and without underline. *)
Definition plainRun (text : string) : Node :=
  Elem "w:r" [] [Elem "w:t" [] [Text (js text)]].
Definition underlinedRun (text : string) : Node :=
  Elem "w:r" []
    [Elem "w:rPr" [] [Elem "w:u" [("w:val"%string, js "single")] []];
     Elem "w:t" [] [Text (js text)]].
Definition paragraph (runs : list Node) : Node := Elem "w:p" [] runs.

(** A document whose only question keeps its options inside the line of the
    stem, the first of them underlined. *)
Definition inlineDoc : Node :=
  Elem "#document" []
    [Elem "w:document" []
       [Elem "w:body" []
          [paragraph [plainRun "Câu 1: x "; underlinedRun "A. 1 ";
                      plainRun "B. 2 C. 3"]]]].

Definition sampleZip : gmap string (list N) :=
  {[ "word/document.xml"%string := js "<w:document/>" ]}.

(** A question block built from the nodes of a question segment. *)
Definition builtFrom (serializeToString : Node → list N)
    (randomUUID : nat → list N) (nodes : list Node) (q : QuestionBlock.t)
  : Prop :=
  ∃ text sectionLabel index,
    q = buildQuestion randomUUID text (map serializeToString nodes) nodes
          sectionLabel index.

(** "An inline run of at least 3 uppercase option markers within a single
    line", in the words of the specification: some line of the text holds
    three or more letters of [A-D] followed by a separator. *)
Fixpoint countMarkers (line : list N) : nat :=
  match line with
  | c :: rest =>
    (match rest with
     | p :: _ => if isUpperAD c && isSeparator p then 1 else 0
     | [] => 0
     end) + countMarkers rest
  | [] => 0
  end.

Definition inlineRunOnOneLine (text : list N) : bool :=
  existsb (λ line, bool_decide (3 ≤ countMarkers line)) (splitLines text).

(** The counts of line-initial markers of [detectType]. *)
Definition upperLines (text : list N) : nat :=
  length (filter (λ line, testUpperMarker line = true)
            (map trim (splitLines text))).
Definition lowerLines (text : list N) : nat :=
  length (filter (λ line, testLowerMarker line = true)
            (map trim (splitLines text))).

(** The markers A, B, C in this order, each followed by a separator,
    anywhere in the text. *)
Definition markersInOrder (text : list N) : Prop :=
  ∃ pre s1 mid1 s2 mid2 s3 post,
    text = pre ++ ch "A" :: s1 :: mid1 ++ ch "B" :: s2 :: mid2
               ++ ch "C" :: s3 :: post
    ∧ isSeparator s1 = true ∧ isSeparator s2 = true ∧ isSeparator s3 = true.

(** Three marked options on three lines, none of them at the start of its
    line. *)
Definition threeLines : list N := js "xA. 1" ++ [10%N] ++ js "xB. 2" ++ [10%N] ++ js "xC. 3".

(** A document without a body element. *)
Definition bodylessDoc : Node := Elem "#document" [] [Elem "w:document" [] []].

(** The nodes that [applyFixToQuestion] reads from the markup of a question. *)
Definition fixableNodes (parseFromString : list N → Node)
    (q : QuestionBlock.t) : option (list Node) :=
  omap (λ root, head (childNodes root)) <$>
    mapM (λ xml, documentElement (parseFromString (wrapBody xml)))
      (QuestionBlock.xmlContent q).

(** No option node of the list has the letter of [fixValue]. *)
Definition noOptionWithLetter (fixValue : list N) (nodes : list Node) : Prop :=
  Forall (λ node, ∀ m,
    matchOptionPrefix (textContent node) = Some m →
    sameLetter (om_letter m) fixValue = false) nodes.

(** An MCQ question with two options, and the parser that reads its markup
    (the markup of the sample is the text of the paragraph). *)
Definition twoOptions : QuestionBlock.t :=
  QuestionBlock.mk (js "q1") 0 (js "Câu 1") MCQ [js "A. x"; js "B. y"]
    (js "Câu 1" ++ [10%N] ++ js "A. x" ++ [10%N] ++ js "B. y")
    false false false [] (Some 2).

Definition sampleParser (xml : list N) : Node :=
  Elem "#document" []
    [Elem "w:body" []
       [Elem "w:p" [] [Elem "w:r" [] [Elem "w:t" []
          [Text (take (length xml - length (wrapBody []))
                   (drop (length (wrapBody []) - 9) xml))]]]]].

Definition noContent : QuestionBlock.t :=
  QuestionBlock.mk (js "q2") 1 (js "Câu 2") SHORT_ANSWER [] (js "Câu 2")
    false false false [] (Some 0).

(** The first option node that carries the underline marker. *)
Definition firstUnderlinedOption (nodes : list Node) : option Node :=
  find (λ node, testOptionPrefix (textContent node) && hasUnderline node) nodes.

(** The question of the scenario: a stem, and four options of which the
    third has its marker underlined. *)
Definition scenarioNodes : list Node :=
  [paragraph [plainRun "Câu 1: ..."];
   paragraph [plainRun "A. opt"];
   paragraph [plainRun "B. opt"];
   paragraph [underlinedRun "C."; plainRun " opt"];
   paragraph [plainRun "D. opt"]].

(** A loop body that records the answers "A" and "B" for two questions, and
    a processed document with two questions. *)
Definition sampleRender (code : list N) (k : nat)
  : option (gmap nat (list N) * nat) :=
  Some ({[ 1 := js "A"; 2 := js "B" ]}, k).

Definition sampleProcessed : ProcessedDoc.t :=
  ProcessedDoc.mk [twoOptions; noContent] [] [] sampleZip None.

(** The codes of the variants [i], [i + 1], ... *)
Definition codesFrom (startCode i : Z) (n : nat) : list (list N) :=
  map (λ j : nat, toString (startCode + (i + Z.of_nat j) - 1)%Z) (seq 0 n).

(** The answers of a variant are those its loop body recorded. *)
Definition recorded
    (renderVariant : list N → nat → option (gmap nat (list N) * nat))
    (v : Variant.t) : Prop :=
  ∃ k0 k1, renderVariant (Variant.code v) k0 = Some (Variant.answers v, k1).

(** The loop over the children in [relabelWalk] and in [updateFirst], as
    functions of their own. *)
Section WalkChildren.

Variable rewrite : list N → option (list N).

Fixpoint relabelChildren (cs : list Node) : Walk (list Node) :=
  match cs with
  | [] => NoMatch
  | c :: cs' =>
    match relabelWalk rewrite c with
    | Here c' => Here (c' :: cs')
    | Below c' => Below (c' :: cs')
    | NoMatch =>
      match relabelChildren cs' with
      | Here r => Here (c :: r)
      | Below r => Below (c :: r)
      | NoMatch => NoMatch
      | Raised => Raised
      end
    | Raised => Raised
    end
  end.

End WalkChildren.

Section UpdateChildren.

Variable name : string.
Variable f : Node → option Node.

Fixpoint updateFirstList (cs : list Node) : Upd (list Node) :=
  match cs with
  | [] => Absent
  | c :: cs' =>
    if named name c then
      match f c with
      | Some c' => Updated (c' :: cs')
      | None => Failed
      end
    else
      match updateFirst name f c with
      | Updated c' => Updated (c' :: cs')
      | Absent => updMap (cons c) (updateFirstList cs')
      | Failed => Failed
      end
  end.

End UpdateChildren.

(** *** Plain paragraphs

    The paragraphs that a word processor writes for an option: the children
    of the paragraph are runs and elements that hold neither text nor runs (the
    paragraph properties); the children of a run are its properties [w:rPr],
    whose children are empty elements, text elements [w:t], whose children are
    text nodes, and elements that hold no text, run or run properties (tabs,
    breaks).  [inert banned n]: [n] is an element, and neither it nor any of
    its descendants is a text node or has a name of [banned]. *)
Definition runNames : list string := ["w:r"; "w:t"; "w:rPr"]%string.

Fixpoint inert (banned : list string) (n : Node) : bool :=
  match n with
  | Text _ => false
  | Elem nm _ cs =>
    negb (bool_decide (nm ∈ banned)) && forallb (inert banned) cs
  end.

Definition isProp (n : Node) : bool :=
  match n with
  | Elem nm _ [] => negb (bool_decide (nm ∈ runNames))
  | _ => false
  end.

Definition isText (n : Node) : bool :=
  match n with
  | Text _ => true
  | Elem _ _ _ => false
  end.

Definition simpleRunChild (c : Node) : bool :=
  match c with
  | Text _ => false
  | Elem nm _ cs =>
    if bool_decide (nm = "w:rPr"%string) then forallb isProp cs
    else if bool_decide (nm = "w:t"%string) then forallb isText cs
    else inert runNames c
  end.

Definition simpleParChild (c : Node) : bool :=
  match c with
  | Text _ => false
  | Elem nm _ cs =>
    if bool_decide (nm = "w:r"%string) then forallb simpleRunChild cs
    else inert ["w:r"; "w:t"]%string c
  end.

Definition simplePar (n : Node) : bool :=
  match n with
  | Text _ => false
  | Elem nm _ cs =>
    negb (bool_decide (nm ∈ ["w:r"; "w:t"]%string)) && forallb simpleParChild cs
  end.

(** The [w:rPr] children of a run, the underline that its first [w:rPr]
    carries, and the runs among the children of a paragraph. *)
Definition propsNamed (cs : list Node) : list Node :=
  filter (λ c, named "w:rPr" c = true) cs.

Definition underlinedProps (rcs : list Node) : bool :=
  match head (propsNamed rcs) with
  | Some rPr => underlineOf rPr
  | None => false
  end.

Definition runsOf (cs : list Node) : list Node :=
  filter (λ c, named "w:r" c = true) cs.

(** *** Texts cut into pieces

    The text of a node is the concatenation of the texts of its [w:t]
    elements.  [firstMatch rewrite text text']: [text] is cut into pieces, the
    first piece that [rewrite] accepts is rewritten and [text'] is the
    result.  [noMatch rewrite text]: [text] is cut into pieces none of which
    [rewrite] accepts. *)
Definition firstMatch (rewrite : list N → option (list N))
    (text text' : list N) : Prop :=
  ∃ before f f' after,
    text = concat before ++ f ++ after
    ∧ text' = concat before ++ f' ++ after
    ∧ Forall (λ x, rewrite x = None) before
    ∧ rewrite f = Some f'.

Definition noMatch (rewrite : list N → option (list N)) (text : list N)
  : Prop :=
  ∃ pieces, text = concat pieces ∧ Forall (λ x, rewrite x = None) pieces.

(** *** Option nodes and their contents

    An option node of [shuffleQuestionOptions]: its text matches the strict or
    the loose pattern.  The content of an option, "ignoring the label
    prefix": the text after the leading white space, the label (a word of
    letters), the white space after it and one separator. *)
Definition isOptionNode (node : Node) : bool :=
  testOptionPrefix (textContent node) || testLoose (textContent node).

Definition isLabelChar (c : N) : bool :=
  ((65 <=? c) && (c <=? 90) || (97 <=? c) && (c <=? 122))%N.

Definition stripLabel (text : list N) : list N :=
  let r1 := (spanClass isSpace text).2 in
  let r2 := (spanClass isLabelChar r1).2 in
  let r3 := (spanClass isSpace r2).2 in
  match r3 with
  | p :: r4 => if isSeparator p then r4 else r3
  | [] => []
  end.

(** The positions, counted from [idx], of the nodes that satisfy [p]. *)
Fixpoint positionsFrom (p : Node → bool) (idx : nat) (nodes : list Node)
  : list nat :=
  match nodes with
  | [] => []
  | node :: rest =>
    (if p node then [idx] else []) ++ positionsFrom p (S idx) rest
  end.

Definition optionPositions (nodes : list Node) : list nat :=
  positionsFrom isOptionNode 0 nodes.

Definition underlinedOptions (nodes : list Node) : list nat :=
  positionsFrom (λ node, isOptionNode node && hasUnderline node) 0 nodes.

Definition contentAt (nodes : list Node) (i : nat) : list N :=
  match nodes !! i with
  | Some node => stripLabel (textContent node)
  | None => []
  end.

(** A separator of the option pattern, as a string; the separator that the
    relabelling uses. *)
Definition separatorOk (sep : list N) : Prop :=
  ∃ s, sep = [s] ∧ isSeparator s = true.

Definition separatorToUse (type : QuestionType) (detected : list N)
  : list N :=
  if bool_decide (type = MCQ) then js "." else detected.

(** *** Sample questions for the shuffle

    A run whose properties record a tracked change of formatting: the former
    properties, with their colour, lie in [w:rPrChange] inside the [w:rPr] of
    the run.  A formula: its text lies in [m:t], not in [w:t]. *)
Definition reformattedRun (text : string) : Node :=
  Elem "w:r" []
    [Elem "w:rPr" []
       [Elem "w:rPrChange" []
          [Elem "w:rPr" []
             [Elem "w:color" [("w:val"%string, js "FF0000")] []]]];
     Elem "w:t" [] [Text (js text)]].

Definition formula (text : string) : Node :=
  Elem "m:oMath" [] [Elem "m:r" [] [Elem "m:t" [] [Text (js text)]]].

(** A question of plain paragraphs: a stem and three options, the second
    with its label underlined. *)
Definition plainQuestion : list Node :=
  [paragraph [plainRun "Câu 1: ..."];
   paragraph [plainRun "A. x"];
   paragraph [underlinedRun "B."; plainRun " y"];
   paragraph [plainRun "C. z"]].

(** A question whose first option was reformatted under change tracking. *)
Definition reformattedQuestion : list Node :=
  [paragraph [plainRun "Câu 1: ..."];
   paragraph [reformattedRun "A. x"];
   paragraph [plainRun "B. y"]].

(** Questions whose first option has its label typed as a formula: with the
    content " C", and with an underlined content. *)
Definition formulaQuestion : list Node :=
  [paragraph [plainRun "Câu 1: ..."];
   paragraph [formula "A."; plainRun " C"];
   paragraph [plainRun "B. y"]].

Definition formulaLabel : list Node :=
  [paragraph [plainRun "Câu 1: ..."];
   paragraph [formula "A."; underlinedRun " x"];
   paragraph [plainRun "B. y"]].

(** A question with a single option node, labelled B and underlined. *)
Definition singleOption : list Node :=
  [paragraph [plainRun "Câu 1: ..."];
   paragraph [underlinedRun "B."; plainRun " y"]].

(** * Further parts of the program: the segmenter state, the cleaning and
    the layout of a rendered question, the sections and the footer files *)

(** *** The state of the segmenter

    What the loop of [processDocxFile] keeps, after the children [seen] of
    the body: the questions are numbered in the order they were closed and are
    the question data of the question segments; the nodes seen so far are the
    nodes of the closed segments followed by the nodes accumulated for the open
    one, and an open segment holds at least one node. *)
Definition segmenterInvariant (serializeToString : Node → list N)
    (randomUUID : nat → list N) (seen : list Node) (st : Segmenter) : Prop :=
  (∀ i q, questions st !! i = Some q →
     QuestionBlock.originalIndex q = i ∧ QuestionBlock.id q = randomUUID i)
  ∧ omap DocSegment.questionData (segments st) = questions st
  ∧ Forall (λ seg, (DocSegment.type seg = question
                     ↔ is_Some (DocSegment.questionData seg))
                   ∧ DocSegment.xmlContent seg ≠ []) (segments st)
  ∧ concat (map DocSegment.xmlContent (segments st))
    ++ map serializeToString (accumulatedNodes st)
    = map serializeToString seen
  ∧ (accumulatedNodes st = [] ↔ currentSegment st = None).

(** ** Cleaning the nodes of a rendered question (generateVariants)

    [removeTags(tagName)]: every descendant element of the node with that
    name is taken out of its parent. *)
Fixpoint removeTags (tagName : string) (node : Node) : Node :=
  match node with
  | Text _ => node
  | Elem nm attrs children =>
    Elem nm attrs
      (omap (λ c, if isElement c && named tagName c then None
                  else Some (removeTags tagName c)) children)
  end.

(** The four calls on a node of a question. *)
Definition removeMarks (node : Node) : Node :=
  removeTags "w:shd" (removeTags "w:highlight"
    (removeTags "w:color" (removeTags "w:u" node))).

(** ** cleanKeyTagFromParagraph

    KEY_TAG_REMOVE_PATTERN, under the [i] flag: a run of white space, [<Key],
    white space, [=], a run of code units other than [>], and [>].  The
    classes of neighbouring pieces are disjoint, so the greedy runs give
    nothing back; [matchKeyTagHere s] is the length of the match at the start
    of [s]. *)
Definition matchKeyTagHere (s : list N) : option nat :=
  let '(lead, r0) := spanClass isSpace s in
  r ← ciPrefix (ci "<Key") r0;
  let '(gap, r1) := spanClass isSpace r in
  match r1 with
  | c :: r2 =>
    if (c =? ch "=")%N then
      let '(value, r3) := spanClass (λ c, negb (c =? ch ">")%N) r2 in
      match r3 with
      | _ :: _ =>
        Some (length lead + length (js "<Key") + length gap + 1
              + length value + 1)
      | [] => None
      end
    else None
  | [] => None
  end.

(** The loop of [regex.exec] under the [g] flag: the ranges of the matches,
    each search starting where the last match ended.  [pos] is the index of
    the head of [s] in the full text and [skip] the number of code units
    still to pass before [lastIndex] is reached. *)
Fixpoint keyTagRanges (s : list N) (pos skip : nat) : list (nat * nat) :=
  match skip, s with
  | S skip', _ :: s' => keyTagRanges s' (S pos) skip'
  | S _, [] => []
  | 0, _ =>
    match matchKeyTagHere s with
    | Some len =>
      (pos, pos + len)
        :: match s with
           | _ :: s' => keyTagRanges s' (S pos) (len - 1)
           | [] => []
           end
    | None =>
      match s with
      | _ :: s' => keyTagRanges s' (S pos) 0
      | [] => []
      end
    end
  end.

(** [collect]: the texts of the [w:t] elements with a text, in document
    order; the walk does not enter them. *)
Fixpoint collectTexts (n : Node) : list (list N) :=
  match n with
  | Text _ => []
  | Elem nm _ children =>
    if bool_decide (nm = "w:t"%string)
       && negb (bool_decide (textContent n = []))
    then [textContent n]
    else concat (map collectTexts children)
  end.

(** The text rebuilt for one [w:t]: the loop over the ranges that overlap
    it, with [builtText] and [lastKeptIndex], and the tail kept after it. *)
Definition keepBefore (nodeText : list N) (start : nat)
    (st : list N * nat) (r : nat * nat) : list N * nat :=
  let '(builtText, lastKeptIndex) := st in
  let rStartLocal := r.1 - start in
  let rEndLocal := min (length nodeText) (r.2 - start) in
  (if bool_decide (lastKeptIndex < rStartLocal)
   then builtText
        ++ take (rStartLocal - lastKeptIndex) (drop lastKeptIndex nodeText)
   else builtText,
   max lastKeptIndex rEndLocal).

Definition rebuildText (nodeRanges : list (nat * nat)) (nodeText : list N)
    (start : nat) : list N :=
  let '(builtText, lastKeptIndex) :=
    foldl (keepBefore nodeText start) ([], 0) nodeRanges in
  if bool_decide (lastKeptIndex < length nodeText)
  then builtText ++ drop lastKeptIndex nodeText
  else builtText.

(** [node.textContent = text] *)
Definition setTextContent (text : list N) (n : Node) : Node :=
  match n with
  | Text _ => Text text
  | Elem nm attrs _ =>
    Elem nm attrs (match text with [] => [] | _ :: _ => [Text text] end)
  end.

(** The update of the collected [w:t] elements, in the order of the
    collection: [pos] is the start of the next one in the full text.
    [cleanChildren] is the loop over the children, as a function of its
    own. *)
Section CleanWalk.

Variable ranges : list (nat * nat).

Fixpoint cleanWalk (n : Node) (pos : nat) : Node * nat :=
  match n with
  | Text _ => (n, pos)
  | Elem nm attrs children =>
    if bool_decide (nm = "w:t"%string)
       && negb (bool_decide (textContent n = []))
    then
      let nodeText := textContent n in
      let stop := pos + length nodeText in
      let nodeRanges :=
        filter (λ r, r.1 < stop ∧ pos < r.2) ranges in
      (match nodeRanges with
       | [] => n
       | _ :: _ => setTextContent (rebuildText nodeRanges nodeText pos) n
       end, stop)
    else
      let '(children', pos') :=
        (fix go (cs : list Node) (pos : nat) : list Node * nat :=
           match cs with
           | [] => ([], pos)
           | c :: cs' =>
             let '(c', pos1) := cleanWalk c pos in
             let '(cs'', pos2) := go cs' pos1 in
             (c' :: cs'', pos2)
           end) children pos in
      (Elem nm attrs children', pos')
  end.

Fixpoint cleanChildren (cs : list Node) (pos : nat) : list Node * nat :=
  match cs with
  | [] => ([], pos)
  | c :: cs' =>
    let '(c', pos1) := cleanWalk c pos in
    let '(cs'', pos2) := cleanChildren cs' pos1 in
    (c' :: cs'', pos2)
  end.

End CleanWalk.

Definition cleanKeyTagFromParagraph (pNode : Node) : Node :=
  match collectTexts pNode with
  | [] => pNode
  | textNodes =>
    match keyTagRanges (concat textNodes) 0 0 with
    | [] => pNode
    | rangesToRemove => (cleanWalk rangesToRemove pNode 0).1
    end
  end.

(** [fullText.replace(regex, "")] with the same pattern: the text without
    its key tags. *)
Fixpoint withoutKeyTags (s : list N) (skip : nat) : list N :=
  match skip, s with
  | S skip', _ :: s' => withoutKeyTags s' skip'
  | S _, [] => []
  | 0, [] => []
  | 0, c :: s' =>
    match matchKeyTagHere s with
    | Some len => withoutKeyTags s' (len - 1)
    | None => c :: withoutKeyTags s' 0
    end
  end.

(** The code units of [s], whose head has index [pos], that lie in no range. *)
Definition inRange (ranges : list (nat * nat)) (p : nat) : bool :=
  existsb (λ r, (r.1 <=? p) && (p <? r.2)) ranges.

Fixpoint keepOutside (removed : nat → bool) (pos : nat) (s : list N)
  : list N :=
  match s with
  | [] => []
  | c :: s' =>
    (if removed pos then [] else [c]) ++ keepOutside removed (S pos) s'
  end.

(** Ranges in increasing order, none empty, none before [lo], no two
    overlapping. *)
Fixpoint orderedRanges (lo : nat) (ranges : list (nat * nat)) : Prop :=
  match ranges with
  | [] => True
  | r :: rest => lo ≤ r.1 ∧ r.1 < r.2 ∧ orderedRanges r.2 rest
  end.

(** Every text node of the tree lies inside a [w:t] element. *)
Fixpoint textInsideT (n : Node) : bool :=
  match n with
  | Text _ => false
  | Elem nm _ children =>
    bool_decide (nm = "w:t"%string) || forallb textInsideT children
  end.

(** ** The layout of the options (setupParagraphTab, reformatMCQLayout) *)

(** One tab stop: [w:val] is set first, then [w:pos].  The positions of the
    callers are integers, which [Math.round] leaves as they are. *)
Definition tabStop (pos : Z) : Node :=
  Elem "w:tab" [("w:val"%string, js "left"); ("w:pos"%string, toString pos)] [].

(** The first [w:pPr] loses its first [w:tabs] and receives the new one;
    [None] stands for the exception of [removeChild]. *)
Definition setTabs (tabPositions : list Z) (pPr : Node) : option Node :=
  let tabs := Elem "w:tabs" [] (map tabStop tabPositions) in
  match pPr with
  | Text _ => Some pPr
  | Elem nm attrs cs =>
    match removeFirstChild "w:tabs" cs with
    | Updated cs' => Some (Elem nm attrs (cs' ++ [tabs]))
    | Absent => Some (Elem nm attrs (cs ++ [tabs]))
    | Failed => None
    end
  end.

Definition setupParagraphTab (pNode : Node) (tabPositions : list Z)
  : option Node :=
  let pNode :=
    match getElementsByTagName "w:pPr" pNode with
    | [] => prependChild (Elem "w:pPr" [] []) pNode
    | _ :: _ => pNode
    end in
  match updateFirst "w:pPr" (setTabs tabPositions) pNode with
  | Updated p => Some p
  | Absent => Some pNode
  | Failed => None
  end.

(** [s.replace(/\s+/g, ' ')]: every run of white space becomes one space.
    [inRun] says that the code unit before was white space. *)
Fixpoint collapseSpaces (inRun : bool) (s : list N) : list N :=
  match s with
  | [] => []
  | c :: s' =>
    if isSpace c
    then (if inRun then [] else [32%N]) ++ collapseSpaces true s'
    else c :: collapseSpaces false s'
  end.

(** The length that [reformatMCQLayout] gives a node: the length of its text,
    white space collapsed and trimmed, and 20 more for a formula or a
    drawing. *)
Definition optionWeight (n : Node) : nat :=
  length (trim (collapseSpaces false (textContent n)))
  + match getElementsByTagName "m:oMath" n, getElementsByTagName "w:drawing" n
    with
    | [], [] => 0
    | _, _ => 20
    end.

(** [mergeParagraphsWithTab(pDest, pSource)]: a run with a tab, then the
    children of the source other than [w:pPr], are appended to [pDest]. *)
Definition mergeParagraphsWithTab (pDest pSource : Node) : Node :=
  match pDest with
  | Text _ => pDest
  | Elem nm attrs cs =>
    Elem nm attrs
      (cs ++ [Elem "w:r" [] [Elem "w:tab" [] []]]
          ++ filter (λ child, named "w:pPr" child = false)
               (childNodes pSource))
  end.

(** [reformatMCQLayout(nodes, doc)].  The nodes are elements (a text node
    has no [getElementsByTagName]); [None] stands for an exception. *)
Definition reformatMCQLayout (nodes : list Node) : option (list Node) :=
  match nodes with
  | [n0; n1; n2; n3] =>
    if forallb isElement nodes then
      let maxLength := foldr max 0 (map optionWeight nodes) in
      if bool_decide (maxLength ≤ 10) then
        let base :=
          mergeParagraphsWithTab
            (mergeParagraphsWithTab (mergeParagraphsWithTab n0 n1) n2) n3 in
        base ← setupParagraphTab base [2250; 4500; 6750]%Z;
        Some [base]
      else if bool_decide (maxLength ≤ 30) then
        let row1 := mergeParagraphsWithTab n0 n1 in
        let row2 := mergeParagraphsWithTab n2 n3 in
        row1 ← setupParagraphTab row1 [4500%Z];
        row2 ← setupParagraphTab row2 [4500%Z];
        Some [row1; row2]
      else Some nodes
    else None
  | _ => Some nodes
  end.

(** ** The sections of a variant (generateVariants)

    "/PHẦN\s+I\./i" and its siblings for II and III, anywhere in the label of
    the section; "/PHẦN\s+(IV|4)\./i". *)
Definition partHere (numerals : list string) (s : list N) : option unit :=
  r ← ciPrefix (ci "PHẦN") s;
  let '(sp, r1) := spanClass isSpace r in
  match sp with
  | [] => None
  | _ :: _ =>
    if existsb (λ numeral,
         match ciPrefix (ci numeral) r1 with
         | Some (c :: _) => (c =? ch ".")%N
         | _ => false
         end) numerals
    then Some () else None
  end.

Definition testPart (numerals : list string) (s : list N) : bool :=
  bool_decide (is_Some (searchFrom (partHere numerals) s)).

Definition inPartOne (q : QuestionBlock.t) : bool :=
  testPart ["I"%string] (QuestionBlock.section q).
Definition inPartTwo (q : QuestionBlock.t) : bool :=
  testPart ["II"%string] (QuestionBlock.section q).
Definition inPartThree (q : QuestionBlock.t) : bool :=
  testPart ["III"%string] (QuestionBlock.section q).
Definition inPartFour (q : QuestionBlock.t) : bool :=
  testPart ["IV"; "4"]%string (QuestionBlock.section q)
  || testEssayWord (QuestionBlock.section q).

(** The five lists that [generateVariants] renders one after the other:
    [p1Questions], [p2Questions], [p3Questions], [p4Questions] and
    [otherQuestions]. *)
Definition p1Questions (questions : list QuestionBlock.t) :=
  filter (λ q, inPartOne q = true) questions.
Definition p2Questions (questions : list QuestionBlock.t) :=
  filter (λ q, inPartTwo q = true) questions.
Definition p3Questions (questions : list QuestionBlock.t) :=
  filter (λ q, inPartThree q = true) questions.
Definition p4Questions (questions : list QuestionBlock.t) :=
  filter (λ q, inPartFour q = true) questions.
Definition otherQuestions (questions : list QuestionBlock.t) :=
  filter (λ q, negb (inPartOne q) && negb (inPartTwo q)
               && negb (inPartThree q)
               && negb (testPart ["IV"; "4"]%string (QuestionBlock.section q))
               && negb (testEssayWord (QuestionBlock.section q)) = true)
    questions.

(** The head of [processSectionGroup]: the questions of the group by type,
    each list shuffled unless the order is kept, and the balanced keys of
    its MCQ questions; the lists are then rendered in this order. *)
Record SectionOrder := mkSectionOrder {
  finalMCQs : list QuestionBlock.t;
  finalTFs : list QuestionBlock.t;
  finalSAs : list QuestionBlock.t;
  finalEssays : list QuestionBlock.t;
  unknowns : list QuestionBlock.t;
  balancedKeys : list (list N)
}.

Section SectionGroups.

Variable random : nat → nat.
Variables shuffleQuestions shuffleOptions : bool.        (* mixOptions *)

Definition ofType (type : QuestionType) (qs : list QuestionBlock.t) :=
  filter (λ q, QuestionBlock.type q = type) qs.

Definition orderSectionGroup (groupQuestions : list QuestionBlock.t)
    (keepOrder : bool) (k : nat) : SectionOrder * nat :=
  let mcqs := ofType MCQ groupQuestions in
  let tfs := ofType TRUE_FALSE groupQuestions in
  let sas := ofType SHORT_ANSWER groupQuestions in
  let essays := ofType ESSAY groupQuestions in
  let unknowns := ofType UNKNOWN groupQuestions in
  let doShuffle := shuffleQuestions && negb keepOrder in
  let '(finalMCQs, k) :=
    if doShuffle then shuffleArray random mcqs k else (mcqs, k) in
  let '(finalTFs, k) :=
    if doShuffle then shuffleArray random tfs k else (tfs, k) in
  let '(finalSAs, k) :=
    if doShuffle then shuffleArray random sas k else (sas, k) in
  let '(finalEssays, k) :=
    if doShuffle then shuffleArray random essays k else (essays, k) in
  let '(balancedKeys, k) :=
    if shuffleOptions
    then generateBalancedKeys random (length finalMCQs) k else ([], k) in
  (mkSectionOrder finalMCQs finalTFs finalSAs finalEssays unknowns
     balancedKeys, k).

(** The questions of a group in the order they are rendered. *)
Definition rendered (o : SectionOrder) : list QuestionBlock.t :=
  finalMCQs o ++ finalTFs o ++ finalSAs o ++ finalEssays o ++ unknowns o.

End SectionGroups.


(** *** A question without an answer mark

    None of its options is underlined; the run of option B says so with an
    underline of value "none". *)
Definition unmarkedQuestion : list Node :=
  [paragraph [plainRun "Câu 1: ..."];
   paragraph [plainRun "A. x"];
   paragraph
     [Elem "w:r" []
        [Elem "w:rPr" [] [Elem "w:u" [("w:val"%string, js "none")] []];
         Elem "w:t" [] [Text (js "B. y")]]];
   paragraph [plainRun "C. z"]].

(** Whether the children of a paragraph hold a run. *)
Definition hasRun (cs : list Node) : bool :=
  match runsOf cs with [] => false | _ :: _ => true end.

(** The condition of the loop of [applyFixToQuestion] on a node: its text
    begins with an option label whose letter is that of [fixValue]. *)
Definition optionWithLetter (fixValue : list N) (node : Node) : bool :=
  match matchOptionPrefix (textContent node) with
  | Some m => sameLetter (om_letter m) fixValue
  | None => false
  end.

(** ** setupFooterFiles

    [s.replace(pattern, replacement)] for a pattern that is a string and a
    replacement that holds no [$]: the first occurrence is replaced. *)
Fixpoint replaceFirst (pattern replacement s : list N) : list N :=
  match stripPrefix pattern s with
  | Some rest => replacement ++ rest
  | None =>
    match s with
    | [] => []
    | c :: s' => c :: replaceFirst pattern replacement s'
    end
  end.

Definition contentTypesPath : string := "[Content_Types].xml".
Definition relsPath : string := "word/_rels/document.xml.rels".

Definition footerPartName : list N :=
  js "PartName=" ++ [quote] ++ js "/word/footer1.xml" ++ [quote].

Definition overrideStr : list N :=
  js "<Override " ++ footerPartName ++ js " ContentType=" ++ [quote]
  ++ js "application/vnd.openxmlformats-officedocument.wordprocessingml.footer+xml"
  ++ [quote] ++ js "/>".

Definition footerType : list N :=
  js "http://schemas.openxmlformats.org/officeDocument/2006/relationships/footer".

Definition newRel (footerRid : list N) : list N :=
  js "<Relationship Id=" ++ [quote] ++ footerRid ++ [quote]
  ++ js " Type=" ++ [quote] ++ footerType ++ [quote]
  ++ js " Target=" ++ [quote] ++ js "footer1.xml" ++ [quote] ++ js "/>".

(** The test of the loop over the relationships. *)
Definition isFooterTarget (relationship : Node) : bool :=
  match getAttribute "Target" relationship with
  | Some target =>
    bool_decide (target = js "footer1.xml")
    || bool_decide (target = js "/word/footer1.xml")
  | None => false
  end.

Section Footer.

Variable parseFromString : list N → Node.

(** The archive after the call and the relationship id that it returns. *)
Definition setupFooterFiles (zip : gmap string (list N))
  : gmap string (list N) * list N :=
  let zip :=
    match zip !! contentTypesPath with
    | Some contentTypesXml =>
      if negb (includes footerPartName contentTypesXml)
         && includes (js "</Types>") contentTypesXml
      then
        <[contentTypesPath :=
            replaceFirst (js "</Types>") (overrideStr ++ js "</Types>")
              contentTypesXml]> zip
      else zip
    | None => zip
    end in
  match zip !! relsPath with
  | Some relsXml =>
    let relsDoc := parseFromString relsXml in
    let relationships := getElementsByTagName "Relationship" relsDoc in
    match head (filter (λ r, isFooterTarget r = true) relationships) with
    | Some relationship =>
      (zip,
       match getAttribute "Id" relationship with
       | Some (c :: id) => c :: id
       | _ => js "rIdFooter1"
       end)
    | None =>
      let footerRid := js "rIdFooterGen1" in
      (if includes (js "</Relationships>") relsXml
       then
         <[relsPath :=
             replaceFirst (js "</Relationships>")
               (newRel footerRid ++ js "</Relationships>") relsXml]> zip
       else zip,
       footerRid)
    end
  | None => (zip, js "rIdFooter1")
  end.

End Footer.

(** *** The labels of the questions

    [beginsQuestion text]: the text begins with the text of a paragraph at
    which a question starts.  The segmenter keeps it for the questions that it
    has closed and for the question segment that is open. *)
Definition beginsQuestion (text : list N) : Prop :=
  ∃ start more, text = start ++ more ∧ isQuestionStart start = true.

Definition labelInvariant (st : Segmenter) : Prop :=
  Forall (λ q, beginsQuestion (QuestionBlock.textContent q)
               ∧ QuestionBlock.label q
                 = questionLabel (QuestionBlock.textContent q))
    (questions st)
  ∧ ∀ seg, currentSegment st = Some seg → DocSegment.type seg = question →
      beginsQuestion (DocSegment.textContent seg).

(** *** The preamble of a variant

    The header segment of a part is the first static segment whose text
    matches the pattern of the part ([segments.find]).  The loop over the
    segments compares each segment with the four header segments by identity:
    the segments of a document are distinct objects, so that a segment is
    identified by its position in the list. *)
Definition headerTests : list (list N → bool) :=
  [testPart ["I"%string]; testPart ["II"%string]; testPart ["III"%string];
   λ text, testPart ["IV"; "4"]%string text || testEssayWord text].

Definition isHeader (test : list N → bool) (s : DocSegment.t) : bool :=
  bool_decide (DocSegment.type s = static) && test (DocSegment.textContent s).

Definition headerSegment (test : list N → bool) (segments : list DocSegment.t)
  : option (nat * DocSegment.t) :=
  list_find (λ s, isHeader test s = true) segments.

Definition headerIndices (segments : list DocSegment.t) : list nat :=
  omap (λ test, fst <$> headerSegment test segments) headerTests.

Fixpoint preambleFrom (headers : list nat) (i : nat)
    (segments : list DocSegment.t) : list DocSegment.t :=
  match segments with
  | [] => []
  | s :: rest =>
    if bool_decide (DocSegment.type s = question) then []
    else if bool_decide (i ∈ headers) then []
    else (if bool_decide (DocSegment.type s = static) then [s] else [])
         ++ preambleFrom headers (S i) rest
  end.

Definition preambleSegments (segments : list DocSegment.t)
  : list DocSegment.t :=
  preambleFrom (headerIndices segments) 0 segments.

(** A segment that is the header of some part. *)
Definition anyHeader (s : DocSegment.t) : bool :=
  existsb (λ test, isHeader test s) headerTests.

(** *** Sample documents and questions

    A document with a title, an MCQ question whose second option is
    underlined, a question without options and the section properties. *)
Definition sampleDoc : Node :=
  Elem "#document" []
    [Elem "w:document" []
       [Elem "w:body" []
          [paragraph [plainRun "ĐỀ KIỂM TRA"];
           paragraph [plainRun "Câu 1: 1 + 1 = ?"];
           paragraph [plainRun "A. 1"];
           paragraph [underlinedRun "B."; plainRun " 2"];
           paragraph [plainRun "Bài 2: x = ?"];
           Elem "w:sectPr" [] []]]].

(** A SHORT_ANSWER question that lost its key tag. *)
Definition keylessQuestion : QuestionBlock.t :=
  QuestionBlock.mk (js "q3") 2 (js "Câu 3") SHORT_ANSWER
    [js "Câu 3: 1 + 1 = ?"] (js "Câu 3: 1 + 1 = ?")
    false false false [] (Some 0).

(** A TRUE_FALSE question with two statements, the first one marked true. *)
Definition trueFalseQuestion : list Node :=
  [paragraph [plainRun "Câu 1: ..."];
   paragraph [underlinedRun "a)"; plainRun " x"];
   paragraph [plainRun "b) y"]].

(** A question of four short paragraphs: the stem and three options. *)
Definition shortQuestion : list Node :=
  [paragraph [plainRun "Câu 1: x"];
   paragraph [plainRun "A. 1"];
   paragraph [underlinedRun "B."; plainRun " 2"];
   paragraph [plainRun "C. 3"]].

(** * Properties *)

Section ShuffleFacts.

Variable random : nat → nat.

(** ** The shuffle is a permutation *)

Lemma swap_Permutation {A} (arr : list A) i j : swap arr i j ≡ₚ arr.
Proof.
  unfold swap.
  destruct (arr !! i) as [x|] eqn:Hi; [|done].
  destruct (arr !! j) as [y|] eqn:Hj; [|done].
  by apply Permutation_insert_swap.
Qed.

Lemma shuffleLoop_Permutation {A} i (arr : list A) k :
  (shuffleLoop random i arr k).1 ≡ₚ arr.
Proof.
  revert arr k. induction i as [|i IH]; intros arr k; simpl; [done|].
  rewrite IH. apply swap_Permutation.
Qed.

Lemma shuffleArray_Permutation {A} (arr : list A) k :
  (shuffleArray random arr k).1 ≡ₚ arr.
Proof. apply shuffleLoop_Permutation. Qed.

Lemma shuffleArray_length {A} (arr : list A) k :
  length (shuffleArray random arr k).1 = length arr.
Proof. by rewrite shuffleArray_Permutation. Qed.

Lemma shuffleLoop_calls {A} i (arr : list A) k :
  (shuffleLoop random i arr k).2 = k + i.
Proof.
  revert arr k. induction i as [|i IH]; intros arr k; simpl; [lia|].
  rewrite IH. lia.
Qed.

#[global] Instance occurrences_Permutation x :
  Proper ((≡ₚ) ==> (=)) (occurrences x).
Proof. intros l1 l2 H. unfold occurrences. by rewrite H. Qed.

Lemma occurrences_app x l1 l2 :
  occurrences x (l1 ++ l2) = occurrences x l1 + occurrences x l2.
Proof. unfold occurrences. by rewrite filter_app, length_app. Qed.

Lemma occurrences_replicate x y n :
  occurrences x (replicate n y) = if decide (x = y) then n else 0.
Proof.
  unfold occurrences. induction n as [|n IH]; simpl.
  - by case_decide.
  - rewrite filter_cons.
    destruct (decide (x = y)) as [->|Hne]; simpl; [by rewrite IH|done].
Qed.

Lemma occurrences_NoDup x l :
  NoDup l → occurrences x l = if decide (x ∈ l) then 1 else 0.
Proof.
  unfold occurrences. induction 1 as [|y l Hy Hl IH].
  - rewrite decide_False; [done|]. apply not_elem_of_nil.
  - rewrite filter_cons. destruct (decide (x = y)) as [->|Hne].
    + simpl. rewrite IH, (decide_False _ _ Hy).
      rewrite decide_True; [done|]. apply elem_of_cons; auto.
    + rewrite IH. destruct (decide (x ∈ l)) as [Hin|Hin].
      * rewrite decide_True; [done|]. apply elem_of_cons; auto.
      * rewrite decide_False; [done|]. rewrite elem_of_cons. tauto.
Qed.

Lemma options_NoDup : NoDup options.
Proof. apply (bool_decide_unpack _). by vm_compute. Qed.

Lemma occurrences_base x n :
  x ∈ options → occurrences x (concat (map (replicate n) options)) = n.
Proof.
  intros Hx. unfold options in *. simpl.
  rewrite !occurrences_app, !occurrences_replicate.
  rewrite !elem_of_cons in Hx.
  destruct Hx as [->|[->|[->|[->|Hx]]]];
    [| | | |by apply elem_of_nil in Hx];
    repeat case_decide; try discriminate; try lia; try done.
Qed.

Lemma length_base n : length (concat (map (replicate n) options)) = 4 * n.
Proof. unfold options. simpl. rewrite !length_app, !length_replicate. simpl. lia. Qed.

Lemma base_subset n x :
  x ∈ concat (map (replicate n) options) → x ∈ options.
Proof.
  unfold options. simpl. rewrite !elem_of_app, !elem_of_replicate.
  rewrite !elem_of_cons. intros H. destruct_or!; destruct_and?; auto.
Qed.

(** The keys before the final shuffle: the base blocks and the extra letters. *)
Lemma balanced_before_shuffle n k :
  ∃ extra k',
    (generateBalancedKeys random n k).1
      ≡ₚ concat (map (replicate (n / 4)) options) ++ extra
    ∧ NoDup extra ∧ extra ⊆ options ∧ length extra = n mod 4
    ∧ (generateBalancedKeys random n k).2 = k'.
Proof.
  unfold generateBalancedKeys. case_decide as Hr.
  - destruct (shuffleArray random options k) as [shuffled k1] eqn:Hs.
    assert (Hp : shuffled ≡ₚ options).
    { by rewrite <-(shuffleArray_Permutation options k), Hs. }
    exists (take (n mod 4) shuffled), (shuffleArray random
      (concat (map (replicate (n / 4)) options) ++ take (n mod 4) shuffled) k1).2.
    split_and!; [apply shuffleArray_Permutation| | | |done].
    + apply (sublist_NoDup (take (n mod 4) shuffled) shuffled).
      * rewrite Hp. apply options_NoDup.
      * apply sublist_take.
    + intros x [i [Hx _]]%elem_of_take. rewrite <-Hp.
      by eapply list_elem_of_lookup_2.
    + rewrite length_take, Hp. unfold options; simpl.
      pose proof (Nat.mod_upper_bound n 4). lia.
  - exists [], (shuffleArray random (concat (map (replicate (n / 4)) options)) k).2.
    split_and!; [|apply NoDup_nil_2|set_solver|change (0 = n mod 4); lia|done].
    rewrite app_nil_r. apply shuffleArray_Permutation.
Qed.

(** C4. For every [n], [generateBalancedKeys n] returns exactly [n] letters of
    A, B, C, D; every letter occurs [n / 4] times, plus once more for the
    letters of a set of [n mod 4] pairwise distinct extra letters, so that
    every count lies between [n / 4] and [n / 4 + 1]. *)
Theorem generateBalancedKeys_balanced (n k : nat) :
  let keys := (generateBalancedKeys random n k).1 in
  length keys = n
  ∧ (∀ x, x ∈ keys → x ∈ options)
  ∧ ∃ extra : list (list N),
      NoDup extra ∧ extra ⊆ options ∧ length extra = n mod 4
      ∧ ∀ x, x ∈ options →
          occurrences x keys = n / 4 + (if decide (x ∈ extra) then 1 else 0)
          ∧ n / 4 ≤ occurrences x keys ≤ n / 4 + 1.
Proof.
  intros keys. subst keys.
  destruct (balanced_before_shuffle n k) as (extra & k' & Hp & Hnd & Hsub & Hlen & _).
  split_and!.
  - rewrite Hp, length_app, length_base, Hlen.
    pose proof (Nat.div_mod_eq n 4). lia.
  - intros x. rewrite Hp, elem_of_app. intros [Hx|Hx].
    + by eapply base_subset.
    + by apply Hsub.
  - exists extra. split_and!; [done..|].
    intros x Hx.
    rewrite Hp, occurrences_app, occurrences_base, occurrences_NoDup by done.
    split; [done|]. case_decide; lia.
Qed.

End ShuffleFacts.

(** ** Validation issues *)

Lemma elem_of_concat {A} (x : A) (ls : list (list A)) :
  x ∈ concat ls ↔ ∃ l, l ∈ ls ∧ x ∈ l.
Proof.
  rewrite list_elem_of_In, in_concat. split.
  - intros (l & Hl & Hx). exists l. by rewrite !list_elem_of_In.
  - intros (l & Hl & Hx). exists l. by rewrite <-!list_elem_of_In.
Qed.

Lemma trim_nil : trim [] = [].
Proof. reflexivity. Qed.

Lemma questionIssues_length q index :
  length (questionIssues q index) = failingRules q.
Proof.
  unfold questionIssues, failingRules.
  destruct (QuestionBlock.type q); simpl.
  - rewrite length_app.
    destruct (QuestionBlock.detectedOptionNodes q) as [n|];
      [case_bool_decide|]; destruct (QuestionBlock.hasUnderline q); done.
  - by destruct (QuestionBlock.hasUnderline q).
  - by destruct (QuestionBlock.hasKeyTag q).
  - destruct (QuestionBlock.textContent q) as [|c text] eqn:Ht.
    + by rewrite bool_decide_true.
    + rewrite (bool_decide_false (c :: text = [])) by done.
      rewrite orb_false_l.
      repeat case_bool_decide; cbn [length]; done || lia.
  - done.
Qed.

Ltac issue_cases i :=
  simpl; rewrite ?elem_of_cons, ?elem_of_nil;
  let Hin := fresh "Hin" in
  intros Hin; destruct_or?; try done; by subst i.

Lemma questionIssues_elem q index i :
  i ∈ questionIssues q index →
  ValidationIssue.questionIndex i = index
  ∧ ValidationIssue.questionType i = QuestionBlock.type q
  ∧ ValidationIssue.questionId i = QuestionBlock.id q
  ∧ ValidationIssue.severity i = severityOf (QuestionBlock.type q).
Proof.
  unfold questionIssues, issueOf.
  destruct (QuestionBlock.type q) eqn:Ht; simpl.
  - rewrite elem_of_app.
    destruct (QuestionBlock.detectedOptionNodes q) as [n|];
      [case_bool_decide|]; destruct (QuestionBlock.hasUnderline q);
      issue_cases i.
  - destruct (QuestionBlock.hasUnderline q); issue_cases i.
  - destruct (QuestionBlock.hasKeyTag q); issue_cases i.
  - destruct (_ || _); issue_cases i.
  - issue_cases i.
Qed.

Lemma issues_from (off : nat) (questions : list QuestionBlock.t) :
  length (concat (imap (λ index q, questionIssues q (off + index)) questions))
  = sum_list (map failingRules questions).
Proof.
  revert off. induction questions as [|q qs IH]; intros off; [done|].
  rewrite imap_cons. simpl. rewrite length_app, questionIssues_length.
  f_equal. rewrite <-(IH (S off)). f_equal. f_equal.
  apply imap_ext. intros i x _. simpl. f_equal. lia.
Qed.

(** C7, as stated, fails: the rule on the text of an ESSAY question emits an
    issue of severity [warning], not [error]. *)
Lemma essay_issue_is_warning :
  map ValidationIssue.severity (getValidationIssues [emptyEssay]) = [warning]
  ∧ map ValidationIssue.questionType (getValidationIssues [emptyEssay]) = [ESSAY].
Proof. split; reflexivity. Qed.

(** C7, amended. Every failing validity rule emits exactly one issue: the
    issues of a list of questions are as many as the failing rules of its
    questions, every issue belongs to a question of the list with a failing
    rule, and its severity is [error] except for the issues of TRUE_FALSE
    questions (no underline) and of ESSAY questions (text too short), which
    are [warning]; the missing key marker of a SHORT_ANSWER question is an
    [error]. *)
Theorem validation_issue_severity (questions : list QuestionBlock.t) :
  length (getValidationIssues questions) = sum_list (map failingRules questions)
  ∧ ∀ i, i ∈ getValidationIssues questions →
      (∃ q, questions !! ValidationIssue.questionIndex i = Some q
            ∧ ValidationIssue.questionType i = QuestionBlock.type q
            ∧ 0 < failingRules q)
      ∧ ValidationIssue.severity i
        = match ValidationIssue.questionType i with
          | TRUE_FALSE | ESSAY => warning
          | MCQ | SHORT_ANSWER | UNKNOWN => error
          end.
Proof.
  split.
  - unfold getValidationIssues. by rewrite <-(issues_from 0).
  - intros i Hi. unfold getValidationIssues in Hi.
    apply elem_of_concat in Hi as (l & Hl & Hi).
    apply elem_of_lookup_imap in Hl as (index & q & -> & Hq).
    pose proof (questionIssues_length q index) as Hlen.
    destruct (questionIssues_elem _ _ _ Hi) as (Hidx & Hty & _ & Hsev).
    split.
    + exists q. rewrite Hidx. split_and!; [done..|].
      rewrite <-Hlen. destruct (questionIssues q index); [|simpl; lia].
      by apply elem_of_nil in Hi.
    + rewrite Hsev, Hty. by destruct (QuestionBlock.type q).
Qed.

(** ** Validity of MCQ questions *)

Section SegmenterFacts.

Variable parseFromString : list N → Node.
Variable serializeToString : Node → list N.
Variable randomUUID : nat → list N.

Lemma buildQuestion_mcq text xml nodes sectionLabel index :
  let q := buildQuestion randomUUID text xml nodes sectionLabel index in
  QuestionBlock.type q = MCQ →
  QuestionBlock.isValid q = QuestionBlock.hasUnderline q
  ∧ QuestionBlock.hasUnderline q
    = existsb hasUnderline (filter (λ node, named "w:p" node = true) nodes).
Proof.
  unfold buildQuestion. simpl. intros ->. simpl.
  by destruct (existsb hasUnderline _).
Qed.

Lemma finishCurrentSegment_built st :
  Forall (λ q, ∃ nodes, builtFrom serializeToString randomUUID nodes q) (questions st) →
  Forall (λ q, ∃ nodes, builtFrom serializeToString randomUUID nodes q)
    (questions (finishCurrentSegment serializeToString randomUUID st)).
Proof.
  intros H. unfold finishCurrentSegment.
  destruct (currentSegment st) as [seg|]; [|done].
  destruct (DocSegment.type seg); simpl; [done|].
  apply Forall_app. split; [done|]. apply Forall_singleton.
  exists (accumulatedNodes st). by eexists _, _, _.
Qed.

Lemma segmentNode_built st node :
  Forall (λ q, ∃ nodes, builtFrom serializeToString randomUUID nodes q) (questions st) →
  Forall (λ q, ∃ nodes, builtFrom serializeToString randomUUID nodes q)
    (questions (segmentNode serializeToString randomUUID st node)).
Proof.
  intros H. unfold segmentNode.
  repeat case_match; simpl; try done; by apply finishCurrentSegment_built.
Qed.

Lemma segment_all_built children st :
  Forall (λ q, ∃ nodes, builtFrom serializeToString randomUUID nodes q) (questions st) →
  Forall (λ q, ∃ nodes, builtFrom serializeToString randomUUID nodes q)
    (questions (foldl (segmentNode serializeToString randomUUID) st children)).
Proof.
  revert st. induction children as [|c cs IH]; intros st H; simpl; [done|].
  by apply IH, segmentNode_built.
Qed.

End SegmenterFacts.

(** C6, as stated, fails: a question classified MCQ whose options are not on
    nodes of their own (no option node at all) is valid as soon as one of its
    paragraphs is underlined. *)
Lemma unsplit_mcq_is_valid :
  ∃ pd q,
    processDocxFile (λ _, inlineDoc) (λ _, []) (λ _, []) sampleZip = Ok pd
    ∧ ProcessedDoc.questions pd = [q]
    ∧ QuestionBlock.type q = MCQ
    ∧ QuestionBlock.detectedOptionNodes q = Some 0
    ∧ QuestionBlock.isValid q = true.
Proof. eexists _, _. split_and!; by vm_compute. Qed.

(** C6, amended. For every question that [processDocxFile] classifies MCQ,
    [isValid] is the [hasUnderline] flag of the question: it is [true]
    exactly when one of the [w:p] nodes of the question (the stem included)
    carries an underline.  The number of option nodes does not enter
    [isValid]. *)
Theorem mcq_valid_iff_underlined parseFromString serializeToString randomUUID
    (zip : gmap string (list N)) (pd : ProcessedDoc.t) (q : QuestionBlock.t) :
  processDocxFile parseFromString serializeToString randomUUID zip = Ok pd →
  q ∈ ProcessedDoc.questions pd →
  QuestionBlock.type q = MCQ →
  ∃ nodes,
    QuestionBlock.xmlContent q = map serializeToString nodes
    ∧ QuestionBlock.isValid q = QuestionBlock.hasUnderline q
    ∧ QuestionBlock.isValid q
      = existsb hasUnderline (filter (λ node, named "w:p" node = true) nodes).
Proof.
  unfold processDocxFile. intros Hpd Hq Hty.
  destruct (zip !! _) as [xml|]; [|done].
  destruct (head _) as [body|]; [|done].
  destruct (extractSectPr _) as [sectPr children].
  injection Hpd as <-. simpl in Hq.
  pose proof (finishCurrentSegment_built serializeToString randomUUID _
    (segment_all_built serializeToString randomUUID children
       (mkSegmenter [] [] None [] []) (Forall_nil_2 _))) as Hall.
  rewrite Forall_forall in Hall.
  destruct (Hall q Hq) as (nodes & text & sectionLabel & index & ->).
  exists nodes.
  destruct (buildQuestion_mcq randomUUID text (map serializeToString nodes)
    nodes sectionLabel index Hty) as [H1 H2].
  split_and!; [done|done|]. by rewrite H1.
Qed.

Lemma mcq_valid_iff_underlined_witness :
  ∃ pd q nodes,
    processDocxFile (λ _, inlineDoc) (λ _, []) (λ _, []) sampleZip = Ok pd
    ∧ q ∈ ProcessedDoc.questions pd
    ∧ QuestionBlock.type q = MCQ
    ∧ QuestionBlock.xmlContent q = map (λ _, []) nodes
    ∧ QuestionBlock.isValid q = QuestionBlock.hasUnderline q
    ∧ QuestionBlock.isValid q
      = existsb hasUnderline (filter (λ node, named "w:p" node = true) nodes).
Proof.
  assert (∃ pd q,
    processDocxFile (λ _, inlineDoc) (λ _, []) (λ _, []) sampleZip = Ok pd
    ∧ ProcessedDoc.questions pd = [q] ∧ QuestionBlock.type q = MCQ)
    as (pd & q & Hpd & Hqs & Hty).
  { eexists _, _. split_and!; vm_compute; reflexivity. }
  assert (q ∈ ProcessedDoc.questions pd) as Hq.
  { rewrite Hqs. apply list_elem_of_singleton. reflexivity. }
  destruct (mcq_valid_iff_underlined _ _ _ _ pd q Hpd Hq Hty)
    as (nodes & H1 & H2 & H3).
  exists pd, q, nodes. repeat split; assumption.
Defined.

(** ** The inline fallback of detectType *)

Lemma afterMarker_Some l s r :
  afterMarker l s = Some r →
  ∃ pre p, s = pre ++ l :: p :: r ∧ isSeparator p = true.
Proof.
  revert r. induction s as [|c s IH]; intros r; simpl; [done|].
  destruct s as [|p s']; [done|].
  destruct ((c =? l)%N && isSeparator p) eqn:Hc.
  - intros [= <-]. apply andb_true_iff in Hc as [->%N.eqb_eq Hp].
    by exists [], p.
  - intros (pre & p' & -> & Hp')%IH. by exists (c :: pre), p'.
Qed.

Lemma afterMarker_suffix l pre p r :
  isSeparator p = true →
  ∃ pre', afterMarker l (pre ++ l :: p :: r) = Some (pre' ++ r).
Proof.
  intros Hp. induction pre as [|c pre IH].
  - exists []. simpl. by rewrite N.eqb_refl, Hp.
  - destruct IH as [pre' IH].
    change ((c :: pre) ++ l :: p :: r) with (c :: (pre ++ l :: p :: r)).
    destruct (pre ++ l :: p :: r) as [|p' s'] eqn:Hs.
    { by destruct pre. }
    cbn [afterMarker]. destruct ((c =? l)%N && isSeparator p').
    + destruct pre as [|c' pre0]; simplify_eq/=.
      * by exists [p].
      * exists (pre0 ++ [l; p]). by rewrite <-app_assoc.
    + by exists pre'.
Qed.

Lemma testInlineOptions_spec text :
  testInlineOptions text = true ↔ markersInOrder text.
Proof.
  unfold testInlineOptions, markersInOrder.
  rewrite bool_decide_eq_true. split.
  - intros [r3 H].
    destruct (afterMarker (ch "A") text) as [r1|] eqn:H1; [|done].
    simpl in H.
    destruct (afterMarker (ch "B") r1) as [r2|] eqn:H2; [|done].
    simpl in H.
    apply afterMarker_Some in H1 as (pre & s1 & -> & Hs1).
    apply afterMarker_Some in H2 as (mid1 & s2 & -> & Hs2).
    apply afterMarker_Some in H as (mid2 & s3 & -> & Hs3).
    by exists pre, s1, mid1, s2, mid2, s3, r3.
  - intros (pre & s1 & mid1 & s2 & mid2 & s3 & post & -> & Hs1 & Hs2 & Hs3).
    destruct (afterMarker_suffix (ch "A") pre s1
      (mid1 ++ ch "B" :: s2 :: mid2 ++ ch "C" :: s3 :: post) Hs1) as [p1 ->].
    simpl. rewrite app_assoc.
    destruct (afterMarker_suffix (ch "B") (p1 ++ mid1) s2
      (mid2 ++ ch "C" :: s3 :: post) Hs2) as [p2 ->].
    simpl. rewrite app_assoc.
    destruct (afterMarker_suffix (ch "C") (p2 ++ mid2) s3 post Hs3) as [p3 ->].
    by eexists.
Qed.

(** C8, as stated, fails: with the three markers on three different lines,
    none at the start of its line, no line holds a run of three markers and
    [detectType] still answers MCQ. *)
Lemma inline_rule_spans_lines :
  testKey threeLines = false
  ∧ upperLines threeLines = 0 ∧ lowerLines threeLines = 0
  ∧ inlineRunOnOneLine threeLines = false
  ∧ detectType threeLines = MCQ.
Proof. split_and!; by vm_compute. Qed.

(** C8, amended. When the text holds no inline answer-key marker and neither
    rule on the line-initial markers fires, [detectType] returns MCQ exactly
    when the text holds the markers A, B and C in this order, each followed
    by a separator, anywhere in the text (the dot of the pattern also matches
    line breaks); otherwise it returns UNKNOWN, which the segmenter turns
    into ESSAY under a free-response section label. *)
Theorem detectType_inline_fallback (text : list N) :
  testKey text = false →
  ¬ (2 ≤ upperLines text ∧ lowerLines text < upperLines text) →
  ¬ (2 ≤ lowerLines text ∧ upperLines text < lowerLines text) →
  (detectType text = MCQ ↔ markersInOrder text)
  ∧ (¬ markersInOrder text → detectType text = UNKNOWN).
Proof.
  intros Hkey Hup Hlow. unfold detectType. rewrite Hkey.
  fold (upperLines text) (lowerLines text).
  pose proof (testInlineOptions_spec text) as Hspec.
  assert (bool_decide (2 ≤ upperLines text)
          && bool_decide (lowerLines text < upperLines text) = false) as ->.
  { apply andb_false_iff. rewrite !bool_decide_eq_false. lia. }
  assert (bool_decide (2 ≤ lowerLines text)
          && bool_decide (upperLines text < lowerLines text) = false) as ->.
  { apply andb_false_iff. rewrite !bool_decide_eq_false. lia. }
  destruct (testInlineOptions text).
  - split; [split; [intros _; by apply Hspec|done]|].
    intros Hn. exfalso. by apply Hn, Hspec.
  - split; [split; [done|]|done].
    intros H%Hspec. discriminate.
Qed.

Lemma detectType_inline_fallback_witness :
  (detectType threeLines = MCQ ↔ markersInOrder threeLines)
  ∧ (¬ markersInOrder threeLines → detectType threeLines = UNKNOWN).
Proof.
  apply detectType_inline_fallback.
  - vm_compute. reflexivity.
  - vm_compute. lia.
  - vm_compute. lia.
Defined.

(** ** Missing parts of the package *)

(** C9. [processDocxFile] throws when the archive has no
    [word/document.xml], and when the parsed document has no [w:body]
    element; the message names the missing part and no processed document
    is returned. *)
Theorem processDocxFile_missing_part parseFromString serializeToString
    randomUUID (zip : gmap string (list N)) :
  (zip !! "word/document.xml"%string = None →
   processDocxFile parseFromString serializeToString randomUUID zip
   = Thrown missingDocument)
  ∧ (∀ xml, zip !! "word/document.xml"%string = Some xml →
     getElementsByTagName "w:body" (parseFromString xml) = [] →
     processDocxFile parseFromString serializeToString randomUUID zip
     = Thrown missingBody)
  ∧ includes (js "word/document.xml") missingDocument = true
  ∧ includes (js "w:body") missingBody = true.
Proof.
  unfold processDocxFile. split_and!.
  - by intros ->.
  - intros xml -> Hbody. by rewrite Hbody.
  - by vm_compute.
  - by vm_compute.
Qed.

Lemma processDocxFile_missing_part_witness :
  processDocxFile (λ _, bodylessDoc) (λ _, []) (λ _, []) ∅
  = Thrown missingDocument
  ∧ processDocxFile (λ _, bodylessDoc) (λ _, []) (λ _, []) sampleZip
    = Thrown missingBody.
Proof.
  destruct (processDocxFile_missing_part (λ _, bodylessDoc) (λ _, [])
              (λ _, []) ∅) as (H1 & _).
  destruct (processDocxFile_missing_part (λ _, bodylessDoc) (λ _, [])
              (λ _, []) sampleZip) as (_ & H2 & _).
  split.
  - apply H1. reflexivity.
  - apply (H2 (js "<w:document/>")); vm_compute; reflexivity.
Defined.

(** ** applyFixToQuestion *)

Section FixFacts.

Variable parseFromString : list N → Node.
Variable serializeToString : Node → list N.

Lemma fixNodes_unmodified q fixValue nodes nodes' q' :
  fixNodes parseFromString q fixValue nodes = Some (nodes', false, q') →
  q' = q.
Proof.
  unfold fixNodes. destruct (QuestionBlock.type q).
  - destruct (underlineOptions fixValue nodes) as [[ns m]|]; simpl; [|done].
    destruct m; intros [= -> ->]; done.
  - destruct (underlineOptions fixValue nodes) as [[ns m]|]; simpl; [|done].
    destruct m; intros [= -> ->]; done.
  - destruct (last nodes) as [lastNode|]; [|by intros [= -> ->]].
    destruct (documentElement _); simpl; [|done].
    by destruct (isElement lastNode).
  - by intros [= -> ->].
  - by intros [= -> ->].
Qed.

Lemma underlineOptions_no_letter fixValue nodes :
  noOptionWithLetter fixValue nodes →
  underlineOptions fixValue nodes = Some (nodes, false).
Proof.
  induction 1 as [|node nodes Hnode _ IH]; [done|].
  simpl. rewrite IH.
  destruct (matchOptionPrefix (textContent node)) as [m|]; [|done].
  by rewrite (Hnode m).
Qed.

(** C10. Whenever [applyFixToQuestion] returns [false] the question is
    unchanged, all its fields included.  It returns [false] for an MCQ or
    TRUE_FALSE question none of whose option nodes has the letter of the fix
    value, and for a SHORT_ANSWER question with no content node. *)
Theorem applyFixToQuestion_false_unchanged (q : QuestionBlock.t)
    (fixValue : list N) :
  (∀ q', applyFixToQuestion parseFromString serializeToString q fixValue
         = Some (false, q') → q' = q)
  ∧ (∀ nodes,
       QuestionBlock.type q = MCQ ∨ QuestionBlock.type q = TRUE_FALSE →
       fixableNodes parseFromString q = Some nodes →
       noOptionWithLetter fixValue nodes →
       applyFixToQuestion parseFromString serializeToString q fixValue
       = Some (false, q))
  ∧ (QuestionBlock.type q = SHORT_ANSWER →
     fixableNodes parseFromString q = Some [] →
     applyFixToQuestion parseFromString serializeToString q fixValue
     = Some (false, q)).
Proof.
  unfold applyFixToQuestion, fixableNodes. split_and!.
  - intros q'. destruct (mapM _ _) as [docs|]; simpl; [|done].
    destruct (fixNodes _ _ _ _) as [[[nodes m] q1]|] eqn:Hfix; simpl; [|done].
    destruct m; [done|]. intros [= <-]. by eapply fixNodes_unmodified.
  - intros nodes Hty. destruct (mapM _ _) as [docs|]; simpl; [|done].
    intros [= ->] Hno. unfold fixNodes.
    rewrite (underlineOptions_no_letter _ _ Hno).
    by destruct Hty as [-> | ->].
  - intros Hty. destruct (mapM _ _) as [docs|]; simpl; [|done].
    intros [= ->]. unfold fixNodes. by rewrite Hty.
Qed.

End FixFacts.

Lemma applyFixToQuestion_false_unchanged_witness :
  applyFixToQuestion sampleParser (λ _, []) twoOptions (js "C")
  = Some (false, twoOptions)
  ∧ applyFixToQuestion sampleParser (λ _, []) noContent (js "7")
    = Some (false, noContent).
Proof.
  destruct (applyFixToQuestion_false_unchanged sampleParser (λ _, [])
              twoOptions (js "C")) as (H1 & H2 & _).
  destruct (applyFixToQuestion_false_unchanged sampleParser (λ _, [])
              noContent (js "7")) as (_ & _ & H3).
  split.
  - assert (applyFixToQuestion sampleParser (λ _, []) twoOptions (js "C")
            = Some (false, twoOptions)) as H.
    { apply (H2 [paragraph [plainRun "A. x"]; paragraph [plainRun "B. y"]]).
      - left. reflexivity.
      - vm_compute. reflexivity.
      - repeat constructor; intros m; vm_compute; intros [= <-]; reflexivity. }
    destruct (H1 twoOptions H). exact H.
  - apply H3; vm_compute; reflexivity.
Defined.

(** ** The answer of an MCQ question *)

Lemma testOptionPrefix_match text :
  testOptionPrefix text = true → ∃ m, matchOptionPrefix text = Some m.
Proof.
  unfold testOptionPrefix. intros [m Hm]%bool_decide_eq_true. by exists m.
Qed.

Lemma toUpperLetter_upper c :
  isOptionLetter c = true → isUpperAD (toUpperLetter c) = true.
Proof.
  unfold isOptionLetter, toUpperLetter, isUpperAD, isLowerAD.
  intros H. destruct ((97 <=? c)%N && (c <=? 100)%N) eqn:Hl.
  - apply andb_true_iff in Hl as [H1%N.leb_le H2%N.leb_le].
    apply andb_true_iff. split; apply N.leb_le; lia.
  - by rewrite orb_false_r in H.
Qed.

Lemma matchOptionPrefix_letter text m :
  matchOptionPrefix text = Some m → isOptionLetter (om_letter m) = true.
Proof.
  unfold matchOptionPrefix.
  destruct (spanClass isSpace text) as [lead r1].
  destruct r1 as [|c r2]; [done|].
  destruct (isOptionLetter c) eqn:Hc; [|done].
  destruct (spanClass isSpace r2) as [gap r3].
  destruct r3 as [|p r4]; [done|].
  destruct (isSeparator p); [|done]. by intros [= <-].
Qed.

Lemma scanAnswer_first labels nodes idx acc :
  scanAnswer labels nodes idx acc
  = match firstUnderlinedOption nodes with
    | Some node =>
      match matchOptionPrefix (textContent node) with
      | Some m => [toUpperLetter (om_letter m)]
      | None => acc
      end
    | None => acc
    end.
Proof.
  unfold firstUnderlinedOption.
  revert idx acc. induction nodes as [|node rest IH]; intros idx acc; [done|].
  simpl. destruct (testOptionPrefix (textContent node)) eqn:Ht; simpl; [|done].
  destruct (hasUnderline node); [|done].
  by destruct (testOptionPrefix_match _ Ht) as [m ->].
Qed.


(** ** The variants and the answer table *)

Lemma map_fmap {A B} (f : A → B) (l : list A) : map f l = f <$> l.
Proof. induction l as [|x l IH]; [done|]. simpl. by rewrite IH. Qed.

Lemma Number_toString z : Number (toString z) = z.
Proof.
  unfold Number, toString.
  rewrite map_map, (map_ext _ id), map_id
    by (intros a; apply ascii_N_embedding).
  rewrite string_of_list_ascii_of_string, NilZero.isi.
  - apply DecimalZ.of_to.
  - destruct z; [done| |done]. simpl. intros [= H].
    by apply DecimalPos.Unsigned.to_uint_nonnil in H.
  - destruct z; [done|done|]. simpl. intros [= H].
    by apply DecimalPos.Unsigned.to_uint_nonnil in H.
Qed.

Lemma toString_inj z1 z2 : toString z1 = toString z2 → z1 = z2.
Proof. intros H. by rewrite <-(Number_toString z1), H, Number_toString. Qed.

Lemma toString_not_STT z : toString z ≠ js "STT".
Proof.
  intros H. assert (z = 0%Z) as ->.
  { rewrite <-(Number_toString z), H. by vm_compute. }
  by vm_compute in H.
Qed.

Lemma sortCodes_sorted codes :
  Sorted Z.le (map Number codes) → sortCodes codes = codes.
Proof.
  induction codes as [|x l IH]; [done|]. simpl.
  intros [Hl Hx]%Sorted_inv. rewrite (IH Hl).
  destruct l as [|y l']; [done|]. simpl.
  apply HdRel_inv in Hx. by apply Z.leb_le in Hx as ->.
Qed.

Lemma codesFrom_S startCode i n :
  codesFrom startCode i (S n)
  = toString (startCode + i - 1) :: codesFrom startCode (i + 1) n.
Proof.
  unfold codesFrom. simpl. f_equal; [f_equal; lia|].
  rewrite <-seq_shift, map_map. apply map_ext. intros j. f_equal. lia.
Qed.

Lemma codesFrom_sorted startCode i n :
  Sorted Z.le (map Number (codesFrom startCode i n)).
Proof.
  revert i. induction n as [|n IH]; intros i; [constructor|].
  rewrite codesFrom_S. simpl. constructor; [apply IH|].
  destruct n; [constructor|]. rewrite codesFrom_S. simpl. constructor.
  rewrite !Number_toString. lia.
Qed.

Lemma codesFrom_elem startCode i n code :
  code ∈ codesFrom startCode i n →
  ∃ j, code = toString (startCode + (i + Z.of_nat j) - 1) ∧ j < n.
Proof.
  unfold codesFrom. rewrite list_elem_of_In, in_map_iff.
  intros (j & <- & Hj%in_seq). exists j. split; [done|lia].
Qed.

Lemma codesFrom_NoDup startCode i n : NoDup (codesFrom startCode i n).
Proof.
  revert i. induction n as [|n IH]; intros i; [constructor|].
  rewrite codesFrom_S. constructor; [|apply IH].
  intros (j & Hj%toString_inj & _)%codesFrom_elem. lia.
Qed.

Section VariantFacts.

Variable renderVariant : list N → nat → option (gmap nat (list N) * nat).
Hypothesis renders : ∀ code k, is_Some (renderVariant code k).

Lemma variantLoop_runs startCode remaining i k all :
  ∃ vs k',
    variantLoop renderVariant startCode remaining i k all = Some (all ++ vs, k')
    ∧ map Variant.code vs = codesFrom startCode i remaining
    ∧ Forall (recorded renderVariant) vs.
Proof.
  revert i k all. induction remaining as [|n IH]; intros i k all.
  - exists [], k. by rewrite app_nil_r.
  - cbn [variantLoop].
    destruct (renders (toString (startCode + i - 1)) k) as [[a k1] Hr].
    rewrite Hr. cbn [mbind option_bind].
    destruct (IH (i + 1)%Z k1
      (all ++ [Variant.mk (toString (startCode + i - 1)) a]))
      as (vs & k' & -> & Hcodes & Hrec).
    exists (Variant.mk (toString (startCode + i - 1)) a :: vs), k'.
    split_and!.
    + by rewrite <-app_assoc.
    + rewrite codesFrom_S. simpl. by rewrite Hcodes.
    + constructor; [|done]. by exists k, k1.
Qed.

End VariantFacts.

(** The cells of one row. *)
Lemma excelRow_fold (all : list Variant.t) (codes : list (list N))
    (qIdx : nat) (row0 : gmap (list N) Cell) (key : list N) :
  foldl (λ row code,
    match find (λ v, bool_decide (Variant.code v = code)) all with
    | Some variant =>
      <[code := CellText (default [] (Variant.answers variant !! qIdx))]> row
    | None => row
    end) row0 codes !! key
  = match (if bool_decide (key ∈ codes)
           then find (λ v, bool_decide (Variant.code v = key)) all else None)
    with
    | Some variant =>
      Some (CellText (default [] (Variant.answers variant !! qIdx)))
    | None => row0 !! key
    end.
Proof.
  revert row0. induction codes as [|c codes IH]; intros row0; [done|].
  cbn [foldl]. rewrite IH. clear IH.
  destruct (decide (key ∈ codes)) as [Hin|Hin].
  - rewrite !bool_decide_true; [|apply elem_of_cons; by right|done].
    destruct (find (λ v, bool_decide (Variant.code v = key)) all) eqn:Hk;
      [done|].
    destruct (find (λ v, bool_decide (Variant.code v = c)) all) eqn:Hc; [|done].
    destruct (decide (c = key)) as [->|Hne]; [congruence|].
    by rewrite lookup_insert_ne.
  - rewrite (bool_decide_false (key ∈ codes)) by done.
    destruct (decide (c = key)) as [->|Hne].
    + rewrite bool_decide_true by (apply elem_of_cons; by left).
      destruct (find _ all); [|done]. by rewrite lookup_insert_eq.
    + rewrite bool_decide_false
        by (rewrite elem_of_cons; intros [Heq|Hi]; [by apply Hne|by apply Hin]).
      destruct (find _ all); [|done]. by rewrite lookup_insert_ne.
Qed.

Lemma find_unique_code (all : list Variant.t) v :
  NoDup (map Variant.code all) → v ∈ all →
  find (λ w, bool_decide (Variant.code w = Variant.code v)) all = Some v.
Proof.
  induction all as [|w all IH]; [by intros _ ?%elem_of_nil|].
  simpl. intros [Hw Hnd]%NoDup_cons [->|Hv]%elem_of_cons.
  - by rewrite bool_decide_true.
  - rewrite bool_decide_false; [by apply IH|].
    intros Heq. apply Hw. rewrite Heq, list_elem_of_In. apply in_map.
    by apply list_elem_of_In.
Qed.



(** ** Relabelling a plain paragraph *)

Lemma relabelWalk_Elem rewrite nm attrs cs :
  relabelWalk rewrite (Elem nm attrs cs)
  = match (if bool_decide (nm = "w:t"%string)
              && negb (bool_decide (textContent (Elem nm attrs cs) = []))
           then rewrite (textContent (Elem nm attrs cs)) else None) with
    | Some text => Here (Elem nm attrs [Text text])
    | None =>
      match relabelChildren rewrite cs with
      | Here cs' =>
        if bool_decide (nm = "w:r"%string) then
          match applyRunStyle blue (Elem nm attrs cs') with
          | Some r => Below r
          | None => Raised
          end
        else Below (Elem nm attrs cs')
      | Below cs' => Below (Elem nm attrs cs')
      | NoMatch => NoMatch
      | Raised => Raised
      end
    end.
Proof. reflexivity. Qed.

(** ** Plain paragraphs *)
Lemma Node_ind' (P : Node → Prop) :
  (∀ d, P (Text d)) →
  (∀ nm attrs cs, Forall P cs → P (Elem nm attrs cs)) →
  ∀ n, P n.
Proof.
  intros HT HE. fix IH 1. intros [d|nm attrs cs]; [apply HT|apply HE].
  induction cs as [|c cs IHcs]; constructor; [apply IH|exact IHcs].
Qed.

Lemma forallb_Forall {A} (p : A → bool) l :
  forallb p l = true ↔ Forall (λ x, p x = true) l.
Proof.
  induction l as [|x l IH]; simpl.
  - split; [constructor|done].
  - rewrite andb_true_iff, IH, Forall_cons. done.
Qed.

Lemma getElementsByTagName_Elem name nm attrs cs :
  getElementsByTagName name (Elem nm attrs cs)
  = concat (map (λ c, (if named name c then [c] else [])
                        ++ getElementsByTagName name c) cs).
Proof.
  unfold getElementsByTagName. simpl.
  induction cs as [|c cs IH]; [done|]. cbn [map concat].
  rewrite <-IH.
  change ((c :: descendants c)
          ++ concat (map (λ c0, c0 :: descendants c0) cs))
    with (c :: (descendants c
                ++ concat (map (λ c0, c0 :: descendants c0) cs))).
  rewrite filter_cons, filter_app.
  destruct (named name c) eqn:Hc.
  - by rewrite decide_True.
  - by rewrite decide_False by (by intros [=]).
Qed.

Lemma inert_text banned n : inert banned n = true → textContent n = [].
Proof.
  induction n as [d|nm attrs cs IH] using Node_ind'; [done|].
  simpl. intros [_ Hcs%forallb_Forall]%andb_true_iff.
  induction cs as [|c cs IHcs]; [done|]. simpl.
  apply Forall_cons in IH as [IHc IH]. apply Forall_cons in Hcs as [Hc Hcs].
  by rewrite IHc, IHcs.
Qed.

Lemma inert_named banned name n :
  inert banned n = true → name ∈ banned → named name n = false.
Proof.
  destruct n as [d|nm attrs cs]; [done|]. simpl.
  intros [Hn%negb_true_iff%bool_decide_eq_false _]%andb_true_iff Hin.
  unfold named. simpl. apply bool_decide_eq_false. by intros ->.
Qed.

Lemma inert_no_descendant banned name n :
  inert banned n = true → name ∈ banned → getElementsByTagName name n = [].
Proof.
  intros Hn Hin. revert Hn.
  induction n as [d|nm attrs cs IH] using Node_ind'; [done|].
  simpl. intros [_ Hcs%forallb_Forall]%andb_true_iff.
  rewrite getElementsByTagName_Elem.
  induction cs as [|c cs IHcs]; [done|]. simpl.
  apply Forall_cons in IH as [IHc IH]. apply Forall_cons in Hcs as [Hc Hcs].
  by rewrite (inert_named _ _ _ Hc Hin), IHc, IHcs.
Qed.

Section WalkFacts.
Variable rewrite : list N → option (list N).
Hypothesis rewrite_nil : rewrite [] = None.

Lemma inert_walk banned n :
  inert banned n = true → "w:t"%string ∈ banned →
  relabelWalk rewrite n = NoMatch.
Proof.
  intros Hn Hin. revert Hn.
  induction n as [d|nm attrs cs IH] using Node_ind'; [done|].
  intros Hn. rewrite relabelWalk_Elem, (inert_text _ _ Hn).
  rewrite (bool_decide_true ([] = [])) by done. rewrite andb_false_r.
  simpl in Hn. apply andb_true_iff in Hn as [_ Hcs%forallb_Forall].
  assert (relabelChildren rewrite cs = NoMatch) as ->; [|done].
  induction cs as [|c cs IHcs]; [done|]. simpl.
  apply Forall_cons in IH as [IHc IH]. apply Forall_cons in Hcs as [Hc Hcs].
  by rewrite IHc, IHcs.
Qed.
End WalkFacts.

Section PieceFacts.
Variable rewrite : list N → option (list N).
Hypothesis rewrite_nil : rewrite [] = None.

Lemma noMatch_nil : noMatch rewrite [].
Proof. by exists []. Qed.

Lemma noMatch_app t1 t2 :
  noMatch rewrite t1 → noMatch rewrite t2 → noMatch rewrite (t1 ++ t2).
Proof.
  intros (p1 & -> & H1) (p2 & -> & H2). exists (p1 ++ p2).
  split; [by rewrite concat_app|by apply Forall_app].
Qed.

Lemma noMatch_piece x : rewrite x = None → noMatch rewrite x.
Proof.
  intros Hx. exists [x]. split; [simpl; by rewrite app_nil_r|].
  by apply Forall_singleton.
Qed.

Lemma firstMatch_here f f' after :
  rewrite f = Some f' → firstMatch rewrite (f ++ after) (f' ++ after).
Proof. intros Hf. by exists [], f, f', after. Qed.

Lemma firstMatch_after t1 t2 t2' :
  noMatch rewrite t1 → firstMatch rewrite t2 t2' →
  firstMatch rewrite (t1 ++ t2) (t1 ++ t2').
Proof.
  intros (p1 & -> & H1) (p2 & f & f' & after & -> & -> & H2 & Hf).
  exists (p1 ++ p2), f, f', after.
  rewrite concat_app, <-!app_assoc. split_and!; [done..| |done].
  by apply Forall_app.
Qed.

Lemma firstMatch_before t t' after :
  firstMatch rewrite t t' → firstMatch rewrite (t ++ after) (t' ++ after).
Proof.
  intros (p & f & f' & a & -> & -> & H & Hf).
  exists p, f, f', (a ++ after). by rewrite <-!app_assoc.
Qed.

Lemma prop_walk c : isProp c = true → relabelWalk rewrite c = NoMatch.
Proof.
  destruct c as [d|nm attrs [|? ?]]; try done. simpl.
  intros Hn%negb_true_iff%bool_decide_eq_false.
  rewrite bool_decide_false; [done|].
  intros ->. apply Hn. by repeat constructor.
Qed.

Lemma prop_text c : isProp c = true → textContent c = [].
Proof. by destruct c as [d|nm attrs [|? ?]]. Qed.

Lemma props_text cs :
  Forall (λ c, isProp c = true) cs → concat (map textContent cs) = [].
Proof.
  induction 1 as [|c cs Hc _ IH]; [done|]. simpl.
  by rewrite (prop_text _ Hc), IH.
Qed.

Lemma props_walk cs :
  Forall (λ c, isProp c = true) cs → relabelChildren rewrite cs = NoMatch.
Proof.
  induction 1 as [|c cs Hc _ IH]; [done|]. simpl.
  by rewrite (prop_walk _ Hc), IH.
Qed.

Lemma texts_walk cs :
  Forall (λ c, isText c = true) cs → relabelChildren rewrite cs = NoMatch.
Proof.
  induction 1 as [|c cs Hc _ IH]; [done|]. simpl.
  destruct c; [|done]. by rewrite IH.
Qed.

Lemma concat_text_cons c cs :
  concat (map textContent (c :: cs))
  = textContent c ++ concat (map textContent cs).
Proof. reflexivity. Qed.

Lemma walk_run_children rcs :
  Forall (λ c, simpleRunChild c = true) rcs →
  match relabelChildren rewrite rcs with
  | Here rcs' =>
    Forall (λ c, simpleRunChild c = true) rcs'
    ∧ firstMatch rewrite (concat (map textContent rcs))
        (concat (map textContent rcs'))
    ∧ propsNamed rcs' = propsNamed rcs
  | NoMatch => noMatch rewrite (concat (map textContent rcs))
  | Below _ | Raised => False
  end.
Proof.
  induction 1 as [|c rcs Hc Hrcs IH]; [apply noMatch_nil|].
  cbn [relabelChildren map concat].
  destruct c as [d|nm attrs cs]; [done|].
  rewrite relabelWalk_Elem. simpl in Hc.
  destruct (decide (nm = "w:rPr"%string)) as [->|Hprops].
  { (* run properties *)
    rewrite bool_decide_true in Hc by done.
    apply forallb_Forall in Hc.
    rewrite (bool_decide_false ("w:rPr"%string = "w:t"%string)) by done.
    cbn [andb]. rewrite (props_walk _ Hc).
    assert (textContent (Elem "w:rPr" attrs cs) = []) as Htxt
      by apply (props_text _ Hc).
    rewrite Htxt.
    destruct (relabelChildren rewrite rcs) as [rcs'| | |]; try done.
    destruct IH as (H1 & H2 & H3). split_and!.
    - constructor; [|done]. simpl. by apply forallb_Forall.
    - by rewrite concat_text_cons, Htxt.
    - unfold propsNamed. rewrite !filter_cons. unfold propsNamed in H3.
      by rewrite H3. }
  rewrite (bool_decide_false (nm = "w:rPr"%string)) in Hc by done.
  assert (Hnp : ∀ cs' rest,
    propsNamed (Elem nm attrs cs' :: rest) = propsNamed rest).
  { intros cs' rest. unfold propsNamed. rewrite filter_cons, decide_False; [done|].
    unfold named. simpl. rewrite bool_decide_false; done. }
  destruct (decide (nm = "w:t"%string)) as [->|Htext].
  { (* a text element *)
    rewrite bool_decide_true in Hc by done. apply forallb_Forall in Hc.
    rewrite (bool_decide_true ("w:t"%string = "w:t"%string)) by done.
    cbn [andb]. set (f := textContent (Elem "w:t" attrs cs)).
    destruct (rewrite f) as [f'|] eqn:Hf.
    - destruct (bool_decide (f = [])) eqn:Hnil.
      { apply bool_decide_eq_true in Hnil. congruence. }
      cbn [negb]. split_and!.
      + constructor; [done|done].
      + rewrite concat_text_cons.
        change (textContent (Elem "w:t" attrs [Text f'])) with (f' ++ []).
        rewrite app_nil_r. by apply firstMatch_here.
      + by rewrite !Hnp.
    - assert ((if negb (bool_decide (f = [])) then @None (list N) else None)
              = None) as -> by (by destruct (negb _)).
      rewrite (texts_walk _ Hc).
      destruct (relabelChildren rewrite rcs) as [rcs'| | |]; try done.
      + destruct IH as (H1 & H2 & H3). split_and!.
        * constructor; [|done]. simpl. by apply forallb_Forall.
        * rewrite concat_text_cons. fold f.
          apply firstMatch_after; [by apply noMatch_piece|done].
        * by rewrite !Hnp.
      + apply noMatch_app; [by apply noMatch_piece|done]. }
  (* an inert element *)
  rewrite (bool_decide_false (nm = "w:t"%string)) in Hc by done.
  change (inert runNames (Elem nm attrs cs) = true) in Hc.
  rewrite <-relabelWalk_Elem.
  rewrite (inert_walk rewrite runNames _ Hc)
    by (by repeat constructor).
  rewrite (inert_text _ _ Hc).
  destruct (relabelChildren rewrite rcs) as [rcs'| | |]; try done.
  destruct IH as (H1 & H2 & H3). split_and!.
  - constructor; [|done]. simpl.
    rewrite !(bool_decide_false (nm = _)) by done. done.
  - by rewrite concat_text_cons, (inert_text _ _ Hc).
  - by rewrite !Hnp.
Qed.

End PieceFacts.

Lemma updateFirst_Elem name f nm attrs cs :
  updateFirst name f (Elem nm attrs cs)
  = updMap (Elem nm attrs) (updateFirstList name f cs).
Proof. reflexivity. Qed.

Lemma app_nil_inv {A} (l1 l2 : list A) : l1 ++ l2 = [] → l1 = [] ∧ l2 = [].
Proof. by destruct l1, l2. Qed.

Lemma updateFirst_absent name f n :
  getElementsByTagName name n = [] → updateFirst name f n = Absent.
Proof.
  induction n as [d|nm attrs cs IH] using Node_ind'; [done|].
  rewrite getElementsByTagName_Elem, updateFirst_Elem. intros Hcs.
  assert (updateFirstList name f cs = Absent) as ->; [|done].
  induction cs as [|c cs IHcs]; [done|].
  apply Forall_cons in IH as [IHc IH].
  cbn [map concat] in Hcs. apply app_nil_inv in Hcs as [Hc Hcs].
  apply app_nil_inv in Hc as [Hn Hc].
  simpl. destruct (named name c); [done|].
  by rewrite (IHc Hc), (IHcs IH Hcs).
Qed.

Lemma props_descendants name nm attrs ps :
  Forall (λ c, isProp c = true) ps →
  getElementsByTagName name (Elem nm attrs ps)
  = filter (λ c, named name c = true) ps.
Proof.
  intros Hps. rewrite getElementsByTagName_Elem.
  induction Hps as [|c ps Hc _ IH]; [done|].
  cbn [map concat]. rewrite IH, filter_cons.
  destruct c as [d|nm' attrs' [|? ?]]; try done.
  change (getElementsByTagName name (Elem nm' attrs' [])) with (@nil Node).
  rewrite app_nil_r. destruct (named name (Elem nm' attrs' [])) eqn:Hn.
  - by rewrite decide_True.
  - by rewrite decide_False by (by intros [=]).
Qed.

Lemma prop_not_run_name c name :
  isProp c = true → name ∈ runNames → named name c = false.
Proof.
  destruct c as [d|nm attrs [|? ?]]; try done. simpl.
  intros Hn%negb_true_iff%bool_decide_eq_false Hin.
  unfold named. simpl. apply bool_decide_eq_false. by intros ->.
Qed.

Lemma simpleRunChild_descendants c name :
  simpleRunChild c = true → name ∈ runNames →
  getElementsByTagName name c = [].
Proof.
  destruct c as [d|nm attrs cs]; [done|]. intros Hc Hin. simpl in Hc.
  case_bool_decide as Hp; [|case_bool_decide as Ht].
  - apply forallb_Forall in Hc. rewrite props_descendants by done.
    induction Hc as [|c cs Hc _ IH]; [done|].
    rewrite filter_cons, decide_False; [done|].
    rewrite (prop_not_run_name _ _ Hc Hin). by intros [=].
  - apply forallb_Forall in Hc. rewrite getElementsByTagName_Elem.
    induction Hc as [|c cs Hc _ IH]; [done|].
    cbn [map concat]. rewrite IH. destruct c; [|done].
    unfold named. simpl. rewrite bool_decide_false; [done|].
    intros <-. unfold runNames in Hin.
    rewrite !elem_of_cons, elem_of_nil in Hin. by destruct_or!.
  - by eapply inert_no_descendant.
Qed.

Lemma run_props nm attrs rcs :
  Forall (λ c, simpleRunChild c = true) rcs →
  getElementsByTagName "w:rPr" (Elem nm attrs rcs) = propsNamed rcs.
Proof.
  intros Hrcs. rewrite getElementsByTagName_Elem. unfold propsNamed.
  induction Hrcs as [|c rcs Hc _ IH]; [done|].
  cbn [map concat]. rewrite IH, filter_cons.
  rewrite (simpleRunChild_descendants c "w:rPr")
    by (done || by repeat constructor).
  rewrite app_nil_r. destruct (named "w:rPr" c) eqn:Hn.
  - by rewrite decide_True.
  - by rewrite decide_False by (by intros [=]).
Qed.

Lemma simpleRunChild_not_run c :
  simpleRunChild c = true → named "w:r" c = false.
Proof.
  destruct c as [d|nm attrs cs]; [done|]. simpl. intros Hc.
  unfold named. simpl. apply bool_decide_eq_false. intros ->.
  rewrite (bool_decide_true ("w:r"%string ∈ runNames)) in Hc
    by (by repeat constructor).
  by rewrite !bool_decide_false in Hc by done.
Qed.

Lemma run_no_runs nm attrs rcs :
  Forall (λ c, simpleRunChild c = true) rcs →
  getElementsByTagName "w:r" (Elem nm attrs rcs) = [].
Proof.
  intros Hrcs. rewrite getElementsByTagName_Elem.
  induction Hrcs as [|c rcs Hc _ IH]; [done|].
  cbn [map concat]. rewrite IH, (simpleRunChild_not_run _ Hc).
  by rewrite (simpleRunChild_descendants c "w:r")
    by (done || by repeat constructor).
Qed.

Lemma runUnderlined_simple nm attrs rcs :
  Forall (λ c, simpleRunChild c = true) rcs →
  runUnderlined (Elem nm attrs rcs) = underlinedProps rcs.
Proof. intros H. unfold runUnderlined. by rewrite run_props. Qed.

Lemma removeFirstChild_props name ps :
  Forall (λ c, isProp c = true) ps →
  match removeFirstChild name ps with
  | Updated ps' =>
    Forall (λ c, isProp c = true) ps'
    ∧ ∀ other, other ≠ name →
        filter (λ c, named other c = true) ps'
        = filter (λ c, named other c = true) ps
  | Absent => True
  | Failed => False
  end.
Proof.
  induction 1 as [|c ps Hc Hps IH]; [done|]. simpl.
  destruct (named name c) eqn:Hn.
  - split; [done|]. intros other Hne. rewrite filter_cons, decide_False; [done|].
    unfold named in *. apply bool_decide_eq_true in Hn.
    rewrite bool_decide_eq_true. congruence.
  - destruct c as [d|nm attrs [|? ?]]; try done.
    change (getElementsByTagName name (Elem nm attrs [])) with (@nil Node).
    destruct (removeFirstChild name ps) as [ps'| |]; simpl; [|done|done].
    destruct IH as [IH1 IH2]. split; [by constructor|].
    intros other Hne. by rewrite !filter_cons, IH2.
Qed.

Lemma styleRunProps_props nm attrs ps :
  Forall (λ c, isProp c = true) ps →
  ∃ ps',
    styleRunProps blue (Elem nm attrs ps) = Some (Elem nm attrs ps')
    ∧ Forall (λ c, isProp c = true) ps'
    ∧ filter (λ c, named "w:u" c = true) ps'
      = filter (λ c, named "w:u" c = true) ps.
Proof.
  intros Hps. unfold styleRunProps.
  set (ps1 := match getElementsByTagName "w:b" (Elem nm attrs ps) with
              | [] => ps ++ [Elem "w:b" [] []]
              | _ :: _ => ps
              end).
  assert (match getElementsByTagName "w:b" (Elem nm attrs ps) with
          | [] => appendChild (Elem "w:b" [] []) (Elem nm attrs ps)
          | _ :: _ => Elem nm attrs ps
          end = Elem nm attrs ps1) as ->.
  { unfold ps1. by destruct (getElementsByTagName _ _). }
  assert (Hps1 : Forall (λ c, isProp c = true) ps1).
  { unfold ps1. destruct (getElementsByTagName _ _); [|done].
    apply Forall_app. split; [done|]. by apply Forall_singleton. }
  assert (Hu1 : filter (λ c, named "w:u" c = true) ps1
                = filter (λ c, named "w:u" c = true) ps).
  { unfold ps1. destruct (getElementsByTagName _ _); [|done].
    rewrite filter_app. by rewrite app_nil_r. }
  pose proof (removeFirstChild_props "w:color" ps1 Hps1) as Hrem.
  destruct (removeFirstChild "w:color" ps1) as [ps2| |]; [| |done].
  - destruct Hrem as [H1 H2]. eexists. split_and!; [done| |].
    + apply Forall_app. split; [done|]. by apply Forall_singleton.
    + rewrite filter_app, H2, Hu1 by done. by rewrite app_nil_r.
  - eexists. split_and!; [done| |].
    + apply Forall_app. split; [done|]. by apply Forall_singleton.
    + rewrite filter_app, Hu1. by rewrite app_nil_r.
Qed.

Lemma underlineOf_props nm attrs ps :
  Forall (λ c, isProp c = true) ps →
  underlineOf (Elem nm attrs ps)
  = match head (filter (λ c, named "w:u" c = true) ps) with
    | Some u =>
      match getAttribute "w:val" u with
      | None => true
      | Some val => bool_decide (val = []) || bool_decide (val ≠ js "none")
      end
    | None => false
    end.
Proof. intros H. unfold underlineOf. by rewrite props_descendants. Qed.

Lemma elem_props_text nm attrs ps :
  Forall (λ c, isProp c = true) ps → textContent (Elem nm attrs ps) = [].
Proof. apply props_text. Qed.

Lemma updateFirst_run_children f rcs :
  Forall (λ c, simpleRunChild c = true) rcs →
  (∀ nm attrs ps, Forall (λ c, isProp c = true) ps →
     ∃ ps', f (Elem nm attrs ps) = Some (Elem nm attrs ps')
            ∧ Forall (λ c, isProp c = true) ps'
            ∧ filter (λ c, named "w:u" c = true) ps'
              = filter (λ c, named "w:u" c = true) ps) →
  match updateFirstList "w:rPr" f rcs with
  | Updated rcs' =>
    Forall (λ c, simpleRunChild c = true) rcs'
    ∧ concat (map textContent rcs') = concat (map textContent rcs)
    ∧ underlinedProps rcs' = underlinedProps rcs
  | Absent => propsNamed rcs = []
  | Failed => False
  end.
Proof.
  intros Hrcs Hf. induction Hrcs as [|c rcs Hc Hrcs IH]; [done|].
  cbn [updateFirstList]. destruct (named "w:rPr" c) eqn:Hn.
  - destruct c as [d|nm attrs ps]; [done|].
    apply bool_decide_eq_true in Hn. simpl in Hn. subst nm.
    simpl in Hc. apply forallb_Forall in Hc.
    destruct (Hf "w:rPr"%string attrs ps Hc) as (ps' & -> & Hps' & Hu).
    split_and!.
    + constructor; [|done]. simpl. by apply forallb_Forall.
    + by rewrite !concat_text_cons, !elem_props_text.
    + unfold underlinedProps, propsNamed. rewrite !filter_cons.
      rewrite !decide_True by done. cbn [head].
      by rewrite !underlineOf_props, Hu.
  - rewrite updateFirst_absent
      by (apply simpleRunChild_descendants; done || by repeat constructor).
    assert (Hnp : ∀ rest, propsNamed (c :: rest) = propsNamed rest).
    { intros rest. unfold propsNamed. rewrite filter_cons, decide_False; [done|].
      by rewrite Hn. }
    destruct (updateFirstList "w:rPr" f rcs) as [rcs'| |]; cbn [updMap];
      [| |done].
    + destruct IH as (H1 & H2 & H3). split_and!.
      * by constructor.
      * by rewrite !concat_text_cons, H2.
      * unfold underlinedProps in *. by rewrite !Hnp.
    + by rewrite Hnp.
Qed.

Lemma updateFirstList_named name f c cs :
  named name c = true →
  updateFirstList name f (c :: cs)
  = match f c with
    | Some c' => Updated (c' :: cs)
    | None => Failed
    end.
Proof. simpl. by intros ->. Qed.

Lemma applyRunStyle_simple nm attrs rcs :
  Forall (λ c, simpleRunChild c = true) rcs →
  ∃ rcs',
    applyRunStyle blue (Elem nm attrs rcs) = Some (Elem nm attrs rcs')
    ∧ Forall (λ c, simpleRunChild c = true) rcs'
    ∧ concat (map textContent rcs') = concat (map textContent rcs)
    ∧ underlinedProps rcs' = underlinedProps rcs.
Proof.
  intros Hrcs. unfold applyRunStyle. rewrite run_props by done.
  destruct (propsNamed rcs) as [|p rest] eqn:Hp.
  - cbn [prependChild]. rewrite updateFirst_Elem.
    rewrite updateFirstList_named by done.
    destruct (styleRunProps_props "w:rPr" [] [] (Forall_nil_2 _))
      as (ps' & -> & Hps' & Hu).
    simpl. eexists. split_and!; [done| | |].
    + constructor; [|done]. simpl. by apply forallb_Forall.
    + by rewrite concat_text_cons, elem_props_text.
    + unfold underlinedProps at 1. unfold propsNamed.
      rewrite filter_cons, decide_True by done. cbn [head].
      rewrite underlineOf_props, Hu by done. simpl.
      unfold underlinedProps. by rewrite Hp.
  - rewrite updateFirst_Elem.
    pose proof (updateFirst_run_children (styleRunProps blue) rcs Hrcs
      styleRunProps_props) as Hup.
    destruct (updateFirstList "w:rPr" (styleRunProps blue) rcs) as [rcs'| |];
      simpl; [|congruence|done].
    by exists rcs'.
Qed.

Lemma par_runs nm attrs cs :
  Forall (λ c, simpleParChild c = true) cs →
  getElementsByTagName "w:r" (Elem nm attrs cs) = runsOf cs.
Proof.
  intros Hcs. rewrite getElementsByTagName_Elem. unfold runsOf.
  induction Hcs as [|c cs Hc _ IH]; [done|].
  cbn [map concat]. rewrite IH, filter_cons.
  destruct c as [d|nm' attrs' rcs]; [done|]. simpl in Hc.
  case_bool_decide as Hr.
  - subst nm'. apply forallb_Forall in Hc.
    rewrite run_no_runs by done.
    change (named "w:r" (Elem "w:r" attrs' rcs)) with true.
    by rewrite decide_True by done.
  - change (inert ["w:r"; "w:t"]%string (Elem nm' attrs' rcs) = true) in Hc.
    rewrite (inert_no_descendant _ "w:r" _ Hc) by (by repeat constructor).
    rewrite (inert_named _ "w:r" _ Hc) by (by repeat constructor).
    by rewrite decide_False by (by intros [=]).
Qed.

Lemma hasUnderline_simple nm attrs cs :
  Forall (λ c, simpleParChild c = true) cs →
  hasUnderline (Elem nm attrs cs) = existsb runUnderlined (runsOf cs).
Proof. intros H. unfold hasUnderline. by rewrite par_runs. Qed.

Section ParWalk.
Variable rewrite : list N → option (list N).
Hypothesis rewrite_nil : rewrite [] = None.

Lemma walk_run attrs rcs :
  Forall (λ c, simpleRunChild c = true) rcs →
  (∃ rcs',
     relabelWalk rewrite (Elem "w:r" attrs rcs) = Below (Elem "w:r" attrs rcs')
     ∧ Forall (λ c, simpleRunChild c = true) rcs'
     ∧ firstMatch rewrite (concat (map textContent rcs))
         (concat (map textContent rcs'))
     ∧ underlinedProps rcs' = underlinedProps rcs)
  ∨ (relabelWalk rewrite (Elem "w:r" attrs rcs) = NoMatch
     ∧ noMatch rewrite (concat (map textContent rcs))).
Proof.
  intros Hrcs. rewrite relabelWalk_Elem.
  rewrite (bool_decide_false ("w:r"%string = "w:t"%string)) by done.
  cbn [andb]. pose proof (walk_run_children rewrite rewrite_nil rcs Hrcs) as Hw.
  destruct (relabelChildren rewrite rcs) as [rcs1| | |]; try done.
  - left. destruct Hw as (H1 & H2 & H3).
    rewrite (bool_decide_true ("w:r"%string = "w:r"%string)) by done.
    destruct (applyRunStyle_simple "w:r" attrs rcs1 H1)
      as (rcs' & -> & H4 & H5 & H6).
    exists rcs'. split_and!; [done|done| |].
    + by rewrite H5.
    + rewrite H6. unfold underlinedProps. by rewrite H3.
  - by right.
Qed.

Lemma walk_par_children cs :
  Forall (λ c, simpleParChild c = true) cs →
  (∃ cs',
     relabelChildren rewrite cs = Below cs'
     ∧ Forall (λ c, simpleParChild c = true) cs'
     ∧ firstMatch rewrite (concat (map textContent cs))
         (concat (map textContent cs'))
     ∧ existsb runUnderlined (runsOf cs') = existsb runUnderlined (runsOf cs))
  ∨ (relabelChildren rewrite cs = NoMatch
     ∧ noMatch rewrite (concat (map textContent cs))).
Proof.
  induction 1 as [|c cs Hc Hcs IH].
  { right. split; [done|apply noMatch_nil]. }
  cbn [relabelChildren]. rewrite !concat_text_cons.
  destruct c as [d|nm attrs rcs]; [done|]. simpl in Hc.
  case_bool_decide as Hr.
  - subst nm. apply forallb_Forall in Hc.
    destruct (walk_run attrs rcs Hc)
      as [(rcs' & -> & H1 & H2 & H3)|[-> Hno]].
    + left. eexists. split_and!; [done| | |].
      * constructor; [|done]. simpl. by apply forallb_Forall.
      * rewrite concat_text_cons. by apply firstMatch_before.
      * unfold runsOf. rewrite !filter_cons, !decide_True by done.
        cbn [existsb]. by rewrite !runUnderlined_simple, H3.
    + destruct IH as [(cs' & -> & H1 & H2 & H3)|[-> Hno']].
      * left. eexists. split_and!; [done| | |].
        -- constructor; [|done]. simpl. by apply forallb_Forall.
        -- rewrite concat_text_cons. by apply firstMatch_after.
        -- unfold runsOf in *. rewrite !filter_cons, !decide_True by done.
           cbn [existsb]. by rewrite H3.
      * right. split; [done|]. by apply noMatch_app.
  - change (inert ["w:r"; "w:t"]%string (Elem nm attrs rcs) = true) in Hc.
    rewrite (inert_walk rewrite _ _ Hc) by (by repeat constructor).
    rewrite (inert_text _ _ Hc).
    assert (Hnr : ∀ rest, runsOf (Elem nm attrs rcs :: rest) = runsOf rest).
    { intros rest. unfold runsOf. rewrite filter_cons, decide_False; [done|].
      unfold named. simpl. by rewrite bool_decide_false. }
    destruct IH as [(cs' & -> & H1 & H2 & H3)|[-> Hno']].
    + left. eexists. split_and!; [done| | |].
      * constructor; [|done]. simpl. by rewrite bool_decide_false.
      * by rewrite concat_text_cons, (inert_text _ _ Hc).
      * by rewrite !Hnr.
    + by right.
Qed.

Lemma walk_par node :
  simplePar node = true →
  ∃ node',
    match relabelWalk rewrite node with
    | Here n | Below n => Some n
    | NoMatch => Some node
    | Raised => None
    end = Some node'
    ∧ simplePar node' = true
    ∧ hasUnderline node' = hasUnderline node
    ∧ (firstMatch rewrite (textContent node) (textContent node')
       ∨ node' = node ∧ noMatch rewrite (textContent node)).
Proof.
  destruct node as [d|nm attrs cs]; [done|]. cbn [simplePar].
  intros [Hnm%negb_true_iff%bool_decide_eq_false Hcs%forallb_Forall]%andb_true_iff.
  rewrite relabelWalk_Elem.
  assert (nm ≠ "w:t"%string) as Ht.
  { intros ->. apply Hnm. by repeat constructor. }
  rewrite (bool_decide_false (nm = "w:t"%string)) by done. cbn [andb].
  destruct (walk_par_children cs Hcs)
    as [(cs' & -> & H1 & H2 & H3)|[-> Hno]].
  - exists (Elem nm attrs cs'). split_and!; [done| | |by left].
    + simpl. rewrite bool_decide_false by done. by apply forallb_Forall.
    + by rewrite !hasUnderline_simple.
  - exists (Elem nm attrs cs). split_and!; [done| |done|by right].
    simpl. rewrite bool_decide_false by done. by apply forallb_Forall.
Qed.

End ParWalk.

(** ** Relabelled texts *)
Lemma spanClass_spec p s :
  s = (spanClass p s).1 ++ (spanClass p s).2
  ∧ Forall (λ c, p c = true) (spanClass p s).1
  ∧ match (spanClass p s).2 with c :: _ => p c = false | [] => True end.
Proof.
  induction s as [|c s IH]; [done|]. simpl.
  destruct (p c) eqn:Hc; [|done].
  destruct (spanClass p s) as [run rest]. simpl in *.
  destruct IH as (-> & H1 & H2). split_and!; [done| |done]. by constructor.
Qed.

Lemma spanClass_build p run rest :
  Forall (λ c, p c = true) run →
  match rest with c :: _ => p c = false | [] => True end →
  spanClass p (run ++ rest) = (run, rest).
Proof.
  intros Hrun Hrest. induction Hrun as [|c run Hc _ IH]; simpl.
  - destruct rest as [|c rest]; [done|]. simpl. by rewrite Hrest.
  - by rewrite Hc, IH.
Qed.

Lemma spanClass_app p x r :
  spanClass p (x ++ r)
  = match (spanClass p x).2 with
    | [] => (x ++ (spanClass p r).1, (spanClass p r).2)
    | c :: y => ((spanClass p x).1, c :: y ++ r)
    end.
Proof.
  induction x as [|c x IH]; simpl.
  - by destruct (spanClass p r).
  - destruct (p c) eqn:Hc; [|done]. rewrite IH.
    destruct (spanClass p x) as [run rest]. simpl.
    by destruct rest.
Qed.

Lemma spanClass_all p x :
  (spanClass p x).2 = [] → (spanClass p x).1 = x.
Proof.
  intros H. destruct (spanClass_spec p x) as (Hx & _).
  rewrite H, app_nil_r in Hx. done.
Qed.

Section TextFacts.
Variables lab sep : list N.

Lemma relabel_strict_piece x r m :
  matchOptionPrefix (x ++ r) = Some m →
  (relabelText lab sep x = None
   ∧ ∃ m', matchOptionPrefix r = Some m'
           ∧ m = mkOptionMatch (x ++ om_lead m') (om_letter m') (om_gap m')
                   (om_sep m') (om_rest m'))
  ∨ (∃ x', relabelText lab sep x = Some x'
           ∧ (x' ++ r = om_lead m ++ lab ++ sep ++ om_rest m
              ∨ x' ++ r = om_lead m ++ lab ++ om_gap m ++ om_sep m :: om_rest m)).
Proof.
  unfold relabelText, matchOptionPrefix, matchLoose.
  rewrite spanClass_app.
  destruct (spanClass isSpace x) as [lx rx] eqn:Hx. simpl.
  destruct rx as [|c y].
  - (* the piece is white space *)
    destruct (spanClass isSpace r) as [lr rr]. simpl.
    intros Hm. left. split; [done|].
    destruct rr as [|c r2]; [done|].
    destruct (isOptionLetter c); [|done].
    destruct (spanClass isSpace r2) as [gap r3].
    destruct r3 as [|p r4]; [done|].
    destruct (isSeparator p); [|done].
    injection Hm as <-. by eexists.
  - destruct (isOptionLetter c); [|done].
    rewrite spanClass_app.
    destruct (spanClass isSpace y) as [gy ry] eqn:Hy. simpl.
    pose proof (spanClass_spec isSpace y) as (Hyeq & _). rewrite Hy in Hyeq.
    simpl in Hyeq.
    destruct ry as [|p z].
    + (* the piece ends inside the gap *)
      pose proof (spanClass_spec isSpace r) as (Hreq & _).
      destruct (spanClass isSpace r) as [gr rr]. simpl in *.
      destruct rr as [|p r4]; [done|].
      destruct (isSeparator p); [|done].
      intros [= <-]. right. eexists. split; [done|]. right. simpl.
      rewrite app_nil_r in Hyeq. subst y r.
      by rewrite <-!app_assoc.
    + (* the piece holds the separator *)
      destruct (isSeparator p); [|done].
      intros [= <-]. right. eexists. split; [done|]. left. simpl.
      by rewrite <-!app_assoc.
Qed.

Lemma relabel_loose_piece x r lead letter gap :
  matchLoose (x ++ r) = Some (lead, letter, gap) →
  (relabelText lab sep x = None
   ∧ ∃ lead', matchLoose r = Some (lead', letter, gap) ∧ lead = x ++ lead')
  ∨ (∃ x', relabelText lab sep x = Some x' ∧ x' ++ r = lead ++ lab ++ gap).
Proof.
  unfold relabelText, matchOptionPrefix, matchLoose.
  rewrite spanClass_app.
  destruct (spanClass isSpace x) as [lx rx] eqn:Hx. simpl.
  destruct rx as [|c y].
  - destruct (spanClass isSpace r) as [lr rr]. simpl.
    intros Hm. left. split; [done|].
    destruct rr as [|c r2]; [done|].
    destruct (isOptionLetter c); [|done].
    destruct (spanClass isSpace r2) as [gap' r3].
    destruct r3 as [|p r4]; [|done].
    injection Hm as <- <- <-. by eexists.
  - destruct (isOptionLetter c); [|done].
    rewrite spanClass_app.
    destruct (spanClass isSpace y) as [gy ry] eqn:Hy. simpl.
    pose proof (spanClass_spec isSpace y) as (Hyeq & _). rewrite Hy in Hyeq.
    simpl in Hyeq.
    destruct ry as [|p z]; [|done].
    pose proof (spanClass_spec isSpace r) as (Hreq & _).
    destruct (spanClass isSpace r) as [gr rr]. simpl in *.
    destruct rr as [|p r4]; [|done].
    intros [= <- <- <-]. right. eexists. split; [done|].
    rewrite !app_nil_r in *. subst y r. by rewrite <-!app_assoc.
Qed.

Lemma firstMatch_strict text text' m :
  firstMatch (relabelText lab sep) text text' →
  matchOptionPrefix text = Some m →
  text' = om_lead m ++ lab ++ sep ++ om_rest m
  ∨ text' = om_lead m ++ lab ++ om_gap m ++ om_sep m :: om_rest m.
Proof.
  intros (before & f & f' & after & -> & -> & Hb & Hf).
  revert m. induction Hb as [|b bs Hbnone _ IH]; intros m Hm.
  - simpl in *.
    destruct (relabel_strict_piece _ _ _ Hm) as [[Hn _]|(x' & Hx' & Hr)];
      congruence.
  - cbn [concat] in *. rewrite <-app_assoc in Hm.
    destruct (relabel_strict_piece _ _ _ Hm)
      as [[_ (m' & Hm' & ->)]|(x' & Hx' & _)]; [|congruence].
    simpl. rewrite <-!app_assoc.
    destruct (IH m' Hm') as [-> | ->]; auto.
Qed.

Lemma firstMatch_loose text text' lead letter gap :
  firstMatch (relabelText lab sep) text text' →
  matchLoose text = Some (lead, letter, gap) →
  text' = lead ++ lab ++ gap.
Proof.
  intros (before & f & f' & after & -> & -> & Hb & Hf).
  revert lead. induction Hb as [|b bs Hbnone _ IH]; intros lead Hm.
  - simpl in *.
    destruct (relabel_loose_piece _ _ _ _ _ Hm) as [[Hn _]|(x' & Hx' & Hr)];
      congruence.
  - cbn [concat] in *. rewrite <-app_assoc in Hm.
    destruct (relabel_loose_piece _ _ _ _ _ Hm)
      as [[_ (lead' & Hm' & ->)]|(x' & Hx' & _)]; [|congruence].
    rewrite <-!app_assoc. by rewrite (IH lead' Hm').
Qed.

Lemma noMatch_strict text :
  noMatch (relabelText lab sep) text → matchOptionPrefix text = None.
Proof.
  intros (pieces & -> & Hp).
  induction Hp as [|b bs Hbnone _ IH]; [done|].
  cbn [concat]. destruct (matchOptionPrefix (b ++ concat bs)) as [m|] eqn:Hm;
    [|done].
  destruct (relabel_strict_piece _ _ _ Hm)
    as [[_ (m' & Hm' & _)]|(x' & Hx' & _)]; congruence.
Qed.

Lemma noMatch_loose text :
  noMatch (relabelText lab sep) text → matchLoose text = None.
Proof.
  intros (pieces & -> & Hp).
  induction Hp as [|b bs Hbnone _ IH]; [done|].
  cbn [concat].
  destruct (matchLoose (b ++ concat bs)) as [[[lead letter] gap]|] eqn:Hm;
    [|done].
  destruct (relabel_loose_piece _ _ _ _ _ Hm)
    as [[_ (m' & Hm' & _)]|(x' & Hx' & _)]; congruence.
Qed.

End TextFacts.

Ltac class_facts :=
  unfold isSpace, isLabelChar, isOptionLetter, isUpperAD, isLowerAD,
    isSeparator, ch in *;
  simpl N_of_ascii in *;
  repeat match goal with
  | H : _ = true |- _ =>
    rewrite ?orb_true_iff, ?andb_true_iff, ?N.leb_le, ?N.eqb_eq in H
  | |- _ = false => apply not_true_is_false; intros ?
  end;
  lia.

Lemma label_not_space c : isLabelChar c = true → isSpace c = false.
Proof. intros H. class_facts. Qed.
Lemma space_not_label c : isSpace c = true → isLabelChar c = false.
Proof. intros H. class_facts. Qed.
Lemma sep_not_space c : isSeparator c = true → isSpace c = false.
Proof. intros H. class_facts. Qed.
Lemma sep_not_label c : isSeparator c = true → isLabelChar c = false.
Proof. intros H. class_facts. Qed.
Lemma letter_is_label c : isOptionLetter c = true → isLabelChar c = true.
Proof.
  intros H. unfold isLabelChar, isOptionLetter, isUpperAD, isLowerAD in *.
  rewrite ?orb_true_iff, ?andb_true_iff, ?N.leb_le in *. lia.
Qed.
Lemma letter_not_space c : isOptionLetter c = true → isSpace c = false.
Proof. intros H. by apply label_not_space, letter_is_label. Qed.

Lemma matchOptionPrefix_spec text m :
  matchOptionPrefix text = Some m →
  text = om_lead m ++ om_letter m :: om_gap m ++ om_sep m :: om_rest m
  ∧ Forall (λ c, isSpace c = true) (om_lead m)
  ∧ isOptionLetter (om_letter m) = true
  ∧ Forall (λ c, isSpace c = true) (om_gap m)
  ∧ isSeparator (om_sep m) = true.
Proof.
  unfold matchOptionPrefix.
  pose proof (spanClass_spec isSpace text) as (Ht & Hl & _).
  destruct (spanClass isSpace text) as [lead r1]. simpl in *.
  destruct r1 as [|c r2]; [done|].
  destruct (isOptionLetter c) eqn:Hc; [|done].
  pose proof (spanClass_spec isSpace r2) as (Hr & Hg & _).
  destruct (spanClass isSpace r2) as [gap r3]. simpl in *.
  destruct r3 as [|p r4]; [done|].
  destruct (isSeparator p) eqn:Hp; [|done].
  intros [= <-]. simpl. by subst.
Qed.

Lemma matchOptionPrefix_build lead letter gap sep rest :
  Forall (λ c, isSpace c = true) lead →
  isOptionLetter letter = true →
  Forall (λ c, isSpace c = true) gap →
  isSeparator sep = true →
  matchOptionPrefix (lead ++ letter :: gap ++ sep :: rest)
  = Some (mkOptionMatch lead letter gap sep rest).
Proof.
  intros Hl Hc Hg Hs. unfold matchOptionPrefix.
  rewrite spanClass_build; [|done|by apply letter_not_space].
  rewrite Hc. rewrite spanClass_build; [|done|by apply sep_not_space].
  by rewrite Hs.
Qed.

Lemma matchLoose_spec text lead letter gap :
  matchLoose text = Some (lead, letter, gap) →
  text = lead ++ letter :: gap
  ∧ Forall (λ c, isSpace c = true) lead
  ∧ isOptionLetter letter = true
  ∧ Forall (λ c, isSpace c = true) gap.
Proof.
  unfold matchLoose.
  pose proof (spanClass_spec isSpace text) as (Ht & Hl & _).
  destruct (spanClass isSpace text) as [lead' r1]. simpl in *.
  destruct r1 as [|c r2]; [done|].
  destruct (isOptionLetter c) eqn:Hc; [|done].
  pose proof (spanClass_spec isSpace r2) as (Hr & Hg & _).
  destruct (spanClass isSpace r2) as [gap' r3]. simpl in *.
  destruct r3 as [|p r4]; [|done].
  intros [= <- <- <-]. rewrite app_nil_r in Hr. by subst.
Qed.

Lemma stripLabel_build lead lab gap sep rest :
  Forall (λ c, isSpace c = true) lead →
  Forall (λ c, isLabelChar c = true) lab → lab ≠ [] →
  Forall (λ c, isSpace c = true) gap →
  isSeparator sep = true →
  stripLabel (lead ++ lab ++ gap ++ sep :: rest) = rest.
Proof.
  intros Hl Hlab Hne Hg Hs. unfold stripLabel.
  rewrite spanClass_build; [|done|].
  2:{ destruct Hlab as [|c lab Hc _]; [done|]. by apply label_not_space. }
  cbn [snd]. rewrite spanClass_build; [|done|].
  2:{ destruct Hg as [|c gap Hc _]; simpl.
      - by apply sep_not_label.
      - by apply space_not_label. }
  cbn [snd]. rewrite spanClass_build; [|done|by apply sep_not_space].
  cbn [snd]. by rewrite Hs.
Qed.

Lemma stripLabel_build_loose lead lab gap :
  Forall (λ c, isSpace c = true) lead →
  Forall (λ c, isLabelChar c = true) lab → lab ≠ [] →
  Forall (λ c, isSpace c = true) gap →
  stripLabel (lead ++ lab ++ gap) = [].
Proof.
  intros Hl Hlab Hne Hg. unfold stripLabel.
  rewrite spanClass_build; [|done|].
  2:{ destruct Hlab as [|c lab Hc _]; [done|]. by apply label_not_space. }
  cbn [snd]. rewrite spanClass_build; [|done|].
  2:{ destruct Hg as [|c gap Hc _]; simpl; [done|]. by apply space_not_label. }
  cbn [snd]. rewrite <-(app_nil_r gap). by rewrite spanClass_build.
Qed.

Lemma stripLabel_strict text m :
  matchOptionPrefix text = Some m → stripLabel text = om_rest m.
Proof.
  intros (-> & Hl & Hc & Hg & Hs)%matchOptionPrefix_spec.
  apply (stripLabel_build _ [om_letter m]); try done.
  apply Forall_singleton. by apply letter_is_label.
Qed.

Lemma stripLabel_loose text lead letter gap :
  matchLoose text = Some (lead, letter, gap) → stripLabel text = [].
Proof.
  intros (-> & Hl & Hc & Hg)%matchLoose_spec.
  apply (stripLabel_build_loose _ [letter]); try done.
  apply Forall_singleton. by apply letter_is_label.
Qed.

Lemma positionsFrom_elem p idx nodes i :
  i ∈ positionsFrom p idx nodes
  ↔ idx ≤ i ∧ ∃ node, nodes !! (i - idx) = Some node ∧ p node = true.
Proof.
  revert idx. induction nodes as [|n nodes IH]; intros idx.
  - simpl. rewrite elem_of_nil. split; [done|]. by intros (_ & node & ? & _).
  - cbn [positionsFrom]. rewrite elem_of_app, IH. split.
    + intros [Hi|(Hle & node & Hnode & Hp)].
      * destruct (p n) eqn:Hn; [|by apply elem_of_nil in Hi].
        apply list_elem_of_singleton in Hi as ->. split; [done|].
        exists n. by rewrite Nat.sub_diag.
      * split; [lia|]. exists node. split; [|done].
        replace (i - idx) with (S (i - S idx)) by lia. done.
    + intros (Hle & node & Hnode & Hp).
      destruct (decide (i = idx)) as [->|Hne].
      * left. rewrite Nat.sub_diag in Hnode. simpl in Hnode.
        injection Hnode as ->. rewrite Hp. by apply list_elem_of_singleton.
      * right. split; [lia|]. exists node. split; [|done].
        replace (i - idx) with (S (i - S idx)) in Hnode by lia. done.
Qed.

Lemma positionsFrom_NoDup p idx nodes : NoDup (positionsFrom p idx nodes).
Proof.
  revert idx. induction nodes as [|n nodes IH]; intros idx; [constructor|].
  cbn [positionsFrom]. destruct (p n); [|apply IH].
  simpl. constructor; [|apply IH].
  rewrite positionsFrom_elem. lia.
Qed.

Lemma optionPositions_elem nodes i :
  i ∈ optionPositions nodes
  ↔ ∃ node, nodes !! i = Some node ∧ isOptionNode node = true.
Proof.
  unfold optionPositions. rewrite positionsFrom_elem, Nat.sub_0_r.
  split; [by intros [_ ?]|]. intros ?. split; [lia|done].
Qed.

Lemma positionsFrom_sub p q idx nodes :
  (∀ node, p node = true → q node = true) →
  ∀ i, i ∈ positionsFrom p idx nodes → i ∈ positionsFrom q idx nodes.
Proof.
  intros Hpq i. rewrite !positionsFrom_elem.
  intros (Hle & node & Hnode & Hp). split; [done|]. exists node. auto.
Qed.

Lemma testLoose_not_strict text :
  testLoose text = true → matchOptionPrefix text = None.
Proof.
  unfold testLoose. intros [[[lead letter] gap] Hm]%bool_decide_eq_true.
  revert Hm. unfold matchLoose, matchOptionPrefix.
  destruct (spanClass isSpace text) as [l r1].
  destruct r1 as [|c r2]; [done|]. destruct (isOptionLetter c); [|done].
  destruct (spanClass isSpace r2) as [g r3]. by destruct r3.
Qed.

Lemma isOptionNode_cases node :
  isOptionNode node = true →
  (∃ m, matchOptionPrefix (textContent node) = Some m)
  ∨ (matchOptionPrefix (textContent node) = None
     ∧ ∃ lead letter gap,
         matchLoose (textContent node) = Some (lead, letter, gap)).
Proof.
  unfold isOptionNode, testOptionPrefix.
  destruct (matchOptionPrefix (textContent node)) as [m|] eqn:Hm.
  - intros _. left. by exists m.
  - rewrite bool_decide_false by (by intros [? ?]). simpl.
    unfold testLoose. intros [[[lead letter] gap] Hl]%bool_decide_eq_true.
    right. split; [done|]. by exists lead, letter, gap.
Qed.

Lemma scanNodes_spec type nodes idx st :
  let scan := scanNodes type nodes idx st in
  optionIndices scan
  = optionIndices st ++ positionsFrom isOptionNode idx nodes
  ∧ (separatorOk (detectedSeparator st) → separatorOk (detectedSeparator scan))
  ∧ correctOptionIndexOriginal scan
    = if bool_decide (type = MCQ) then
        match last (positionsFrom
                (λ node, isOptionNode node && hasUnderline node) idx nodes) with
        | Some c => Some c
        | None => correctOptionIndexOriginal st
        end
      else correctOptionIndexOriginal st.
Proof.
  revert idx st. induction nodes as [|node nodes IH]; intros idx st.
  - simpl. rewrite app_nil_r. split_and!; [done..|]. by case_bool_decide.
  - cbn [scanNodes positionsFrom]. cbv zeta.
    destruct (IH (S idx) (scanNode type st idx node)) as (H1 & H2 & H3).
    rewrite H1, H3. clear IH H1 H3.
    assert (Hstep : scanNode type st idx node
      = if isOptionNode node then
          mkOptionScan (optionIndices st ++ [idx])
            (if bool_decide (type = MCQ) && hasUnderline node then Some idx
             else correctOptionIndexOriginal st)
            (match matchOptionPrefix (textContent node) with
             | Some m => [om_sep m]
             | None => detectedSeparator st
             end)
        else st).
    { unfold scanNode, isOptionNode, testOptionPrefix.
      destruct (matchOptionPrefix (textContent node)) as [m|] eqn:Hm.
      - by rewrite (bool_decide_true (is_Some (Some m))) by done.
      - rewrite (bool_decide_false (is_Some None)) by (by intros [? ?]).
        cbn [orb]. by destruct (testLoose (textContent node)). }
    rewrite Hstep in *. clear Hstep.
    destruct (isOptionNode node) eqn:Hopt; cbn [andb].
    + cbn [optionIndices correctOptionIndexOriginal detectedSeparator] in *.
      split_and!.
      * by rewrite <-app_assoc.
      * intros Hs. apply H2.
        destruct (matchOptionPrefix (textContent node)) as [m|] eqn:Hm;
          [|done].
        apply matchOptionPrefix_spec in Hm as (_ & _ & _ & _ & Hsep).
        by eexists.
      * case_bool_decide; [|done]. cbn [andb].
        destruct (hasUnderline node); cbn [app]; [|done].
        rewrite last_cons. by destruct (last _).
    + done.
Qed.

(** ** The new order of the options *)
Lemma placePinned_passed remaining i t c sd d :
  t < i → d + remaining ≤ length sd →
  placePinned remaining i t c sd d = take remaining (drop d sd).
Proof.
  revert i d. induction remaining as [|n IH]; intros i d Hi Hlen; [done|].
  cbn [placePinned]. rewrite bool_decide_false by lia.
  destruct (lookup_lt_is_Some_2 sd d) as [x Hx]; [lia|].
  rewrite Hx, (drop_S _ _ _ Hx). simpl. f_equal. apply IH; lia.
Qed.

Lemma placePinned_spec remaining i t c sd d :
  i ≤ t < i + remaining → d + remaining - 1 ≤ length sd →
  placePinned remaining i t c sd d
  = take (t - i) (drop d sd)
    ++ c :: take (remaining - 1 - (t - i)) (drop (d + (t - i)) sd).
Proof.
  revert i d. induction remaining as [|n IH]; intros i d Hi Hlen; [lia|].
  cbn [placePinned]. case_bool_decide as Hit.
  - subst i. rewrite Nat.sub_diag, Nat.add_0_r. simpl. f_equal.
    rewrite placePinned_passed by lia. f_equal. lia.
  - destruct (lookup_lt_is_Some_2 sd d) as [x Hx]; [lia|].
    rewrite Hx. simpl. rewrite IH by lia.
    replace (t - i) with (S (t - S i)) by lia.
    rewrite (drop_S _ _ _ Hx). simpl. f_equal. f_equal. f_equal.
    f_equal; [lia|]. f_equal. lia.
Qed.

Lemma placePinned_whole n t c sd :
  t < n → length sd = n - 1 →
  placePinned n 0 t c sd 0 = take t sd ++ c :: drop t sd.
Proof.
  intros Ht Hlen. rewrite placePinned_spec by lia.
  rewrite Nat.sub_0_r. simpl. f_equal. f_equal.
  apply take_ge. rewrite length_drop. lia.
Qed.

Lemma pin_Permutation (l : list nat) c :
  NoDup l → c ∈ l → c :: filter (λ n, n ≠ c) l ≡ₚ l.
Proof.
  intros Hnd Hc. rewrite <-(filter_app_complement (λ n, n = c) l) at 2.
  assert (filter (λ n, n = c) l = [c]) as ->; [|done].
  clear -Hnd Hc. induction Hnd as [|x l Hx Hnd IH].
  - by apply elem_of_nil in Hc.
  - rewrite filter_cons. destruct (decide (x = c)) as [->|Hne].
    + f_equal. clear -Hx. induction l as [|y l IH]; [done|].
      rewrite filter_cons, decide_False.
      * apply IH. intros ?. apply Hx. by right.
      * intros ->. apply Hx. by left.
    + apply IH. apply elem_of_cons in Hc as [->|Hc]; done.
Qed.

(** ** Relabelling in the store *)
Section StoreFacts.
Variable type : QuestionType.
Variable detected : list N.
Hypothesis detected_ok : separatorOk detected.

Lemma separatorToUse_ok : separatorOk (separatorToUse type detected).
Proof.
  unfold separatorToUse. case_bool_decide; [|done].
  exists (ch "."). by vm_compute.
Qed.

Lemma relabelShuffled_spec refs idx (store : list Node) :
  NoDup refs →
  (∀ r, r ∈ refs → ∃ n, store !! r = Some n ∧ simplePar n = true) →
  ∃ store',
    relabelShuffled type detected refs idx store = Some store'
    ∧ length store' = length store
    ∧ (∀ i, i ∉ refs → store' !! i = store !! i)
    ∧ ∀ pos r, refs !! pos = Some r →
        ∃ n n', store !! r = Some n
                ∧ replaceOptionLabel n (labelAt type (idx + pos))
                    (separatorToUse type detected)
                  = Some n'
                ∧ store' !! r = Some n'.
Proof.
  revert idx store. induction refs as [|r refs IH]; intros idx store Hnd Hsimple.
  { exists store. split_and!; [done..|]. by intros pos r ?. }
  apply NoDup_cons in Hnd as [Hr Hnd].
  destruct (Hsimple r) as (n & Hn & Hpar); [by left|].
  cbn [relabelShuffled]. fold (separatorToUse type detected). rewrite Hn.
  destruct (walk_par
              (relabelText (labelAt type idx) (separatorToUse type detected))
              eq_refl n Hpar) as (n' & Hn' & _).
  fold (replaceOptionLabel n (labelAt type idx)
          (separatorToUse type detected)) in Hn'.
  rewrite Hn'. cbn [mbind option_bind].
  destruct (IH (S idx) (<[r:=n']> store) Hnd) as (store' & -> & Hlen & Hout & Hin).
  { intros r' Hr'. destruct (Hsimple r') as (m & Hm & Hmpar); [by right|].
    exists m. split; [|done]. rewrite list_lookup_insert_ne; [done|].
    intros ->. done. }
  exists store'. split_and!.
  - done.
  - by rewrite Hlen, length_insert.
  - intros i Hi. rewrite not_elem_of_cons in Hi. destruct Hi as [Hir Hi].
    rewrite Hout by done. by rewrite list_lookup_insert_ne.
  - intros [|pos] r' Hpos; simpl in Hpos.
    + injection Hpos as <-. exists n, n'. rewrite Nat.add_0_r.
      split_and!; [done..|]. rewrite Hout by done.
      apply list_lookup_insert_eq. by eapply lookup_lt_Some.
    + destruct (Hin pos r' Hpos) as (m & m' & Hm & Hrep & Hst).
      exists m, m'. rewrite list_lookup_insert_ne in Hm.
      * replace (idx + S pos) with (S idx + pos) by lia. done.
      * intros ->. apply Hr. by eapply list_elem_of_lookup_2.
Qed.

End StoreFacts.

Lemma writeBack_spec (store : list Node) opts refs acc :
  NoDup opts → length opts = length refs →
  (∀ r, r ∈ refs → is_Some (store !! r)) →
  (∀ i, i ∈ opts → i < length acc) →
  length (writeBack store opts refs acc) = length acc
  ∧ (∀ i, i ∉ opts → writeBack store opts refs acc !! i = acc !! i)
  ∧ ∀ j i r, opts !! j = Some i → refs !! j = Some r →
      writeBack store opts refs acc !! i = store !! r.
Proof.
  revert refs acc. induction opts as [|o opts IH]; intros refs acc Hnd Hlen Hst Hacc.
  { destruct refs; [|done]. split_and!; [done..|]. by intros j i r ?. }
  destruct refs as [|ref refs]; [done|].
  apply NoDup_cons in Hnd as [Ho Hnd]. simpl in Hlen.
  destruct (Hst ref) as [n Hn]; [by left|].
  cbn [writeBack]. rewrite Hn.
  destruct (IH refs (<[o:=n]> acc) Hnd) as (H1 & H2 & H3).
  - lia.
  - intros r Hr. apply Hst. by right.
  - intros i Hi. rewrite length_insert. apply Hacc. by right.
  - split_and!.
    + by rewrite H1, length_insert.
    + intros i Hi. rewrite not_elem_of_cons in Hi. destruct Hi as [Hio Hi].
      rewrite H2 by done. by rewrite list_lookup_insert_ne.
    + intros [|j] i r Hi Hr; simpl in Hi, Hr.
      * injection Hi as <-. injection Hr as <-. rewrite H2 by done.
        rewrite Hn. apply list_lookup_insert_eq. apply Hacc. by left.
      * by eapply H3.
Qed.

Section ShuffleOptions.
Variable random : nat → nat.

Lemma chooseOrder_spec type target scan k :
  NoDup (optionIndices scan) →
  (∀ c, correctOptionIndexOriginal scan = Some c → c ∈ optionIndices scan) →
  0 < length (optionIndices scan) →
  ∃ shuffled k',
    chooseOrder random type target scan k = (shuffled, k')
    ∧ shuffled ≡ₚ optionIndices scan
    ∧ ∀ label c,
        type = MCQ → target = Some label → label ≠ [] →
        correctOptionIndexOriginal scan = Some c →
        targetMap label < length (optionIndices scan) →
        shuffled !! targetMap label = Some c.
Proof.
  intros Hnd Hc Hlen. unfold chooseOrder.
  assert (Hplain : ∃ shuffled k',
    shuffleArray random (optionIndices scan) k = (shuffled, k')
    ∧ shuffled ≡ₚ optionIndices scan).
  { pose proof (shuffleArray_Permutation random (optionIndices scan) k) as Hp.
    destruct (shuffleArray random (optionIndices scan) k) as [sh k'] eqn:Hs.
    by exists sh, k'. }
  destruct type;
    try (destruct Hplain as (sh & k' & -> & Hp); exists sh, k';
         split_and!; [done..|]; by intros ? ? [=]).
  destruct target as [[|ch0 label]|];
    try (destruct Hplain as (sh & k' & -> & Hp); exists sh, k';
         split_and!; [done..|]; by intros ? ? _ [= <-]).
  destruct (correctOptionIndexOriginal scan) as [c|] eqn:Hcorrect;
    try (destruct Hplain as (sh & k' & -> & Hp); exists sh, k';
         split_and!; [done..|]; by intros ? ? _ _ _ [=]).
  clear Hplain. specialize (Hc c eq_refl).
  pose proof (shuffleArray_Permutation random
    (filter (λ n, n ≠ c) (optionIndices scan)) k) as Hsd.
  destruct (shuffleArray random (filter (λ n, n ≠ c) (optionIndices scan)) k)
    as [sd k'] eqn:Hs.
  cbn [fst] in Hsd.
  assert (Hall : c :: sd ≡ₚ optionIndices scan).
  { rewrite Hsd. by apply pin_Permutation. }
  assert (Hsdlen : length sd = length (optionIndices scan) - 1).
  { rewrite <-Hall. simpl. lia. }
  set (n := length (optionIndices scan)) in *.
  set (t := if bool_decide (n ≤ targetMap (ch0 :: label))
            then targetMap (ch0 :: label) mod n
            else targetMap (ch0 :: label)).
  assert (Ht : t < n).
  { unfold t. case_bool_decide; [|lia]. apply Nat.mod_upper_bound. lia. }
  exists (take t sd ++ c :: drop t sd), k'.
  rewrite placePinned_whole by done. split_and!.
  - done.
  - rewrite <-Hall, <-Permutation_middle. by rewrite take_drop.
  - intros lab c' _ [= <-] _ [= <-] Hlt.
    assert (t = targetMap (ch0 :: label)) as <-.
    { unfold t. rewrite bool_decide_false; [done|lia]. }
    rewrite lookup_app_r by (rewrite length_take; lia).
    rewrite length_take. replace (t - t `min` length sd) with 0 by lia. done.
Qed.

Lemma scan_options type nodes :
  let scan := scanNodes type nodes 0 (mkOptionScan [] None (js ".")) in
  optionIndices scan = optionPositions nodes
  ∧ separatorOk (detectedSeparator scan)
  ∧ (∀ c, correctOptionIndexOriginal scan = Some c → c ∈ optionPositions nodes)
  ∧ (type = MCQ →
     correctOptionIndexOriginal scan = last (underlinedOptions nodes)).
Proof.
  destruct (scanNodes_spec type nodes 0 (mkOptionScan [] None (js ".")))
    as (H1 & H2 & H3).
  cbv zeta. rewrite H1, H3. cbn [optionIndices correctOptionIndexOriginal app].
  split_and!.
  - done.
  - apply H2. exists (ch "."). by vm_compute.
  - intros c. case_bool_decide; [|done].
    destruct (last _) as [c'|] eqn:Hlast; [|done]. intros [= <-].
    apply last_Some in Hlast as [l' Hl'].
    apply (positionsFrom_sub (λ node, isOptionNode node && hasUnderline node)).
    + by intros node [? _]%andb_true_iff.
    + rewrite Hl'. apply elem_of_app. right. by left.
  - intros ->. rewrite bool_decide_true by done.
    unfold underlinedOptions. by destruct (last _).
Qed.

Lemma shuffle_spec nodes type target k :
  type ≠ ESSAY →
  2 ≤ length (optionPositions nodes) →
  (∀ node, node ∈ nodes → isOptionNode node = true → simplePar node = true) →
  ∃ shuffled out k' detected,
    shuffleQuestionOptions random nodes type target k = Some (out, k')
    ∧ shuffled ≡ₚ optionPositions nodes
    ∧ separatorOk detected
    ∧ length out = length nodes
    ∧ (∀ i, i ∉ optionPositions nodes → out !! i = nodes !! i)
    ∧ (∀ j i r, optionPositions nodes !! j = Some i → shuffled !! j = Some r →
         ∃ n n', nodes !! r = Some n
                 ∧ replaceOptionLabel n (labelAt type j)
                     (separatorToUse type detected) = Some n'
                 ∧ out !! i = Some n')
    ∧ ∀ label c,
        type = MCQ → target = Some label → label ≠ [] →
        last (underlinedOptions nodes) = Some c →
        targetMap label < length (optionPositions nodes) →
        shuffled !! targetMap label = Some c.
Proof.
  intros Hessay Hlen Hsimple. unfold shuffleQuestionOptions.
  rewrite bool_decide_false by done.
  destruct (scan_options type nodes) as (Hopts & Hsep & Hcin & Hcorrect).
  cbv zeta in *.
  set (scan := scanNodes type nodes 0 (mkOptionScan [] None (js "."))) in *.
  rewrite Hopts. rewrite bool_decide_false by lia.
  destruct (chooseOrder_spec type target scan k)
    as (shuffled & k' & -> & Hperm & Hpin).
  { rewrite Hopts. apply positionsFrom_NoDup. }
  { intros c Hc. rewrite Hopts. by apply Hcin. }
  { rewrite Hopts. lia. }
  rewrite Hopts in Hperm.
  assert (Hnd : NoDup shuffled).
  { rewrite Hperm. apply positionsFrom_NoDup. }
  destruct (relabelShuffled_spec type (detectedSeparator scan) shuffled 0
    nodes Hnd) as (store & -> & Hslen & Hsout & Hsin).
  { intros r Hr. rewrite Hperm in Hr.
    apply optionPositions_elem in Hr as (n & Hn & Hopt).
    exists n. split; [done|]. apply Hsimple; [|done].
    by eapply list_elem_of_lookup_2. }
  cbn [mbind option_bind].
  destruct (writeBack_spec store (optionPositions nodes) shuffled store)
    as (Hwlen & Hwout & Hwin).
  { apply positionsFrom_NoDup. }
  { by rewrite Hperm. }
  { intros r Hr. rewrite Hperm in Hr.
    apply optionPositions_elem in Hr as (n & Hn & _).
    apply lookup_lt_is_Some. rewrite Hslen. by eapply lookup_lt_Some. }
  { intros i (n & Hn & _)%optionPositions_elem.
    rewrite Hslen. by eapply lookup_lt_Some. }
  exists shuffled, (writeBack store (optionPositions nodes) shuffled store),
    k', (detectedSeparator scan).
  split_and!.
  - done.
  - done.
  - done.
  - by rewrite Hwlen.
  - intros i Hi. rewrite Hwout by done. apply Hsout. by rewrite Hperm.
  - intros j i r Hi Hr.
    destruct (Hsin j r Hr) as (n & n' & Hn & Hrep & Hst).
    exists n, n'. split_and!; [done..|].
    by rewrite (Hwin j i r Hi Hr).
  - intros label c Hty Htarget Hne Hlast Hlt.
    apply (Hpin label c Hty Htarget Hne).
    + by rewrite Hcorrect.
    + by rewrite Hopts.
Qed.

End ShuffleOptions.

(** ** Shuffled questions *)
Lemma labelAt_letters type j :
  Forall (λ c, isLabelChar c = true) (labelAt type j) ∧ labelAt type j ≠ [].
Proof.
  unfold labelAt. destruct (bool_decide (type = MCQ));
    do 6 (destruct j as [|j]; [split; [by vm_compute; repeat constructor|done]|]);
    (split; [by vm_compute; repeat constructor|done]).
Qed.

Lemma relabelText_nil lab sep : relabelText lab sep [] = None.
Proof. reflexivity. Qed.

Lemma relabel_option node node' lab sep :
  simplePar node = true →
  separatorOk sep →
  Forall (λ c, isLabelChar c = true) lab → lab ≠ [] →
  replaceOptionLabel node lab sep = Some node' →
  hasUnderline node' = hasUnderline node
  ∧ (isOptionNode node = true →
     stripLabel (textContent node') = stripLabel (textContent node))
  ∧ (∀ m letter,
       matchOptionPrefix (textContent node) = Some m →
       lab = [letter] → isOptionLetter letter = true →
       ∃ m', matchOptionPrefix (textContent node') = Some m'
             ∧ om_letter m' = letter).
Proof.
  intros Hpar (s & -> & Hs) Hlab Hne Hrep.
  destruct (walk_par (relabelText lab [s]) (relabelText_nil lab [s]) node Hpar)
    as (n' & Hn' & _ & Hu & Htext).
  fold (replaceOptionLabel node lab [s]) in Hn'.
  rewrite Hrep in Hn'. injection Hn' as <-.
  split; [done|]. split.
  - intros [[m Hm]|[Hnone (lead & letter & gap & Hl)]]%isOptionNode_cases.
    + destruct Htext as [Hfirst|[_ Hno%noMatch_strict]]; [|congruence].
      rewrite (stripLabel_strict _ _ Hm).
      apply matchOptionPrefix_spec in Hm as Hspec.
      destruct Hspec as (_ & Hlead & _ & Hgap & Hsep).
      destruct (firstMatch_strict _ _ _ _ _ Hfirst Hm) as [-> | ->].
      * by apply (stripLabel_build _ lab []).
      * by apply stripLabel_build.
    + destruct Htext as [Hfirst|[_ Hno%noMatch_loose]]; [|congruence].
      rewrite (stripLabel_loose _ _ _ _ Hl).
      apply matchLoose_spec in Hl as Hspec.
      destruct Hspec as (_ & Hlead & _ & Hgap).
      rewrite (firstMatch_loose _ _ _ _ _ _ _ Hfirst Hl).
      by apply stripLabel_build_loose.
  - intros m letter Hm -> Hletter.
    destruct Htext as [Hfirst|[_ Hno%noMatch_strict]]; [|congruence].
    apply matchOptionPrefix_spec in Hm as Hspec.
    destruct Hspec as (_ & Hlead & _ & Hgap & Hsep).
    destruct (firstMatch_strict _ _ _ _ _ Hfirst Hm) as [-> | ->].
    + eexists. split; [by apply (matchOptionPrefix_build _ letter [])|done].
    + eexists. split; [by apply matchOptionPrefix_build|done].
Qed.

Lemma find_unique {A} (P : A → bool) (l : list A) i x :
  l !! i = Some x → P x = true →
  (∀ q y, l !! q = Some y → P y = true → q = i) →
  find P l = Some x.
Proof.
  revert i. induction l as [|y l IH]; intros i Hi Hx Huniq; [done|].
  simpl. destruct (P y) eqn:Hy.
  - specialize (Huniq 0 y eq_refl Hy). subst i. by injection Hi as ->.
  - destruct i as [|i]; [simpl in Hi; congruence|].
    apply (IH i); [done..|]. intros q z Hq Hz.
    specialize (Huniq (S q) z Hq Hz). lia.
Qed.



Section Claims.
Variable random : nat → nat.



End Claims.



(** * Properties of the further parts *)

(** ** The Fisher-Yates shuffle *)

(** X1. [shuffleArray] returns a permutation of its argument, of the same
    length, and draws one random number for each position but the first. *)
Theorem shuffleArray_permutes {A} (random : nat → nat) (array : list A)
    (k : nat) :
  (shuffleArray random array k).1 ≡ₚ array
  ∧ length (shuffleArray random array k).1 = length array
  ∧ (shuffleArray random array k).2 = k + (length array - 1).
Proof.
  split_and!.
  - apply shuffleArray_Permutation.
  - apply shuffleArray_length.
  - apply shuffleLoop_calls.
Qed.

(** ** The answer of a short-answer question *)

Lemma trimStart_spec s :
  ∃ ws, s = ws ++ trimStart s
        ∧ Forall (λ c, isSpace c = true) ws
        ∧ ∀ c, head (trimStart s) = Some c → isSpace c = false.
Proof.
  unfold trimStart. destruct (spanClass_spec isSpace s) as (Hs & Hws & Hrest).
  exists (spanClass isSpace s).1. split_and!; [done..|].
  intros c Hc. destruct (spanClass isSpace s).2; [done|].
  by injection Hc as <-.
Qed.

Lemma trimEnd_spec s :
  ∃ ws, s = trimEnd s ++ ws
        ∧ Forall (λ c, isSpace c = true) ws
        ∧ ∀ c, last (trimEnd s) = Some c → isSpace c = false.
Proof.
  unfold trimEnd. destruct (trimStart_spec (reverse s)) as (ws & Hs & Hws & Hh).
  exists (reverse ws). split_and!.
  - rewrite <-reverse_app, <-Hs. by rewrite reverse_involutive.
  - by apply Forall_reverse.
  - intros c. rewrite last_reverse. apply Hh.
Qed.

Lemma trimEnd_head s c :
  head (trimEnd s) = Some c → head s = Some c.
Proof.
  destruct (trimEnd_spec s) as (ws & Hs & _). intros Hc.
  rewrite Hs. by destruct (trimEnd s).
Qed.

Lemma trim_spec s :
  (∃ before after, s = before ++ trim s ++ after)
  ∧ (∀ c, head (trim s) = Some c → isSpace c = false)
  ∧ (∀ c, last (trim s) = Some c → isSpace c = false).
Proof.
  unfold trim.
  destruct (trimStart_spec s) as (ws & Hs & _ & Hh).
  destruct (trimEnd_spec (trimStart s)) as (ws' & Hs' & _ & Hl).
  split_and!.
  - exists ws, ws'. by rewrite <-Hs', <-Hs.
  - intros c Hc. by apply Hh, trimEnd_head.
  - done.
Qed.

Lemma ciPrefix_suffix w s r : ciPrefix w s = Some r → ∃ p, s = p ++ r.
Proof.
  revert s. induction w as [|l w IH]; intros s; simpl.
  - intros [= ->]. by exists [].
  - destruct s as [|c s]; [done|]. destruct (ciChar l c); [|done].
    intros [p ->]%IH. by exists (c :: p).
Qed.

Lemma searchFrom_Some {A} (here : list N → option A) s a :
  searchFrom here s = Some a →
  ∃ before s', s = before ++ s' ∧ here s' = Some a.
Proof.
  induction s as [|c s IH]; simpl.
  - destruct (here []) eqn:Hh; [|done]. intros [= ->]. by exists [], [].
  - destruct (here (c :: s)) eqn:Hh.
    + intros [= ->]. by exists [], (c :: s).
    + intros (before & s' & -> & Hs')%IH. by exists (c :: before), s'.
Qed.

Lemma searchFrom_None {A} (here : list N → option A) before s' :
  searchFrom here (before ++ s') = None → here s' = None.
Proof.
  induction before as [|c before IH]; simpl.
  - destruct s' as [|c s']; simpl; by destruct (here _).
  - destruct (here (c :: before ++ s')); [done|]. apply IH.
Qed.

Lemma matchKeyHere_spec s value :
  matchKeyHere s = Some value →
  (∃ before after, s = before ++ value ++ after) ∧ ch ">" ∉ value.
Proof.
  unfold matchKeyHere.
  destruct (ciPrefix (ci "<Key") s) as [r|] eqn:Hr; simpl; [|done].
  apply ciPrefix_suffix in Hr as [p ->].
  destruct (spanClass_spec isSpace r) as (Hr & _).
  destruct (spanClass isSpace r) as [sp1 r1]. simpl in *.
  destruct r1 as [|c r1]; [done|].
  destruct (c =? ch "=")%N; [|done].
  destruct (spanClass_spec isSpace r1) as (Hr1 & _).
  destruct (spanClass isSpace r1) as [sp2 r2]. simpl in *.
  destruct (spanClass_spec (λ c, negb (c =? ch ">")%N) r2) as (Hr2 & Hv & _).
  destruct (spanClass _ r2) as [v r3]. simpl in *.
  destruct r3 as [|c3 r3]; [done|]. intros [= ->]. split.
  - exists (p ++ sp1 ++ c :: sp2), (c3 :: r3).
    subst r r1 r2. rewrite <-?app_assoc. simpl. by rewrite <-?app_assoc.
  - intros Hin. rewrite Forall_forall in Hv. specialize (Hv _ Hin).
    by rewrite N.eqb_refl in Hv.
Qed.

(** X2. The answer of a SHORT_ANSWER question is read from the original text
    alone: it is empty when the text holds no key tag, and otherwise it is a
    piece of the text that holds no [>] and neither starts nor ends with
    white space. *)
Theorem short_answer_from_key (nodes : list Node) (originalText : list N) :
  let answer := getAnswerFromNodes nodes SHORT_ANSWER originalText in
  (testKey originalText = false → answer = [])
  ∧ (∃ before after, originalText = before ++ answer ++ after)
  ∧ (ch ">" ∉ answer)
  ∧ (∀ c, head answer = Some c → isSpace c = false)
  ∧ (∀ c, last answer = Some c → isSpace c = false)
  ∧ answer = getAnswerFromNodes [] SHORT_ANSWER originalText.
Proof.
  simpl. unfold testKey.
  destruct (matchKey originalText) as [value|] eqn:Hm.
  - apply searchFrom_Some in Hm as (b & s' & -> & Hv).
    apply matchKeyHere_spec in Hv as [(b' & a' & ->) Hgt].
    destruct (trim_spec value) as ((b'' & a'' & Hval) & Hh & Hl).
    split_and!; try done.
    + exists (b ++ b' ++ b''), (a'' ++ a').
      rewrite Hval at 1. by rewrite <-!app_assoc.
    + intros Hin. apply Hgt. rewrite Hval.
      rewrite !elem_of_app. auto.
  - split_and!; try done.
    + by exists [], originalText.
    + apply not_elem_of_nil.
Qed.

(** ** The segments of a document *)

Section SegmentFacts.

Variable parseFromString : list N → Node.
Variable serializeToString : Node → list N.
Variable randomUUID : nat → list N.

Lemma finishCurrentSegment_invariant seen st :
  segmenterInvariant serializeToString randomUUID seen st →
  segmenterInvariant serializeToString randomUUID seen
    (finishCurrentSegment serializeToString randomUUID st)
  ∧ currentSegment (finishCurrentSegment serializeToString randomUUID st) = None
  ∧ currentSectionLabel (finishCurrentSegment serializeToString randomUUID st)
    = currentSectionLabel st.
Proof.
  intros (Hnum & Hq & Hseg & Hnodes & Hacc). unfold finishCurrentSegment.
  destruct (currentSegment st) as [seg|] eqn:Hcur; cycle 1.
  { split; [|done]. unfold segmenterInvariant. rewrite Hcur.
    split; [done|]. split; [done|]. split; [done|]. by split. }
  assert (map serializeToString (accumulatedNodes st) ≠ []) as Hne.
  { destruct (accumulatedNodes st); [|done].
    destruct Hacc as [Hacc _]. by specialize (Hacc eq_refl). }
  destruct (DocSegment.type seg); simpl; (split; [|done]).
  - split; [done|]. split.
    { simpl. rewrite omap_app. simpl. by rewrite app_nil_r. }
    split.
    { simpl. apply Forall_app. split; [done|].
      constructor; [|done]. simpl. split; [|done]. split; [done|].
      by intros [? ?]. }
    split; [|done].
    simpl. rewrite map_app, concat_app. simpl. by rewrite !app_nil_r.
  - split.
    { simpl. intros i q. rewrite lookup_app_Some. intros [Hi|[Hlen Hi]].
      { by apply Hnum. }
      apply list_lookup_singleton_Some in Hi as [Hi <-]. simpl.
      split; [|f_equal]; lia. }
    split.
    { simpl. rewrite omap_app. simpl. by rewrite Hq. }
    split.
    { simpl. apply Forall_app. split; [done|].
      constructor; [|done]. simpl. split; [|done]. split; [by eexists|done]. }
    split; [|done].
    simpl. rewrite map_app, concat_app. simpl. by rewrite !app_nil_r.
Qed.

Lemma segmentNode_invariant seen st node :
  segmenterInvariant serializeToString randomUUID seen st →
  segmenterInvariant serializeToString randomUUID (seen ++ [node])
    (segmentNode serializeToString randomUUID st node).
Proof.
  intros Hinv. unfold segmentNode.
  destruct (finishCurrentSegment_invariant seen st Hinv)
    as ((Hnum & Hq & Hseg & Hnodes & Hacc) & Hnone & _).
  assert (accumulatedNodes
            (finishCurrentSegment serializeToString randomUUID st) = [])
    as Hnil by (by apply Hacc).
  rewrite Hnil, app_nil_r in Hnodes.
  destruct (named "w:p" node && isSectionHeader (textContent node)).
  { split; [done|]. split; [done|]. split; [done|]. simpl. split.
    - rewrite Hnil. simpl. by rewrite map_app, Hnodes.
    - split; [by intros [_ [=]]%app_nil|done]. }
  destruct (named "w:p" node && isQuestionStart (textContent node)).
  { split; [done|]. split; [done|]. split; [done|]. simpl. split.
    - rewrite Hnil. simpl. by rewrite map_app, Hnodes.
    - split; [by intros [_ [=]]%app_nil|done]. }
  destruct Hinv as (Hnum' & Hq' & Hseg' & Hnodes' & Hacc').
  split; [done|]. split; [done|]. split; [done|]. simpl. split.
  - by rewrite !map_app, app_assoc, Hnodes'.
  - split; [by intros [_ [=]]%app_nil|done].
Qed.

Lemma segment_invariant children seen st :
  segmenterInvariant serializeToString randomUUID seen st →
  segmenterInvariant serializeToString randomUUID (seen ++ children)
    (foldl (segmentNode serializeToString randomUUID) st children).
Proof.
  revert seen st. induction children as [|c cs IH]; intros seen st H; simpl.
  - by rewrite app_nil_r.
  - replace (seen ++ c :: cs) with ((seen ++ [c]) ++ cs)
      by (by rewrite <-app_assoc).
    by apply IH, segmentNode_invariant.
Qed.

Lemma takeFirst_spec p l x r :
  takeFirst p l = Some (x, r) →
  ∃ before after,
    l = before ++ x :: after ∧ r = before ++ after ∧ p x = true
    ∧ Forall (λ y, p y = false) before.
Proof.
  revert r. induction l as [|y l IH]; intros r; simpl; [done|].
  destruct (p y) eqn:Hy.
  - intros [= -> <-]. by exists [], l.
  - destruct (takeFirst p l) as [[z r']|]; simpl; [|done].
    intros [= -> <-].
    destruct (IH r' eq_refl) as (b & a & -> & -> & Hx & Hb).
    exists (y :: b), a. split_and!; try done. by constructor.
Qed.

Lemma takeFirst_None p l :
  takeFirst p l = None → Forall (λ y, p y = false) l.
Proof.
  induction l as [|y l IH]; simpl; [done|].
  destruct (p y) eqn:Hy; [done|].
  destruct (takeFirst p l) as [[z r']|]; simpl; [done|].
  intros _. constructor; [done|]. by apply IH.
Qed.

(** X3. [processDocxFile] takes the last [w:sectPr] element out of the
    children of the body and loses no other node: the markup of the
    segments, in order, is the markup of the remaining children of the body,
    in document order, and no segment is empty. *)
Theorem processDocxFile_keeps_nodes (zip : gmap string (list N))
    (pd : ProcessedDoc.t) :
  processDocxFile parseFromString serializeToString randomUUID zip = Ok pd →
  ∃ xmlString body before after,
    zip !! "word/document.xml"%string = Some xmlString
    ∧ ProcessedDoc.originalXml pd = xmlString
    ∧ head (getElementsByTagName "w:body" (parseFromString xmlString))
      = Some body
    ∧ concat (map DocSegment.xmlContent (ProcessedDoc.segments pd))
      = map serializeToString (before ++ after)
    ∧ (∀ seg, seg ∈ ProcessedDoc.segments pd → DocSegment.xmlContent seg ≠ [])
    ∧ Forall (λ n, isElement n && named "w:sectPr" n = false) after
    ∧ match ProcessedDoc.finalSectPr pd with
      | Some sectPrXml =>
        ∃ sectPr,
          childNodes body = before ++ sectPr :: after
          ∧ isElement sectPr && named "w:sectPr" sectPr = true
          ∧ sectPrXml = serializeToString sectPr
      | None => before = [] ∧ childNodes body = after
      end.
Proof.
  unfold processDocxFile.
  destruct (zip !! "word/document.xml"%string) as [xml|] eqn:Hzip; [|done].
  destruct (head (getElementsByTagName "w:body" (parseFromString xml)))
    as [body|] eqn:Hbody; [|done].
  destruct (extractSectPr (childNodes body)) as [sectPr children] eqn:Hex.
  intros [= <-]. simpl.
  assert (segmenterInvariant serializeToString randomUUID []
            (mkSegmenter [] [] None [] [])) as H0.
  { by split_and!. }
  apply (segment_invariant children) in H0. simpl in H0.
  apply finishCurrentSegment_invariant in H0
    as ((_ & _ & Hseg & Hnodes & Hacc) & Hnone & _).
  apply Hacc in Hnone. rewrite Hnone, app_nil_r in Hnodes.
  assert (∀ seg, seg ∈ segments
            (finishCurrentSegment serializeToString randomUUID
               (foldl (segmentNode serializeToString randomUUID)
                  (mkSegmenter [] [] None [] []) children)) →
            DocSegment.xmlContent seg ≠ []) as Hfull.
  { intros seg Hin. rewrite Forall_forall in Hseg. by apply Hseg. }
  unfold extractSectPr in Hex.
  destruct (takeFirst _ (reverse (childNodes body))) as [[s r]|] eqn:Htake.
  - injection Hex as <- <-.
    apply takeFirst_spec in Htake as (b & a & Hrev & -> & Hs & Hb).
    exists xml, body, (reverse a), (reverse b).
    rewrite <-reverse_app.
    split; [done|]. split; [done|]. split; [done|]. split; [done|].
    split; [done|]. split; [by apply Forall_reverse|].
    exists s. split; [|done].
    rewrite <-(reverse_involutive (childNodes body)), Hrev.
    by rewrite reverse_app, reverse_cons, <-app_assoc.
  - injection Hex as <- <-. apply takeFirst_None in Htake.
    exists xml, body, [], (childNodes body).
    split; [done|]. split; [done|]. split; [done|]. split; [done|].
    split; [done|]. split; [|done].
    apply Forall_reverse in Htake. by rewrite reverse_involutive in Htake.
Qed.

(** X4. The questions of [processDocxFile] are numbered from 0 in document
    order, the identifier of the [i]-th question is the [i]-th identifier
    drawn, and the questions are exactly the question data of the segments of
    type question, in order; a static segment carries no question. *)
Theorem processDocxFile_questions (zip : gmap string (list N))
    (pd : ProcessedDoc.t) :
  processDocxFile parseFromString serializeToString randomUUID zip = Ok pd →
  (∀ i q, ProcessedDoc.questions pd !! i = Some q →
     QuestionBlock.originalIndex q = i ∧ QuestionBlock.id q = randomUUID i)
  ∧ omap DocSegment.questionData (ProcessedDoc.segments pd)
    = ProcessedDoc.questions pd
  ∧ (∀ seg, seg ∈ ProcessedDoc.segments pd →
       DocSegment.type seg = question ↔ is_Some (DocSegment.questionData seg)).
Proof.
  unfold processDocxFile.
  destruct (zip !! "word/document.xml"%string) as [xml|]; [|done].
  destruct (head (getElementsByTagName "w:body" (parseFromString xml)))
    as [body|]; [|done].
  destruct (extractSectPr (childNodes body)) as [sectPr children].
  intros [= <-]. simpl.
  assert (segmenterInvariant serializeToString randomUUID []
            (mkSegmenter [] [] None [] [])) as H0.
  { by split_and!. }
  apply (segment_invariant children) in H0. simpl in H0.
  apply finishCurrentSegment_invariant in H0
    as ((Hnum & Hq & Hseg & _) & _).
  split; [done|]. split; [done|].
  intros seg Hin. rewrite Forall_forall in Hseg. by apply Hseg.
Qed.

End SegmentFacts.

(** ** The validity of the questions of a document *)

Lemma detectType_cases text :
  (testKey text = true ∧ detectType text = SHORT_ANSWER)
  ∨ (testKey text = false
     ∧ (detectType text = MCQ ∨ detectType text = TRUE_FALSE
        ∨ detectType text = UNKNOWN)).
Proof.
  unfold detectType. destruct (testKey text); [by left|right].
  split; [done|]. repeat case_match; auto.
Qed.

Lemma buildQuestion_validity randomUUID text xml nodes sectionLabel index :
  let q := buildQuestion randomUUID text xml nodes sectionLabel index in
  QuestionBlock.hasKeyTag q = testKey (QuestionBlock.textContent q)
  ∧ (QuestionBlock.type q = SHORT_ANSWER ↔ QuestionBlock.hasKeyTag q = true)
  ∧ (QuestionBlock.type q = ESSAY →
     isEssaySectionLabel (QuestionBlock.section q) = true)
  ∧ (QuestionBlock.type q = UNKNOWN →
     isEssaySectionLabel (QuestionBlock.section q) = false)
  ∧ QuestionBlock.isValid q
    = match QuestionBlock.type q with
      | MCQ | TRUE_FALSE => QuestionBlock.hasUnderline q
      | SHORT_ANSWER | ESSAY => true
      | UNKNOWN => false
      end.
Proof.
  unfold buildQuestion. cbn [QuestionBlock.hasKeyTag QuestionBlock.textContent
    QuestionBlock.type QuestionBlock.section QuestionBlock.isValid
    QuestionBlock.hasUnderline].
  destruct (detectType_cases text) as [[Hk ->]|[Hk Ht]]; rewrite Hk.
  - destruct (isEssaySectionLabel sectionLabel); simpl; by split_and!.
  - destruct Ht as [->|[->| ->]];
      destruct (isEssaySectionLabel sectionLabel); simpl;
      try destruct (existsb hasUnderline _); split_and!; try done; by split.
Qed.

Lemma processDocxFile_built parseFromString serializeToString randomUUID
    (zip : gmap string (list N)) (pd : ProcessedDoc.t) :
  processDocxFile parseFromString serializeToString randomUUID zip = Ok pd →
  ∀ q, q ∈ ProcessedDoc.questions pd →
    ∃ nodes, builtFrom serializeToString randomUUID nodes q.
Proof.
  unfold processDocxFile. intros Hpd.
  destruct (zip !! _) as [xml|]; [|done].
  destruct (head _) as [body|]; [|done].
  destruct (extractSectPr _) as [sectPr children].
  injection Hpd as <-. simpl.
  pose proof (finishCurrentSegment_built serializeToString randomUUID _
    (segment_all_built serializeToString randomUUID children
       (mkSegmenter [] [] None [] []) (Forall_nil_2 _))) as Hall.
  by rewrite Forall_forall in Hall.
Qed.


(** ** The order of the issues *)

Lemma filter_none {A} (P : A → Prop) `{!∀ x, Decision (P x)} (l : list A) :
  Forall (λ x, ¬ P x) l → filter P l = [].
Proof.
  induction 1 as [|x l Hx _ IH]; [done|]. by rewrite filter_cons_False.
Qed.

Lemma elem_of_getValidationIssues issue questions :
  issue ∈ getValidationIssues questions
  ↔ ∃ index q, questions !! index = Some q ∧ issue ∈ questionIssues q index.
Proof.
  unfold getValidationIssues. rewrite elem_of_concat. split.
  - intros (l & Hl & Hi).
    apply elem_of_lookup_imap in Hl as (index & q & -> & Hq). eauto.
  - intros (index & q & Hq & Hi). exists (questionIssues q index).
    split; [|done]. by apply (elem_of_lookup_imap_2 (λ i q, questionIssues q i)).
Qed.

Lemma questionIssues_sorted q index :
  StronglySorted le
    (map ValidationIssue.questionIndex (questionIssues q index)).
Proof.
  assert (∀ l, Forall (λ i, ValidationIssue.questionIndex i = index) l →
            StronglySorted le (map ValidationIssue.questionIndex l)) as H.
  { induction 1 as [|i l Hi Hl IH]; simpl; constructor; [done|].
    rewrite Hi. clear -Hl. induction Hl; simpl; constructor; [lia|done]. }
  apply H, Forall_forall. intros i Hi.
  by destruct (questionIssues_elem _ _ _ Hi) as (-> & _).
Qed.

Lemma issues_sorted_from (off : nat) (questions : list QuestionBlock.t) :
  StronglySorted le
    (map ValidationIssue.questionIndex
       (concat (imap (λ index q, questionIssues q (off + index)) questions)))
  ∧ Forall (λ i, off ≤ ValidationIssue.questionIndex i)
      (concat (imap (λ index q, questionIssues q (off + index)) questions)).
Proof.
  revert off. induction questions as [|q qs IH]; intros off.
  { split; constructor. }
  rewrite imap_cons. cbn [concat].
  assert (imap ((λ index q0, questionIssues q0 (off + index)) ∘ S) qs
          = imap (λ index q0, questionIssues q0 (S off + index)) qs) as ->.
  { apply imap_ext. intros i x _. simpl. f_equal. lia. }
  destruct (IH (S off)) as [Hs Hb]. split.
  - rewrite map_app. apply StronglySorted_app_2.
    + intros x1 x2 Hx1 Hx2.
      apply list_elem_of_In, in_map_iff in Hx1 as (i1 & <- & Hi1).
      apply list_elem_of_In, in_map_iff in Hx2 as (i2 & <- & Hi2).
      apply list_elem_of_In in Hi1, Hi2.
      destruct (questionIssues_elem _ _ _ Hi1) as (-> & _).
      rewrite Forall_forall in Hb. specialize (Hb _ Hi2). lia.
    + apply questionIssues_sorted.
    + done.
  - apply Forall_app. split.
    + apply Forall_forall. intros i Hi.
      destruct (questionIssues_elem _ _ _ Hi) as (-> & _). lia.
    + eapply Forall_impl; [exact Hb|]. simpl. intros. lia.
Qed.

(** X6. The issues of [getValidationIssues] come in the order of the
    questions: their question indices never decrease, and a question has at
    most two issues. *)
Theorem getValidationIssues_in_order (questions : list QuestionBlock.t) :
  StronglySorted le
    (map ValidationIssue.questionIndex (getValidationIssues questions))
  ∧ ∀ index,
      length (filter (λ i, ValidationIssue.questionIndex i = index)
                (getValidationIssues questions)) ≤ 2.
Proof.
  split; [apply (issues_sorted_from 0)|].
  intros index. unfold getValidationIssues.
  assert (∀ off,
    length (filter (λ i, ValidationIssue.questionIndex i = index)
      (concat (imap (λ i q, questionIssues q (off + i)) questions))) ≤ 2) as H.
  { induction questions as [|q qs IH]; intros off; [simpl; lia|].
    rewrite imap_cons. cbn [concat]. rewrite filter_app, length_app.
    assert (imap ((λ i q0, questionIssues q0 (off + i)) ∘ S) qs
            = imap (λ i q0, questionIssues q0 (S off + i)) qs) as ->.
    { apply imap_ext. intros i x _. simpl. f_equal. lia. }
    destruct (decide (off + 0 = index)) as [<-|Hne].
    - assert (filter (λ i, ValidationIssue.questionIndex i = off + 0)
                (concat (imap (λ i q0, questionIssues q0 (S off + i)) qs))
              = []) as ->.
      { apply filter_none.
        destruct (issues_sorted_from (S off) qs) as [_ Hb].
        eapply Forall_impl; [exact Hb|]. simpl. intros. lia. }
      pose proof (length_filter
        (λ i, ValidationIssue.questionIndex i = off + 0)
        (questionIssues q (off + 0))) as Hle.
      pose proof (questionIssues_length q (off + 0)) as Hlen.
      assert (failingRules q ≤ 2).
      { unfold failingRules. repeat case_match; simpl; lia. }
      simpl. lia.
    - assert (filter (λ i, ValidationIssue.questionIndex i = index)
                (questionIssues q (off + 0)) = []) as ->.
      { apply filter_none, Forall_forall. intros i Hi.
        by destruct (questionIssues_elem _ _ _ Hi) as (-> & _). }
      apply IH. }
  apply (H 0).
Qed.

Lemma questionIssues_invalid (q : QuestionBlock.t) i :
  QuestionBlock.isValid q
  = match QuestionBlock.type q with
    | MCQ | TRUE_FALSE => QuestionBlock.hasUnderline q
    | SHORT_ANSWER | ESSAY => true
    | UNKNOWN => false
    end →
  QuestionBlock.isValid q = false → questionIssues q i ≠ [].
Proof.
  intros -> Hv. unfold questionIssues.
  destruct (QuestionBlock.type q); try done; rewrite Hv; simpl; [|done].
  by intros [_ [=]]%app_nil.
Qed.

(** X7. Every question that [processDocxFile] marks invalid is reported by
    [getValidationIssues], with its index and identifier; and no issue is ever
    raised for a SHORT_ANSWER question of [processDocxFile], since such a
    question always holds its key tag. *)
Theorem invalid_questions_are_reported parseFromString serializeToString
    randomUUID (zip : gmap string (list N)) (pd : ProcessedDoc.t) :
  processDocxFile parseFromString serializeToString randomUUID zip = Ok pd →
  (∀ index q,
     ProcessedDoc.questions pd !! index = Some q →
     QuestionBlock.isValid q = false →
     ∃ issue,
       issue ∈ getValidationIssues (ProcessedDoc.questions pd)
       ∧ ValidationIssue.questionIndex issue = index
       ∧ ValidationIssue.questionId issue = QuestionBlock.id q)
  ∧ (∀ issue,
       issue ∈ getValidationIssues (ProcessedDoc.questions pd) →
       ValidationIssue.questionType issue ≠ SHORT_ANSWER).
Proof.
  intros Hpd. split.
  - intros index q Hq Hv.
    destruct (processDocxFile_built _ _ _ _ _ Hpd q)
      as (nodes & text & sectionLabel & idx & ->);
      [by eapply list_elem_of_lookup_2|].
    destruct (buildQuestion_validity randomUUID text
      (map serializeToString nodes) nodes sectionLabel idx)
      as (_ & _ & _ & _ & Hrule).
    pose proof (questionIssues_invalid _ index Hrule Hv) as Hne.
    destruct (questionIssues _ index) as [|issue l] eqn:Hissues; [done|].
    exists issue.
    assert (issue ∈ questionIssues
              (buildQuestion randomUUID text (map serializeToString nodes)
                 nodes sectionLabel idx) index) as Hin.
    { rewrite Hissues. apply list_elem_of_here. }
    destruct (questionIssues_elem _ _ _ Hin) as (Hi & _ & Hid & _).
    split_and!; [|done..].
    apply elem_of_getValidationIssues. eauto.
  - intros issue (index & q & Hq & Hin)%elem_of_getValidationIssues.
    destruct (questionIssues_elem _ _ _ Hin) as (_ & -> & _).
    intros Hsa.
    destruct (processDocxFile_built _ _ _ _ _ Hpd q)
      as (nodes & text & sectionLabel & idx & ->);
      [by eapply list_elem_of_lookup_2|].
    destruct (buildQuestion_validity randomUUID text
      (map serializeToString nodes) nodes sectionLabel idx) as (_ & Hkey & _).
    apply Hkey in Hsa as Hk. unfold questionIssues in Hin.
    rewrite Hsa, Hk in Hin. by apply elem_of_nil in Hin.
Qed.

(** ** The key tag that a fix appends *)

Lemma ciPrefix_app w u s r :
  ciPrefix w (u ++ s) = Some r → length w ≤ length u → is_Some (ciPrefix w u).
Proof.
  revert u. induction w as [|l w IH]; intros u; simpl; [by eexists|].
  destruct u as [|c u]; simpl; [lia|].
  destruct (ciChar l c); [|done]. intros H Hlen. apply IH; [done|lia].
Qed.

Lemma keyOpening_before_space u s :
  ciPrefix (ci "<Key") u = None →
  ciPrefix (ci "<Key") (u ++ 32%N :: s) = None.
Proof.
  intros Hu. destruct (ciPrefix _ (u ++ _)) as [r|] eqn:Hr; [|done].
  destruct (decide (4 ≤ length u)) as [Hlen|Hlen].
  { destruct (ciPrefix_app _ _ _ _ Hr) as [r' Hr']; [done|]. congruence. }
  exfalso. revert Hr.
  assert (ci "<Key" = [(60, 60); (107, 75); (101, 69); (121, 89)]%N) as ->
    by (by vm_compute).
  destruct u as [|c1 [|c2 [|c3 [|c4 u]]]]; simpl in *; try lia;
    repeat (destruct (ciChar _ _); [|done]); done.
Qed.

Lemma searchFrom_skip text s :
  searchFrom (ciPrefix (ci "<Key")) text = None →
  matchKey (text ++ 32%N :: s) = matchKey (32%N :: s).
Proof.
  unfold matchKey. induction text as [|c text IH]; [done|].
  cbn [searchFrom app].
  destruct (ciPrefix (ci "<Key") (c :: text)) eqn:Hc; [done|].
  intros Hrest. unfold matchKeyHere at 1.
  change (c :: text ++ 32%N :: s) with ((c :: text) ++ 32%N :: s).
  rewrite keyOpening_before_space by done. simpl. by apply IH.
Qed.

Lemma trimStart_app_sep s c r :
  isSpace c = false → (spanClass isSpace (s ++ c :: r)).2 = trimStart s ++ c :: r.
Proof.
  intros Hc. unfold trimStart. rewrite spanClass_app.
  destruct (spanClass isSpace s).2; [|done]. simpl. by rewrite Hc.
Qed.

Lemma matchKey_appended fixValue :
  ch ">" ∉ fixValue →
  matchKey (js " <Key=" ++ fixValue ++ js ">") = Some (trimStart fixValue).
Proof.
  intros Hgt.
  change (js " <Key=" ++ fixValue ++ js ">")
    with (32%N :: ([60; 75; 101; 121]%N ++ ch "=" :: fixValue ++ [ch ">"])).
  unfold matchKey. cbn [searchFrom].
  assert (matchKeyHere (32%N :: ([60; 75; 101; 121]%N
            ++ ch "=" :: fixValue ++ [ch ">"])) = None) as -> by done.
  assert (matchKeyHere ([60; 75; 101; 121]%N ++ ch "=" :: fixValue ++ [ch ">"])
          = Some (trimStart fixValue)) as Hm.
  { unfold matchKeyHere.
    assert (ciPrefix (ci "<Key")
              ([60; 75; 101; 121]%N ++ ch "=" :: fixValue ++ [ch ">"])
            = Some (ch "=" :: fixValue ++ [ch ">"])) as -> by done.
    cbn [mbind option_bind].
    assert (spanClass isSpace (ch "=" :: fixValue ++ [ch ">"])
            = ([], ch "=" :: fixValue ++ [ch ">"])) as -> by done.
    cbn [snd]. rewrite N.eqb_refl.
    rewrite trimStart_app_sep by done.
    destruct (trimStart_spec fixValue) as (ws & Hv & _).
    rewrite (spanClass_build _ (trimStart fixValue) [ch ">"]); [done| |done].
    apply Forall_forall. intros c Hc.
    apply negb_true_iff, N.eqb_neq. intros ->. apply Hgt.
    rewrite Hv. apply elem_of_app. by right. }
  simpl. simpl in Hm. by rewrite Hm.
Qed.

Lemma trimStart_idemp s : trimStart (trimStart s) = trimStart s.
Proof.
  unfold trimStart. destruct (spanClass_spec isSpace s) as (_ & _ & Hrest).
  destruct (spanClass isSpace s).2 as [|c r]; [done|]. simpl. by rewrite Hrest.
Qed.


(** ** Marks taken out of a rendered question *)

Lemma descendants_Elem nm attrs cs d :
  d ∈ descendants (Elem nm attrs cs)
  ↔ ∃ c, c ∈ cs ∧ (d = c ∨ d ∈ descendants c).
Proof.
  cbn [descendants]. rewrite elem_of_concat. split.
  - intros (l & Hl & Hd).
    apply list_elem_of_In, in_map_iff in Hl as (c & <- & Hc).
    apply list_elem_of_In in Hc. exists c. split; [done|].
    by apply elem_of_cons in Hd.
  - intros (c & Hc & Hd). exists (c :: descendants c). split.
    + apply list_elem_of_In, in_map_iff. exists c.
      split; [done|]. by apply list_elem_of_In.
    + by apply elem_of_cons.
Qed.

Lemma removeTags_descendants tagName node d' :
  d' ∈ descendants (removeTags tagName node) →
  ∃ d, d ∈ descendants node ∧ d' = removeTags tagName d
       ∧ (isElement d = true → nodeName d ≠ tagName).
Proof.
  revert d'. induction node as [data|nm attrs cs IH] using Node_ind';
    intros d'; [by intros ?%elem_of_nil|].
  cbn [removeTags]. rewrite descendants_Elem.
  intros (c' & Hc' & Hd').
  apply list_elem_of_omap in Hc' as (c & Hc & Hkeep).
  destruct (isElement c && named tagName c) eqn:Hn; [done|].
  injection Hkeep as <-.
  rewrite Forall_forall in IH. destruct Hd' as [->|Hd'].
  - exists c. split_and!; [|done|].
    + apply descendants_Elem. eauto.
    + intros He Hname. rewrite He in Hn. unfold named in Hn.
      by rewrite bool_decide_true in Hn.
  - destruct (IH c Hc d' Hd') as (d & Hd & -> & Hname).
    exists d. split_and!; [|done..]. apply descendants_Elem. eauto.
Qed.

Lemma removeTags_name tagName node :
  nodeName (removeTags tagName node) = nodeName node
  ∧ isElement (removeTags tagName node) = isElement node.
Proof. by destruct node. Qed.

Lemma removeTags_text tagName node :
  (∀ d, d ∈ descendants node → isElement d = true → nodeName d = tagName →
        textContent d = []) →
  textContent (removeTags tagName node) = textContent node.
Proof.
  induction node as [data|nm attrs cs IH] using Node_ind'; [done|].
  intros Hd. cbn [removeTags textContent].
  assert (∀ c, c ∈ cs → ∀ d, d = c ∨ d ∈ descendants c →
            isElement d = true → nodeName d = tagName → textContent d = [])
    as Hcs.
  { intros c Hc d Hdc. apply Hd, descendants_Elem. eauto. }
  clear Hd. induction cs as [|c cs IHcs]; [done|].
  apply Forall_cons in IH as [IHc IH]. cbn [omap list_omap map concat].
  destruct (isElement c && named tagName c) eqn:Hn.
  - apply andb_true_iff in Hn as [He Hn%bool_decide_eq_true].
    rewrite (Hcs c) by (done || by left || apply list_elem_of_here).
    simpl. apply IHcs; [done|]. intros c' Hc'. apply Hcs. by right.
  - cbn [map concat]. rewrite IHc.
    + f_equal. apply IHcs; [done|]. intros c' Hc'. apply Hcs. by right.
    + intros d Hdc. apply (Hcs c); [apply list_elem_of_here|by right].
Qed.

Lemma descendants_trans a b c :
  b ∈ descendants a → c ∈ descendants b → c ∈ descendants a.
Proof.
  revert b c. induction a as [data|nm attrs cs IH] using Node_ind';
    intros b c; [by intros ?%elem_of_nil|].
  rewrite !descendants_Elem. intros (x & Hx & [->|Hb]) Hc.
  - exists x. auto.
  - exists x. split; [done|]. right.
    rewrite Forall_forall in IH. by eapply IH.
Qed.

Lemma removeTags_textless (marks : list string) tagName node :
  tagName ∈ marks →
  (∀ d, d ∈ descendants node → isElement d = true → nodeName d ∈ marks →
        textContent d = []) →
  textContent (removeTags tagName node) = textContent node
  ∧ ∀ d, d ∈ descendants (removeTags tagName node) → isElement d = true →
         nodeName d ∈ marks → textContent d = [].
Proof.
  intros Htag Hnode. split.
  - apply removeTags_text. intros d Hd He Hn.
    apply Hnode; [done..|]. by rewrite Hn.
  - intros d' Hd' He' Hname'.
    apply removeTags_descendants in Hd' as (d & Hd & -> & _).
    rewrite (proj2 (removeTags_name _ _)) in He'.
    rewrite (proj1 (removeTags_name _ _)) in Hname'.
    rewrite removeTags_text; [by apply Hnode|].
    intros e He Hee Hn. apply Hnode; [|done|by rewrite Hn].
    by eapply descendants_trans.
Qed.

(** X9. After the marks are taken out of a node of a question, the node
    holds no [w:u], [w:color], [w:highlight] or [w:shd] element, so no
    underline (and no colour of a label) is left in the variant; and the text
    of the node is unchanged when the elements with these names hold no
    text. *)
Theorem removeMarks_leaves_no_mark (node : Node) :
  (∀ d, d ∈ descendants (removeMarks node) → isElement d = true →
        nodeName d ∉ ["w:u"; "w:color"; "w:highlight"; "w:shd"]%string)
  ∧ hasUnderline (removeMarks node) = false
  ∧ ((∀ d, d ∈ descendants node → isElement d = true →
           nodeName d ∈ ["w:u"; "w:color"; "w:highlight"; "w:shd"]%string →
           textContent d = []) →
     textContent (removeMarks node) = textContent node).
Proof.
  assert (∀ d, d ∈ descendants (removeMarks node) → isElement d = true →
            nodeName d ∉ ["w:u"; "w:color"; "w:highlight"; "w:shd"]%string)
    as Hnone.
  { unfold removeMarks. intros d4 H4 He4.
    apply removeTags_descendants in H4 as (d3 & H3 & -> & Hn3).
    apply removeTags_descendants in H3 as (d2 & H2 & -> & Hn2).
    apply removeTags_descendants in H2 as (d1 & H1 & -> & Hn1).
    apply removeTags_descendants in H1 as (d & _ & -> & Hn).
    rewrite !(proj2 (removeTags_name _ _)) in *.
    rewrite !(proj1 (removeTags_name _ _)) in *.
    rewrite !elem_of_cons, elem_of_nil. intros [?|[?|[?|[?|[]]]]].
    - by apply Hn.
    - by apply Hn1.
    - by apply Hn2.
    - by apply Hn3. }
  split; [done|]. split.
  - unfold hasUnderline. apply not_true_is_false. intros Hu.
    apply existsb_exists in Hu as (r & Hr & Hu). unfold runUnderlined in Hu.
    destruct (head (getElementsByTagName "w:rPr" r)) as [rPr|] eqn:HrPr;
      [|done].
    unfold underlineOf in Hu.
    destruct (head (getElementsByTagName "w:u" rPr)) as [u|] eqn:Hhu; [|done].
    apply head_Some_elem_of in HrPr, Hhu.
    apply list_elem_of_In in Hr.
    unfold getElementsByTagName in Hr, HrPr, Hhu.
    apply list_elem_of_filter in Hr as [_ Hr].
    apply list_elem_of_filter in HrPr as [_ HrPr].
    apply list_elem_of_filter in Hhu as [Hname Hhu].
    assert (u ∈ descendants (removeMarks node)) as Hin
      by eauto using descendants_trans.
    apply bool_decide_eq_true in Hname.
    destruct u as [data|nm attrs cs]; [done|].
    apply (Hnone _ Hin eq_refl). rewrite Hname. apply list_elem_of_here.
  - intros Htext. unfold removeMarks.
    set (marks := ["w:u"; "w:color"; "w:highlight"; "w:shd"]%string) in *.
    destruct (removeTags_textless marks "w:u" node) as [H1 Ht1];
      [by repeat constructor|done|].
    destruct (removeTags_textless marks "w:color" _
                (ltac:(by repeat constructor)) Ht1) as [H2 Ht2].
    destruct (removeTags_textless marks "w:highlight" _
                (ltac:(by repeat constructor)) Ht2) as [H3 Ht3].
    destruct (removeTags_textless marks "w:shd" _
                (ltac:(by repeat constructor)) Ht3) as [H4 _].
    by rewrite H4, H3, H2, H1.
Qed.

(** ** Key tags cut out of a paragraph *)

Lemma matchKeyTagHere_length s len :
  matchKeyTagHere s = Some len → 1 ≤ len ≤ length s.
Proof.
  unfold matchKeyTagHere.
  destruct (spanClass_spec isSpace s) as (Hs & _).
  destruct (spanClass isSpace s) as [lead r0]. simpl in Hs.
  destruct (ciPrefix (ci "<Key") r0) as [r|] eqn:Hr; simpl; [|done].
  assert (r0 = take 4 r0 ++ r ∧ length (take 4 r0) = 4) as [Hr0 Hlen].
  { revert Hr.
    assert (ci "<Key" = [(60, 60); (107, 75); (101, 69); (121, 89)]%N) as ->
      by (by vm_compute).
    destruct r0 as [|c1 [|c2 [|c3 [|c4 u]]]]; simpl;
      repeat (destruct (ciChar _ _); [|done]); try done.
    by intros [= <-]. }
  destruct (spanClass_spec isSpace r) as (Hgap & _).
  destruct (spanClass isSpace r) as [gap r1]. simpl in Hgap.
  destruct r1 as [|c r2]; [done|]. destruct (c =? ch "=")%N; [|done].
  destruct (spanClass_spec (λ c, negb (c =? ch ">")%N) r2) as (Hv & _).
  destruct (spanClass _ r2) as [value r3]. simpl in Hv.
  destruct r3 as [|c3 r3]; [done|]. intros [= <-].
  change (length (js "<Key")) with 4. split; [lia|].
  rewrite Hs, Hr0, Hgap, Hv. rewrite !length_app, Hlen. simpl.
  rewrite !length_app. simpl. lia.
Qed.

Lemma keepOutside_ext f g pos s :
  (∀ p, pos ≤ p < pos + length s → f p = g p) →
  keepOutside f pos s = keepOutside g pos s.
Proof.
  revert pos. induction s as [|c s IH]; intros pos H; [done|]. simpl.
  rewrite (H pos) by (simpl; lia). f_equal. apply IH.
  intros p Hp. apply H. simpl. lia.
Qed.

Lemma keepOutside_app f pos a b :
  keepOutside f pos (a ++ b)
  = keepOutside f pos a ++ keepOutside f (pos + length a) b.
Proof.
  revert pos. induction a as [|c a IH]; intros pos; simpl.
  - by rewrite Nat.add_0_r.
  - rewrite IH, <-app_assoc. do 3 f_equal. lia.
Qed.

Lemma keepOutside_none f pos s :
  (∀ p, pos ≤ p < pos + length s → f p = false) → keepOutside f pos s = s.
Proof.
  revert pos. induction s as [|c s IH]; intros pos H; [done|]. simpl.
  rewrite (H pos) by (simpl; lia). simpl. f_equal. apply IH.
  intros p Hp. apply H. simpl. lia.
Qed.

Lemma keepOutside_all f pos s :
  (∀ p, pos ≤ p < pos + length s → f p = true) → keepOutside f pos s = [].
Proof.
  revert pos. induction s as [|c s IH]; intros pos H; [done|]. simpl.
  rewrite (H pos) by (simpl; lia). simpl. apply IH.
  intros p Hp. apply H. simpl. lia.
Qed.

Lemma inRange_ordered lo ranges p :
  orderedRanges lo ranges → p < lo → inRange ranges p = false.
Proof.
  revert lo. induction ranges as [|r rest IH]; intros lo; [done|].
  simpl. intros (Hlo & Hr & Hrest) Hp.
  rewrite (IH r.2) by (done || lia).
  rewrite orb_false_r. apply andb_false_iff. left. apply Nat.leb_gt. lia.
Qed.

Lemma orderedRanges_weaken lo lo' ranges :
  lo' ≤ lo → orderedRanges lo ranges → orderedRanges lo' ranges.
Proof. destruct ranges; [done|]. simpl. intros ? (? & ? & ?). split; [lia|done]. Qed.

Lemma keyTagRanges_ordered s pos skip :
  orderedRanges (pos + skip) (keyTagRanges s pos skip).
Proof.
  revert pos skip. induction s as [|c s IH]; intros pos skip.
  - destruct skip; simpl; [|done]. by destruct (matchKeyTagHere []).
  - destruct skip as [|skip]; simpl.
    + destruct (matchKeyTagHere (c :: s)) as [len|] eqn:Hm.
      * apply matchKeyTagHere_length in Hm. simpl. split; [lia|].
        split; [lia|].
        replace (pos + len) with (S pos + (len - 1)) by lia. apply IH.
      * eapply orderedRanges_weaken; [|apply (IH (S pos) 0)]. lia.
    + replace (pos + S skip) with (S pos + skip) by lia. apply IH.
Qed.

Lemma withoutKeyTags_ranges s pos skip :
  withoutKeyTags s skip
  = keepOutside
      (λ p, (p <? pos + skip) || inRange (keyTagRanges s pos skip) p) pos s.
Proof.
  revert pos skip. induction s as [|c s IH]; intros pos skip.
  - by destruct skip.
  - destruct skip as [|skip]; simpl.
    + destruct (matchKeyTagHere (c :: s)) as [len|] eqn:Hm.
      * apply matchKeyTagHere_length in Hm as Hlen. simpl.
        rewrite Nat.leb_refl.
        replace (pos <? pos + len) with true
          by (symmetry; apply Nat.ltb_lt; lia).
        rewrite orb_true_r. simpl. rewrite (IH (S pos) (len - 1)).
        apply keepOutside_ext. intros p Hp.
        destruct (inRange _ p); [by rewrite !orb_true_r|].
        rewrite !orb_false_r.
        replace (p <? pos + 0) with false
          by (symmetry; apply Nat.ltb_ge; lia).
        replace (pos <=? p) with true by (symmetry; apply Nat.leb_le; lia).
        simpl. f_equal. lia.
      * replace (pos <? pos + 0) with false
          by (symmetry; apply Nat.ltb_ge; lia).
        rewrite (inRange_ordered (S pos + 0)); [|apply keyTagRanges_ordered|lia].
        simpl. f_equal. rewrite (IH (S pos) 0).
        apply keepOutside_ext. intros p Hp. f_equal.
        destruct (Nat.ltb_spec p (S pos + 0)), (Nat.ltb_spec p (pos + 0));
          done || lia.
    + replace (pos <? pos + S skip) with true
        by (symmetry; apply Nat.ltb_lt; lia).
      simpl. rewrite (IH (S pos) skip).
      apply keepOutside_ext. intros p Hp. f_equal.
      destruct (Nat.ltb_spec p (S pos + skip)), (Nat.ltb_spec p (pos + S skip));
        done || lia.
Qed.

Lemma inRange_cons r rest p :
  inRange (r :: rest) p = (r.1 <=? p) && (p <? r.2) || inRange rest p.
Proof. reflexivity. Qed.

Lemma keepOutside_segment (f : nat → bool) t start k m n :
  k ≤ m → m ≤ n →
  (∀ p, start + k ≤ p < start + m → p < start + length t → f p = false) →
  (∀ p, start + m ≤ p < start + n → p < start + length t → f p = true) →
  keepOutside f (start + k) (take (n - k) (drop k t))
  = take (m - k) (drop k t).
Proof.
  intros Hkm Hmn Hkeep Hcut.
  replace (n - k) with ((m - k) + (n - m)) by lia.
  rewrite <-take_take_drop, keepOutside_app, drop_drop.
  rewrite keepOutside_none, keepOutside_all.
  - by rewrite app_nil_r.
  - intros p. rewrite ?length_take, ?length_drop. intros Hp.
    apply Hcut; lia.
  - intros p. rewrite ?length_take, ?length_drop. intros Hp.
    apply Hkeep; lia.
Qed.

Lemma keepBefore_fold lo (ranges : list (nat * nat)) t start built k :
  orderedRanges lo ranges →
  k ≤ length t →
  let st := foldl (keepBefore t start) (built, k) ranges in
  st.2 ≤ length t
  ∧ st.1 ++ drop st.2 t
    = built ++ keepOutside (inRange ranges) (start + k) (drop k t).
Proof.
  revert lo built k. induction ranges as [|[a b] rest IH]; intros lo built k.
  { intros _ Hk. simpl. split; [done|]. f_equal. symmetry.
    by apply keepOutside_none. }
  cbn [orderedRanges fst snd]. intros (Hlo & Hab & Hrest) Hk.
  cbn [foldl].
  set (rs := a - start). set (re := min (length t) (b - start)).
  set (k1 := max k re).
  assert (keepBefore t start (built, k) (a, b)
          = (if bool_decide (k < rs)
             then built ++ take (rs - k) (drop k t) else built, k1)) as ->
    by reflexivity.
  assert (k ≤ k1 ≤ length t) as Hk1 by (unfold k1, re; lia).
  destruct (IH b (if bool_decide (k < rs)
                  then built ++ take (rs - k) (drop k t) else built)
              k1 Hrest) as [Hlen Heq]; [lia|].
  split; [done|]. rewrite Heq. clear Heq Hlen IH.
  assert (drop k t = take (k1 - k) (drop k t) ++ drop k1 t) as Hsplit.
  { rewrite <-(take_drop (k1 - k) (drop k t)) at 1.
    rewrite drop_drop. do 2 f_equal. lia. }
  rewrite Hsplit at 2. rewrite keepOutside_app.
  rewrite length_take, length_drop.
  replace (start + k + min (k1 - k) (length t - k)) with (start + k1) by lia.
  assert (keepOutside (inRange ((a, b) :: rest)) (start + k1) (drop k1 t)
          = keepOutside (inRange rest) (start + k1) (drop k1 t)) as ->.
  { apply keepOutside_ext. intros p. rewrite length_drop. intros Hp.
    rewrite inRange_cons. cbn [fst snd].
    replace (p <? b) with false; [by rewrite andb_false_r|].
    symmetry. apply Nat.ltb_ge. unfold k1, re in *. lia. }
  rewrite app_assoc. f_equal.
  assert (∀ p, p < b → inRange ((a, b) :: rest) p
                       = (a <=? p)) as Hin.
  { intros p Hp. rewrite inRange_cons. cbn [fst snd].
    rewrite (inRange_ordered b) by done.
    replace (p <? b) with true by (symmetry; by apply Nat.ltb_lt).
    by rewrite andb_true_r, orb_false_r. }
  case_bool_decide as Hrs.
  - f_equal. destruct (decide (rs < length t)) as [Hin'|Hout].
    + assert (k1 = re) as -> by (unfold k1, re, rs in *; lia).
      symmetry. apply keepOutside_segment; [lia|unfold re, rs in *; lia|..].
      * intros p Hp Hp'. rewrite Hin by (unfold rs in *; lia).
        apply Nat.leb_gt. unfold rs in *. lia.
      * intros p Hp Hp'. rewrite Hin by (unfold re in *; lia).
        apply Nat.leb_le. unfold rs in *. lia.
    + assert (k1 = length t) as -> by (unfold k1, re, rs in *; lia).
      rewrite (take_ge (drop k t) (rs - k))
        by (rewrite length_drop; lia).
      rewrite (take_ge (drop k t) (length t - k))
        by (rewrite length_drop; lia).
      symmetry. apply keepOutside_none.
      intros p. rewrite length_drop. intros Hp.
      rewrite Hin by (unfold rs in *; lia).
      apply Nat.leb_gt. unfold rs in *. lia.
  - rewrite keepOutside_all; [by rewrite app_nil_r|].
    intros p. rewrite length_take, length_drop. intros Hp.
    rewrite Hin by (unfold k1, re in *; lia).
    apply Nat.leb_le. unfold rs in *. lia.
Qed.

Lemma rebuildText_spec lo ranges t start :
  orderedRanges lo ranges →
  rebuildText ranges t start = keepOutside (inRange ranges) start t.
Proof.
  intros Hord. unfold rebuildText.
  destruct (keepBefore_fold lo ranges t start [] 0 Hord) as [Hlen Heq]; [lia|].
  destruct (foldl _ _ _) as [built k]. simpl in *.
  rewrite Nat.add_0_r, drop_0 in Heq. rewrite <-Heq.
  case_bool_decide; [done|]. rewrite drop_ge by lia. by rewrite app_nil_r.
Qed.

Lemma orderedRanges_filter lo (ranges : list (nat * nat))
    (P : nat * nat → Prop) `{!∀ r, Decision (P r)} :
  orderedRanges lo ranges → orderedRanges lo (filter P ranges).
Proof.
  revert lo. induction ranges as [|r rest IH]; intros lo; [done|].
  cbn [orderedRanges]. intros (Hlo & Hr & Hrest). rewrite filter_cons.
  destruct (decide (P r)).
  - cbn [orderedRanges]. split_and!; [done..|]. by apply IH.
  - apply (orderedRanges_weaken r.2); [lia|]. by apply IH.
Qed.

Lemma inRange_filter ranges pos stop p :
  pos ≤ p < stop →
  inRange (filter (λ r, r.1 < stop ∧ pos < r.2) ranges) p = inRange ranges p.
Proof.
  intros Hp. induction ranges as [|r rest IH]; [done|].
  rewrite filter_cons. destruct (decide _) as [Hr|Hr].
  - by rewrite !inRange_cons, IH.
  - rewrite inRange_cons, IH.
    destruct (Nat.leb_spec r.1 p), (Nat.ltb_spec p r.2); try done.
    exfalso. apply Hr. lia.
Qed.

Lemma cleanWalk_Elem ranges nm attrs cs pos :
  cleanWalk ranges (Elem nm attrs cs) pos
  = if bool_decide (nm = "w:t"%string)
       && negb (bool_decide (textContent (Elem nm attrs cs) = []))
    then
      let nodeText := textContent (Elem nm attrs cs) in
      let stop := pos + length nodeText in
      let nodeRanges := filter (λ r, r.1 < stop ∧ pos < r.2) ranges in
      (match nodeRanges with
       | [] => Elem nm attrs cs
       | _ :: _ =>
         setTextContent (rebuildText nodeRanges nodeText pos) (Elem nm attrs cs)
       end, stop)
    else
      let '(children', pos') := cleanChildren ranges cs pos in
      (Elem nm attrs children', pos').
Proof. reflexivity. Qed.

Lemma collectTexts_Elem nm attrs cs :
  collectTexts (Elem nm attrs cs)
  = if bool_decide (nm = "w:t"%string)
       && negb (bool_decide (textContent (Elem nm attrs cs) = []))
    then [textContent (Elem nm attrs cs)]
    else concat (map collectTexts cs).
Proof. reflexivity. Qed.

Lemma concat_nil_Forall {A} (ls : list (list A)) :
  concat ls = [] ↔ Forall (λ l, l = []) ls.
Proof.
  induction ls as [|l ls IH]; simpl; [done|].
  rewrite Forall_cons, <-IH. split.
  - by intros [-> ->]%app_nil.
  - by intros [-> ->].
Qed.

Lemma collectTexts_textless n : textContent n = [] → collectTexts n = [].
Proof.
  induction n as [d|nm attrs cs IH] using Node_ind'; [done|].
  intros Ht. rewrite collectTexts_Elem, Ht.
  rewrite (bool_decide_true ([] = [])) by done.
  rewrite andb_false_r. cbn [textContent] in Ht.
  apply concat_nil_Forall in Ht. apply concat_nil_Forall.
  rewrite Forall_forall in IH. rewrite Forall_forall in Ht.
  apply Forall_forall.
  intros l (c & <- & Hc)%list_elem_of_In%in_map_iff.
  apply list_elem_of_In in Hc. apply IH; [done|].
  apply Ht, list_elem_of_In, in_map_iff. exists c.
  split; [done|]. by apply list_elem_of_In.
Qed.

Lemma cleanWalk_textless ranges n pos :
  textContent n = [] → cleanWalk ranges n pos = (n, pos).
Proof.
  revert pos. induction n as [d|nm attrs cs IH] using Node_ind';
    intros pos; [done|].
  intros Ht. rewrite cleanWalk_Elem, Ht.
  rewrite (bool_decide_true ([] = [])) by done.
  rewrite andb_false_r. cbn [textContent] in Ht.
  apply concat_nil_Forall in Ht.
  assert (cleanChildren ranges cs pos = (cs, pos)) as ->; [|done].
  clear -IH Ht. revert pos. induction cs as [|c cs IHcs]; intros pos; [done|].
  apply Forall_cons in IH as [IHc IH].
  cbn [map] in Ht. apply Forall_cons in Ht as [Hc Ht].
  cbn [cleanChildren]. rewrite IHc by done. by rewrite IHcs.
Qed.

Section WalkFacts.

Variable ranges : list (nat * nat).
Variable lo : nat.
Hypothesis ordered : orderedRanges lo ranges.

Lemma cleanWalk_spec n pos :
  (cleanWalk ranges n pos).2 = pos + length (concat (collectTexts n))
  ∧ concat (collectTexts (cleanWalk ranges n pos).1)
    = keepOutside (inRange ranges) pos (concat (collectTexts n))
  ∧ nodeName (cleanWalk ranges n pos).1 = nodeName n
  ∧ (textInsideT n = true → textInsideT (cleanWalk ranges n pos).1 = true).
Proof.
  revert pos. induction n as [d|nm attrs cs IH] using Node_ind';
    intros pos; [by rewrite Nat.add_0_r|].
  destruct (decide (textContent (Elem nm attrs cs) = [])) as [Hnil|Hne].
  { rewrite cleanWalk_textless, collectTexts_textless by done.
    cbn [fst snd concat length keepOutside].
    rewrite collectTexts_textless by done. by rewrite Nat.add_0_r. }
  rewrite cleanWalk_Elem, collectTexts_Elem.
  rewrite (bool_decide_false (_ = [])) by done. rewrite andb_true_r.
  case_bool_decide as Hnm.
  - subst nm. set (t := textContent (Elem "w:t" attrs cs)) in *.
    cbn [concat fst snd]. rewrite app_nil_r.
    split; [done|]. cbv zeta.
    set (nodeRanges := filter (λ r, r.1 < pos + length t ∧ pos < r.2) ranges).
    assert (keepOutside (inRange ranges) pos t
            = keepOutside (inRange nodeRanges) pos t) as Hmask.
    { apply keepOutside_ext. intros p Hp. symmetry.
      by apply inRange_filter. }
    rewrite Hmask.
    destruct nodeRanges as [|r rest] eqn:Hranges.
    + split_and!; [|done..]. rewrite collectTexts_Elem. fold t.
      rewrite (bool_decide_false (t = [])) by done. simpl.
      rewrite app_nil_r. symmetry. by apply keepOutside_none.
    + rewrite <-Hranges.
      rewrite (rebuildText_spec lo) by (by apply orderedRanges_filter).
      split_and!; [|done..]. cbn [setTextContent].
      clear Hmask.
      generalize (keepOutside (inRange nodeRanges) pos t).
      intros [|c built]; [reflexivity|].
      rewrite collectTexts_Elem. cbn [textContent map concat].
      rewrite app_nil_r. simpl. by rewrite app_nil_r.
  - cbn [andb].
    assert (∀ pos,
      (cleanChildren ranges cs pos).2
      = pos + length (concat (concat (map collectTexts cs)))
      ∧ concat (concat (map collectTexts (cleanChildren ranges cs pos).1))
        = keepOutside (inRange ranges) pos
            (concat (concat (map collectTexts cs)))
      ∧ (forallb textInsideT cs = true →
         forallb textInsideT (cleanChildren ranges cs pos).1 = true)) as Hcs.
    { clear -IH. induction cs as [|c cs IHcs]; intros pos.
      { by rewrite Nat.add_0_r. }
      apply Forall_cons in IH as [IHc IH].
      cbn [cleanChildren map concat].
      destruct (IHc pos) as (Hp & Ht & _ & Hin).
      destruct (cleanWalk ranges c pos) as [c' pos1]. simpl in Hp, Ht, Hin.
      destruct (IHcs IH pos1) as (Hp' & Ht' & Hin').
      destruct (cleanChildren ranges cs pos1) as [cs' pos2].
      simpl in Hp', Ht', Hin'. cbn [fst snd map concat forallb].
      rewrite !concat_app, Ht, Ht', keepOutside_app, length_app, <-Hp.
      split_and!; [lia|done|].
      intros [H1 H2]%andb_true_iff. by rewrite Hin, Hin'. }
    destruct (Hcs pos) as (Hp & Ht & Hin).
    destruct (cleanChildren ranges cs pos) as [cs' pos'].
    simpl in Hp, Ht, Hin. cbn [fst snd nodeName].
    split; [done|]. split; [|split; [done|]].
    + rewrite collectTexts_Elem, bool_decide_false by done. done.
    + cbn [textInsideT]. rewrite bool_decide_false by done. simpl. done.
Qed.

End WalkFacts.

Lemma concat_concat {A} (l : list (list (list A))) :
  concat (map (λ x, concat x) l) = concat (concat l).
Proof.
  induction l as [|x l IH]; [done|]. simpl. by rewrite concat_app, IH.
Qed.

Lemma textInsideT_text n :
  textInsideT n = true → textContent n = concat (collectTexts n).
Proof.
  induction n as [d|nm attrs cs IH] using Node_ind'; [done|].
  destruct (decide (textContent (Elem nm attrs cs) = [])) as [Hnil|Hne].
  { intros _. by rewrite collectTexts_textless, Hnil. }
  cbn [textInsideT]. rewrite collectTexts_Elem.
  rewrite (bool_decide_false (_ = [])) by done. rewrite andb_true_r.
  case_bool_decide; simpl; [by rewrite app_nil_r|].
  intros Hcs%forallb_Forall. rewrite <-concat_concat, map_map.
  f_equal. apply map_ext_in. intros c Hc%list_elem_of_In.
  rewrite Forall_forall in IH. rewrite Forall_forall in Hcs.
  by apply IH, Hcs.
Qed.

(** X10. The key tags are cut out of a paragraph also when they are split
    over several [w:t] elements: after [cleanKeyTagFromParagraph] the texts
    of the [w:t] elements, put together, are the text they held before with
    every match of the key-tag pattern (and the white space before it)
    deleted.  When every text node lies in a [w:t], this is the text of the
    paragraph. *)
Theorem cleanKeyTag_removes_tags (pNode : Node) :
  concat (collectTexts (cleanKeyTagFromParagraph pNode))
  = withoutKeyTags (concat (collectTexts pNode)) 0
  ∧ (textInsideT pNode = true →
     textContent (cleanKeyTagFromParagraph pNode)
     = withoutKeyTags (textContent pNode) 0).
Proof.
  assert (concat (collectTexts (cleanKeyTagFromParagraph pNode))
          = withoutKeyTags (concat (collectTexts pNode)) 0
          ∧ (textInsideT pNode = true →
             textInsideT (cleanKeyTagFromParagraph pNode) = true))
    as [Htexts Hinside].
  { unfold cleanKeyTagFromParagraph.
    destruct (collectTexts pNode) as [|t ts] eqn:Hc; [by rewrite Hc|].
    rewrite <-Hc. rewrite (withoutKeyTags_ranges _ 0 0).
    pose proof (keyTagRanges_ordered (concat (collectTexts pNode)) 0 0)
      as Hord.
    destruct (keyTagRanges (concat (collectTexts pNode)) 0 0)
      as [|r ranges] eqn:Hr.
    - split; [|done]. symmetry. by apply keepOutside_none.
    - rewrite <-Hr in *.
      destruct (cleanWalk_spec _ _ Hord pNode 0) as (_ & Ht & _ & Hin).
      by rewrite Ht. }
  split; [done|]. intros Hin.
  rewrite !textInsideT_text by auto. done.
Qed.

(** ** The answers of a TRUE_FALSE question after the shuffle *)

Lemma relabel_keeps_kind node node' letter sep :
  simplePar node = true →
  isOptionNode node = true →
  separatorOk sep →
  isOptionLetter letter = true →
  replaceOptionLabel node [letter] sep = Some node' →
  hasUnderline node' = hasUnderline node
  ∧ testOptionPrefix (textContent node') = testOptionPrefix (textContent node).
Proof.
  intros Hpar Hopt (s & -> & Hs) Hletter Hrep.
  destruct (walk_par (relabelText [letter] [s]) (relabelText_nil [letter] [s])
              node Hpar) as (n' & Hn' & _ & Hu & Htext).
  fold (replaceOptionLabel node [letter] [s]) in Hn'.
  rewrite Hrep in Hn'. injection Hn' as <-. split; [done|].
  unfold testOptionPrefix.
  destruct (isOptionNode_cases node Hopt)
    as [[m Hm]|[Hnone (lead & l & gap & Hl)]].
  - destruct Htext as [Hfirst|[_ Hno%noMatch_strict]]; [|congruence].
    apply matchOptionPrefix_spec in Hm as Hspec.
    destruct Hspec as (_ & Hlead & _ & Hgap & Hsep).
    rewrite Hm.
    destruct (firstMatch_strict _ _ _ _ _ Hfirst Hm) as [-> | ->].
    + change (om_lead m ++ [letter] ++ [s] ++ om_rest m)
        with (om_lead m ++ letter :: [] ++ s :: om_rest m).
      by rewrite matchOptionPrefix_build.
    + change (om_lead m ++ [letter] ++ om_gap m ++ om_sep m :: om_rest m)
        with (om_lead m ++ letter :: om_gap m ++ om_sep m :: om_rest m).
      by rewrite matchOptionPrefix_build.
  - destruct Htext as [Hfirst|[_ Hno%noMatch_loose]]; [|congruence].
    rewrite Hnone, (firstMatch_loose _ _ _ _ _ _ _ Hfirst Hl).
    apply matchLoose_spec in Hl as (_ & Hlead & _ & Hgap).
    assert (matchOptionPrefix (lead ++ [letter] ++ gap) = None) as ->; [|done].
    unfold matchOptionPrefix.
    rewrite spanClass_build; [|done|by apply letter_not_space].
    cbn [app]. rewrite Hletter.
    rewrite <-(app_nil_r gap), spanClass_build; done.
Qed.

Lemma concat_at_positions (f : Node → list N) (p : Node → bool)
    (l0 l : list Node) (idx : nat) :
  length l = length l0 →
  (∀ i x, l !! i = Some x → idx + i ∉ positionsFrom p idx l0 → f x = []) →
  concat (map f l)
  = concat (map (λ i, from_option f [] (l !! (i - idx)))
              (positionsFrom p idx l0)).
Proof.
  revert l idx. induction l0 as [|x0 l0 IH]; intros l idx Hlen Hout.
  { by destruct l. }
  destruct l as [|x l]; [done|]. cbn [positionsFrom map concat].
  rewrite map_app, concat_app.
  rewrite (IH l (S idx)); [| simpl in Hlen; lia |].
  - f_equal.
    + destruct (p x0) eqn:Hp.
      * simpl. by rewrite Nat.sub_diag, app_nil_r.
      * simpl. apply (Hout 0); [done|]. cbn [positionsFrom]. rewrite Hp.
        simpl. rewrite positionsFrom_elem. lia.
    + f_equal. apply map_ext_in. intros i Hi%list_elem_of_In.
      apply positionsFrom_elem in Hi as [Hi _].
      by replace (i - idx) with (S (i - S idx)) by lia.
  - intros i y Hy Hi. apply (Hout (S i)); [done|].
    cbn [positionsFrom]. rewrite elem_of_app. intros [Hin|Hin].
    + destruct (p x0); [|by apply elem_of_nil in Hin].
      apply list_elem_of_singleton in Hin. lia.
    + apply Hi. by replace (S idx + i) with (idx + S i) by lia.
Qed.

Section TrueFalse.

Variable random : nat → nat.

(** X11. For a TRUE_FALSE question with at most four option nodes, all of
    them plain paragraphs, the shuffle returns a list and the answer read
    from it holds the same marks as the answer read before the shuffle, in
    another order: no mark for "true" or "false" is lost or added. *)
Theorem shuffle_true_false_answers (nodes : list Node) (k : nat)
    (originalText : list N) :
  (∀ node, node ∈ nodes → isOptionNode node = true → simplePar node = true) →
  length (optionPositions nodes) ≤ 4 →
  ∃ out k',
    shuffleQuestionOptions random nodes TRUE_FALSE None k = Some (out, k')
    ∧ getAnswerFromNodes out TRUE_FALSE originalText
      ≡ₚ getAnswerFromNodes nodes TRUE_FALSE originalText.
Proof.
  intros Hsimple Hfour.
  destruct (decide (2 ≤ length (optionPositions nodes))) as [Hmany|Hfew].
  2:{ exists nodes, k. split; [|done]. unfold shuffleQuestionOptions.
      rewrite bool_decide_false by done.
      destruct (scan_options TRUE_FALSE nodes) as (Hopts & _).
      cbv zeta. rewrite Hopts. by rewrite bool_decide_true by lia. }
  destruct (shuffle_spec random nodes TRUE_FALSE None k)
    as (shuffled & out & k' & detected & -> & Hperm & Hsep & Hlen & Hout
        & Hin & _); [done..|].
  exists out, k'. split; [done|].
  set (f := λ node : Node,
    if testOptionPrefix (textContent node)
    then (if hasUnderline node then js "Đ" else js "S") else []).
  change (concat (map f out) ≡ₚ concat (map f nodes)).
  assert (∀ node, isOptionNode node = false → f node = []) as Hf.
  { intros node Hnode. unfold f, isOptionNode in *.
    by apply orb_false_iff in Hnode as [-> _]. }
  rewrite (concat_at_positions f isOptionNode nodes out 0) by
    (done || (intros i x Hx Hi; apply Hf; simpl in Hi;
              rewrite Hout in Hx by done;
              destruct (isOptionNode x) eqn:Hopt; [|done];
              exfalso; apply Hi, optionPositions_elem; eauto)).
  rewrite (concat_at_positions f isOptionNode nodes nodes 0) by
    (done || (intros i x Hx Hi; apply Hf; simpl in Hi;
              destruct (isOptionNode x) eqn:Hopt; [|done];
              exfalso; apply Hi, optionPositions_elem; eauto)).
  fold (optionPositions nodes).
  assert (map (λ i, from_option f [] (out !! (i - 0))) (optionPositions nodes)
          = map (λ i, from_option f [] (nodes !! (i - 0))) shuffled) as ->.
  { apply list_eq. intros j. rewrite !map_fmap, !list_lookup_fmap.
    destruct (optionPositions nodes !! j) as [i|] eqn:Hi.
    - destruct (lookup_lt_is_Some_2 shuffled j) as [r Hr].
      { rewrite Hperm. by eapply lookup_lt_Some. }
      rewrite Hr. simpl. f_equal. rewrite !Nat.sub_0_r.
      destruct (Hin j i r Hi Hr) as (n & n' & Hn & Hrep & Hn').
      rewrite Hn, Hn'. simpl.
      assert (r ∈ optionPositions nodes) as Hrin.
      { rewrite <-Hperm. by eapply list_elem_of_lookup_2. }
      apply optionPositions_elem in Hrin as (n0 & Hn0 & Hopt).
      rewrite Hn in Hn0. injection Hn0 as <-.
      assert (j < 4) as Hj.
      { apply lookup_lt_Some in Hi. lia. }
      assert (∃ letter, labelAt TRUE_FALSE j = [letter]
                        ∧ isOptionLetter letter = true) as (letter & Hl & Hol).
      { do 4 (destruct j as [|j]; [eexists; split; by vm_compute|]). lia. }
      rewrite Hl in Hrep.
      assert (simplePar n = true) as Hpar.
      { apply Hsimple; [by eapply list_elem_of_lookup_2|done]. }
      destruct (relabel_keeps_kind n n' letter
                  (separatorToUse TRUE_FALSE detected) Hpar Hopt
                  (separatorToUse_ok _ _ Hsep) Hol Hrep) as [Hu Ht].
      unfold f. by rewrite Hu, Ht.
    - rewrite (lookup_ge_None_2 shuffled j); [done|].
      rewrite Hperm. by apply lookup_ge_None. }
  by rewrite !map_fmap, Hperm.
Qed.

End TrueFalse.

(** ** The layout keeps the text *)

Lemma updateFirst_text name f n :
  (∀ d, d ∈ descendants n → named name d = true →
        ∃ d', f d = Some d' ∧ textContent d' = textContent d) →
  ∃ n',
    match updateFirst name f n with
    | Updated x => Some x
    | Absent => Some n
    | Failed => None
    end = Some n'
    ∧ textContent n' = textContent n.
Proof.
  induction n as [d|nm attrs cs IH] using Node_ind'; [by eexists|].
  intros Hf. rewrite updateFirst_Elem.
  assert (∃ cs',
    match updateFirstList name f cs with
    | Updated x => Some x
    | Absent => Some cs
    | Failed => None
    end = Some cs'
    ∧ concat (map textContent cs') = concat (map textContent cs))
    as (cs' & Hcs' & Htext).
  { assert (∀ c, c ∈ cs → ∀ d, d = c ∨ d ∈ descendants c →
              named name d = true →
              ∃ d', f d = Some d' ∧ textContent d' = textContent d) as Hcs.
    { intros c Hc d Hd. apply Hf, descendants_Elem. eauto. }
    clear Hf. induction cs as [|c cs IHcs]; [by eexists|].
    apply Forall_cons in IH as [IHc IH]. cbn [updateFirstList].
    destruct (named name c) eqn:Hn.
    - destruct (Hcs c (list_elem_of_here _ _) c (or_introl eq_refl) Hn)
        as (c' & -> & Hc').
      eexists. split; [done|]. simpl. by rewrite Hc'.
    - destruct IHc as (c' & Hc' & Htc).
      { intros d Hd. apply (Hcs c); [apply list_elem_of_here|by right]. }
      destruct (updateFirst name f c) as [x| |]; [| |done].
      + injection Hc' as ->. eexists. split; [done|]. simpl. by rewrite Htc.
      + destruct IHcs as (cs' & Hcs' & Htcs); [done| |].
        { intros c0 Hc0. apply Hcs. by right. }
        destruct (updateFirstList name f cs) as [x| |]; [| |done].
        * injection Hcs' as ->. eexists. split; [done|]. simpl.
          by rewrite Htcs.
        * eexists. by split. }
  destruct (updateFirstList name f cs) as [x| |]; [| |done].
  - injection Hcs' as ->. by eexists.
  - by eexists.
Qed.

Lemma removeFirstChild_absent name cs :
  (∀ d, d ∈ descendants (Elem name [] cs) → named name d = false) →
  removeFirstChild name cs = Absent.
Proof.
  intros Hcs. induction cs as [|c cs IH]; [done|]. simpl.
  rewrite (Hcs c) by (apply descendants_Elem; exists c;
                      split; [apply list_elem_of_here|by left]).
  destruct (getElementsByTagName name c) as [|e l] eqn:He.
  - rewrite IH; [done|]. intros d Hd. apply Hcs.
    apply descendants_Elem in Hd as (x & Hx & Hd).
    apply descendants_Elem. exists x. split; [by right|done].
  - assert (e ∈ getElementsByTagName name c) as Hin
      by (rewrite He; apply list_elem_of_here).
    apply list_elem_of_filter in Hin as [Hn Hin].
    rewrite (Hcs e) in Hn; [done|].
    apply descendants_Elem. exists c. split; [apply list_elem_of_here|by right].
Qed.

Lemma setupParagraphTab_text pNode tabPositions :
  (∀ d, d ∈ descendants pNode → named "w:tabs" d = false) →
  ∃ p, setupParagraphTab pNode tabPositions = Some p
       ∧ textContent p = textContent pNode.
Proof.
  intros Hnone. unfold setupParagraphTab.
  set (p1 := match getElementsByTagName "w:pPr" pNode with
             | [] => prependChild (Elem "w:pPr" [] []) pNode
             | _ :: _ => pNode
             end).
  assert (textContent p1 = textContent pNode
          ∧ ∀ d, d ∈ descendants p1 → named "w:tabs" d = false)
    as [Htext Hnone1].
  { unfold p1. destruct (getElementsByTagName "w:pPr" pNode); [|done].
    destruct pNode as [data|nm attrs cs]; [done|]. split; [done|].
    cbn [prependChild]. intros d.
    rewrite descendants_Elem. intros (c & [->|Hc]%elem_of_cons & Hd).
    - destruct Hd as [->|Hd]; [done|]. by apply elem_of_nil in Hd.
    - apply Hnone, descendants_Elem. eauto. }
  destruct (updateFirst_text "w:pPr" (setTabs tabPositions) p1)
    as (p & Hp & Htp).
  - intros [data|nm attrs cs] Hd Hn; [done|]. cbn [setTabs].
    rewrite removeFirstChild_absent.
    + eexists. split; [done|]. cbn [textContent].
      rewrite map_app, concat_app. cbn [map concat textContent].
      assert (concat (map textContent (map tabStop tabPositions)) = []) as ->.
      { by induction tabPositions. }
      by rewrite !app_nil_r.
    + intros e He. apply Hnone1. eapply descendants_trans; [exact Hd|].
      apply descendants_Elem in He as (x & Hx & He).
      apply descendants_Elem. eauto.
  - exists p. split; [|by rewrite Htp].
    by destruct (updateFirst "w:pPr" (setTabs tabPositions) p1).
Qed.

Lemma mergeParagraphsWithTab_spec pDest pSource :
  isElement pDest = true →
  isElement pSource = true →
  (∀ c, c ∈ childNodes pSource → named "w:pPr" c = true →
        textContent c = []) →
  textContent (mergeParagraphsWithTab pDest pSource)
  = textContent pDest ++ textContent pSource
  ∧ isElement (mergeParagraphsWithTab pDest pSource) = true
  ∧ (∀ name d, d ∈ descendants (mergeParagraphsWithTab pDest pSource) →
       named name d = true →
       name = "w:r"%string ∨ name = "w:tab"%string
       ∨ (∃ d', d' ∈ descendants pDest ∧ named name d' = true)
       ∨ (∃ d', d' ∈ descendants pSource ∧ named name d' = true))
  ∧ (∀ c, c ∈ childNodes (mergeParagraphsWithTab pDest pSource) →
       named "w:pPr" c = true → textContent c = [] ∨ c ∈ childNodes pDest).
Proof.
  destruct pDest as [data|nm attrs cs]; [done|].
  destruct pSource as [data|nm' attrs' cs']; [done|]. intros _ _ Hprops.
  cbn [mergeParagraphsWithTab]. split_and!; [|done|..].
  - cbn [textContent childNodes] in *. rewrite !map_app, !concat_app.
    f_equal. cbn [map concat textContent app].
    induction cs' as [|c cs' IH]; [done|]. rewrite filter_cons.
    destruct (decide (named "w:pPr" c = false)) as [Hc|Hc].
    + cbn [map concat]. f_equal. apply IH. intros c' Hc'. apply Hprops.
      by right.
    + apply not_false_is_true in Hc. cbn [map concat].
      rewrite (Hprops c) by (done || apply list_elem_of_here). simpl.
      apply IH. intros c' Hc'. apply Hprops. by right.
  - intros name d. rewrite descendants_Elem.
    intros (c & Hc & Hd) Hn. rewrite !elem_of_app in Hc.
    destruct Hc as [Hc|[Hc|Hc]].
    + right. right. left. exists d. split; [|done].
      apply descendants_Elem. eauto.
    + apply list_elem_of_singleton in Hc as ->.
      destruct Hd as [->|Hd].
      * left. by apply bool_decide_eq_true in Hn.
      * apply descendants_Elem in Hd as (x & ->%list_elem_of_singleton & Hd).
        destruct Hd as [->|Hd]; [|by apply elem_of_nil in Hd].
        right. left. by apply bool_decide_eq_true in Hn.
    + apply list_elem_of_filter in Hc as [_ Hc].
      right. right. right. exists d. split; [|done].
      apply descendants_Elem. eauto.
  - intros c Hc Hn. cbn [childNodes] in Hc. rewrite !elem_of_app in Hc.
    destruct Hc as [Hc|[Hc|Hc]].
    + by right.
    + apply list_elem_of_singleton in Hc as ->. done.
    + apply list_elem_of_filter in Hc as [Hc _]. congruence.
Qed.

Lemma merged_without_tabs pDest pSource :
  isElement pDest = true → isElement pSource = true →
  (∀ d, d ∈ descendants pDest → named "w:tabs" d = false) →
  (∀ d, d ∈ descendants pSource → named "w:tabs" d = false) →
  ∀ d, d ∈ descendants (mergeParagraphsWithTab pDest pSource) →
       named "w:tabs" d = false.
Proof.
  intros Hd Hs Hdest Hsource d Hin.
  destruct (named "w:tabs" d) eqn:Hn; [|done].
  destruct pDest as [data|nm attrs cs]; [done|].
  destruct pSource as [data|nm' attrs' cs']; [done|].
  cbn [mergeParagraphsWithTab childNodes] in Hin.
  apply descendants_Elem in Hin as (c & Hc & Hdc).
  rewrite !elem_of_app in Hc. destruct Hc as [Hc|[Hc|Hc]].
  - rewrite <-Hn. apply Hdest, descendants_Elem. eauto.
  - apply list_elem_of_singleton in Hc as ->. destruct Hdc as [->|Hdc]; [done|].
    apply descendants_Elem in Hdc as (x & ->%list_elem_of_singleton & Hdc).
    destruct Hdc as [->|Hdc]; [done|]. by apply elem_of_nil in Hdc.
  - apply list_elem_of_filter in Hc as [_ Hc].
    rewrite <-Hn. apply Hsource, descendants_Elem. eauto.
Qed.

(** X12. When the nodes of a question are elements without tab stops of
    their own whose paragraph properties hold no text,
    [reformatMCQLayout] returns a list and loses no text: the texts of the
    returned paragraphs, put together, are the texts of the nodes, in order.
    A list that has not exactly four nodes is returned as it is; four nodes
    become one, two or four paragraphs when the longest of them is at most
    10, at most 30 or more than 30 long. *)
Theorem reformatMCQLayout_keeps_text (nodes : list Node) :
  Forall (λ n, isElement n = true) nodes →
  (∀ n d, n ∈ nodes → d ∈ descendants n → named "w:tabs" d = false) →
  (∀ n c, n ∈ nodes → c ∈ childNodes n → named "w:pPr" c = true →
          textContent c = []) →
  ∃ out,
    reformatMCQLayout nodes = Some out
    ∧ concat (map textContent out) = concat (map textContent nodes)
    ∧ (length nodes ≠ 4 → out = nodes)
    ∧ (length nodes = 4 →
       length out
       = if bool_decide (foldr max 0 (map optionWeight nodes) ≤ 10) then 1
         else if bool_decide (foldr max 0 (map optionWeight nodes) ≤ 30)
              then 2 else 4).
Proof.
  intros Helem Htabs Hprops.
  destruct nodes as [|n0 [|n1 [|n2 [|n3 [|n4 rest]]]]];
    try (eexists; split_and!; [reflexivity|done|done|by simpl]).
  assert (isElement n0 = true ∧ isElement n1 = true
          ∧ isElement n2 = true ∧ isElement n3 = true) as (E0 & E1 & E2 & E3).
  { by repeat (apply Forall_cons in Helem as [? Helem]). }
  assert (∀ n, n ∈ [n0; n1; n2; n3] →
            ∀ d, d ∈ descendants n → named "w:tabs" d = false) as Htabs'
    by (intros n Hn d; by apply Htabs).
  assert (∀ n, n ∈ [n0; n1; n2; n3] →
            ∀ c, c ∈ childNodes n → named "w:pPr" c = true →
                 textContent c = []) as Hprops'
    by (intros n Hn c; by apply Hprops).
  assert (n0 ∈ [n0; n1; n2; n3]) as I0 by (by repeat constructor).
  assert (n1 ∈ [n0; n1; n2; n3]) as I1 by (by repeat constructor).
  assert (n2 ∈ [n0; n1; n2; n3]) as I2 by (by repeat constructor).
  assert (n3 ∈ [n0; n1; n2; n3]) as I3 by (by repeat constructor).
  unfold reformatMCQLayout.
  replace (forallb isElement [n0; n1; n2; n3]) with true
    by (simpl; by rewrite E0, E1, E2, E3).
  cbv zeta.
  destruct (mergeParagraphsWithTab_spec n0 n1 E0 E1 (Hprops' n1 I1))
    as (T01 & E01 & _).
  pose proof (merged_without_tabs n0 n1 E0 E1 (Htabs' n0 I0) (Htabs' n1 I1))
    as N01.
  case_bool_decide as H10; [|case_bool_decide as H30].
  - destruct (mergeParagraphsWithTab_spec _ n2 E01 E2 (Hprops' n2 I2))
      as (T012 & E012 & _).
    pose proof (merged_without_tabs _ n2 E01 E2 N01 (Htabs' n2 I2)) as N012.
    destruct (mergeParagraphsWithTab_spec _ n3 E012 E3 (Hprops' n3 I3))
      as (T0123 & E0123 & _).
    pose proof (merged_without_tabs _ n3 E012 E3 N012 (Htabs' n3 I3)) as N.
    destruct (setupParagraphTab_text _ [2250; 4500; 6750]%Z N)
      as (base & -> & Hbase).
    eexists. split; [done|]. split_and!; [|done..].
    cbn [map concat]. rewrite Hbase, T0123, T012, T01.
    by rewrite !app_nil_r, <-!app_assoc.
  - destruct (mergeParagraphsWithTab_spec n2 n3 E2 E3 (Hprops' n3 I3))
      as (T23 & E23 & _).
    pose proof (merged_without_tabs n2 n3 E2 E3 (Htabs' n2 I2) (Htabs' n3 I3))
      as N23.
    destruct (setupParagraphTab_text _ [4500%Z] N01) as (row1 & -> & Hrow1).
    destruct (setupParagraphTab_text _ [4500%Z] N23) as (row2 & -> & Hrow2).
    eexists. split; [done|]. split_and!; [|done..].
    cbn [map concat]. rewrite Hrow1, Hrow2, T01, T23.
    by rewrite !app_nil_r, <-!app_assoc.
  - eexists. by split_and!.
Qed.

(** ** The answer read after the layout *)

Lemma questionStart_letters text :
  isQuestionStart text = true →
  ∃ ws c0 c1 rest,
    text = ws ++ c0 :: c1 :: rest
    ∧ Forall (λ c, isSpace c = true) ws
    ∧ isOptionLetter c0 = true
    ∧ isSpace c1 = false ∧ isSeparator c1 = false.
Proof.
  unfold isQuestionStart, testQuestionStart.
  intros [m Hm]%bool_decide_eq_true.
  destruct (trimStart_spec text) as (ws & Ht & Hws & Hhead).
  revert Ht Hm Hhead. generalize (trimStart text) as r0.
  intros r0 Ht Hm Hhead.
  exists ws.
  assert (∃ w r, w ∈ ["Câu"; "Bài"; "Câu hỏi"]%string
                 ∧ ciPrefix (ci w) r0 = Some r) as (w & r & Hw & Hr).
  { unfold matchQuestionStart in Hm.
    assert (spanClass isSpace r0 = ([], r0)) as Hsp.
    { destruct r0 as [|c r0]; [done|]. simpl.
      by rewrite (Hhead c eq_refl). }
    rewrite Hsp in Hm.
    assert (∀ w x, questionWord w r0 = Some x →
              ∃ r, ciPrefix (ci w) r0 = Some r) as Hword.
    { intros w x. unfold questionWord.
      destruct (ciPrefix (ci w) r0) as [r|]; [by eexists|done]. }
    destruct (questionWord "Câu" r0) as [x|] eqn:H1.
    { destruct (Hword _ _ H1) as [r Hr]. exists "Câu"%string, r.
      split; [by repeat constructor|done]. }
    destruct (questionWord "Bài" r0) as [x|] eqn:H2.
    { destruct (Hword _ _ H2) as [r Hr]. exists "Bài"%string, r.
      split; [by repeat constructor|done]. }
    destruct (questionWord "Câu hỏi" r0) as [x|] eqn:H3; [|done].
    destruct (Hword _ _ H3) as [r Hr]. exists "Câu hỏi"%string, r.
    split; [by repeat constructor|done]. }
  assert (∃ a b tail,
    ci w = a :: b :: tail
    ∧ ∀ c0 c1, ciChar a c0 = true → ciChar b c1 = true →
        isOptionLetter c0 = true ∧ isSpace c1 = false
        ∧ isSeparator c1 = false) as (a & b & tail & Hci & Hab).
  { rewrite !elem_of_cons, elem_of_nil in Hw.
    destruct Hw as [->|[->|[->|[]]]];
      (eexists _, _, _; split; [by vm_compute|]);
      intros c0 c1; unfold ciChar; cbn [fst snd];
      intros [->%N.eqb_eq| ->%N.eqb_eq]%orb_true_iff
             [->%N.eqb_eq| ->%N.eqb_eq]%orb_true_iff; by vm_compute. }
  rewrite Hci in Hr. destruct r0 as [|c0 [|c1 rest]]; simpl in Hr; try done.
  { by destruct (ciChar a c0). }
  destruct (ciChar a c0) eqn:Ha; [|done].
  destruct (ciChar b c1) eqn:Hb; [|done].
  exists c0, c1, rest. destruct (Hab c0 c1 Ha Hb) as (? & ? & ?).
  by split_and!.
Qed.

Lemma questionStart_no_option text rest :
  isQuestionStart text = true → testOptionPrefix (text ++ rest) = false.
Proof.
  intros (ws & c0 & c1 & tl & -> & Hws & Hc0 & Hc1 & Hsep)%questionStart_letters.
  unfold testOptionPrefix, matchOptionPrefix. rewrite <-app_assoc.
  rewrite spanClass_build; [|done|by apply letter_not_space].
  cbn [app]. rewrite Hc0. simpl. by rewrite Hc1, Hsep.
Qed.

(** X13. The answer is read after the layout.  When the first of four short
    nodes is the paragraph that starts the question, the first paragraph that
    [reformatMCQLayout] returns starts with the text of that paragraph and
    is no option node: the answer comes from the other paragraphs alone, and
    it is empty when the four nodes were put on one line. *)
Theorem answer_after_layout (n0 n1 n2 n3 : Node) (originalText : list N) :
  Forall (λ n, isElement n = true) [n0; n1; n2; n3] →
  (∀ n d, n ∈ [n0; n1; n2; n3] → d ∈ descendants n →
          named "w:tabs" d = false) →
  (∀ n c, n ∈ [n0; n1; n2; n3] → c ∈ childNodes n →
          named "w:pPr" c = true → textContent c = []) →
  isQuestionStart (textContent n0) = true →
  foldr max 0 (map optionWeight [n0; n1; n2; n3]) ≤ 30 →
  ∃ first others,
    reformatMCQLayout [n0; n1; n2; n3] = Some (first :: others)
    ∧ testOptionPrefix (textContent first) = false
    ∧ getAnswerFromNodes (first :: others) MCQ originalText
      = getAnswerFromNodes others MCQ originalText
    ∧ (foldr max 0 (map optionWeight [n0; n1; n2; n3]) ≤ 10 →
       others = []
       ∧ getAnswerFromNodes (first :: others) MCQ originalText = []).
Proof.
  intros Helem Htabs' Hprops' Hstart H30.
  assert (∀ n, n ∈ [n0; n1; n2; n3] →
            ∀ d, d ∈ descendants n → named "w:tabs" d = false) as Htabs
    by (intros n Hn d; by apply Htabs').
  assert (∀ n, n ∈ [n0; n1; n2; n3] →
            ∀ c, c ∈ childNodes n → named "w:pPr" c = true →
                 textContent c = []) as Hprops
    by (intros n Hn c; by apply Hprops').
  assert (isElement n0 = true ∧ isElement n1 = true
          ∧ isElement n2 = true ∧ isElement n3 = true) as (E0 & E1 & E2 & E3).
  { by repeat (apply Forall_cons in Helem as [? Helem]). }
  assert (n0 ∈ [n0; n1; n2; n3]) as I0 by (by repeat constructor).
  assert (n1 ∈ [n0; n1; n2; n3]) as I1 by (by repeat constructor).
  assert (n2 ∈ [n0; n1; n2; n3]) as I2 by (by repeat constructor).
  assert (n3 ∈ [n0; n1; n2; n3]) as I3 by (by repeat constructor).
  assert (∀ first others,
    testOptionPrefix (textContent first) = false →
    getAnswerFromNodes (first :: others) MCQ originalText
    = getAnswerFromNodes others MCQ originalText) as Hskip.
  { intros first others Hf. unfold getAnswerFromNodes. simpl. by rewrite Hf. }
  unfold reformatMCQLayout.
  replace (forallb isElement [n0; n1; n2; n3]) with true
    by (simpl; by rewrite E0, E1, E2, E3).
  cbv zeta.
  destruct (mergeParagraphsWithTab_spec n0 n1 E0 E1 (Hprops n1 I1))
    as (T01 & E01 & _).
  pose proof (merged_without_tabs n0 n1 E0 E1 (Htabs n0 I0) (Htabs n1 I1))
    as N01.
  case_bool_decide as H10.
  - destruct (mergeParagraphsWithTab_spec _ n2 E01 E2 (Hprops n2 I2))
      as (T012 & E012 & _).
    pose proof (merged_without_tabs _ n2 E01 E2 N01 (Htabs n2 I2)) as N012.
    destruct (mergeParagraphsWithTab_spec _ n3 E012 E3 (Hprops n3 I3))
      as (T0123 & E0123 & _).
    pose proof (merged_without_tabs _ n3 E012 E3 N012 (Htabs n3 I3)) as N.
    destruct (setupParagraphTab_text _ [2250; 4500; 6750]%Z N)
      as (base & -> & Hbase).
    assert (testOptionPrefix (textContent base) = false) as Hno.
    { rewrite Hbase, T0123, T012, T01, <-!app_assoc.
      by apply questionStart_no_option. }
    exists base, []. split; [done|]. split; [done|].
    split; [by apply Hskip|]. intros _. split; [done|].
    by rewrite Hskip.
  - rewrite bool_decide_true by done.
    destruct (mergeParagraphsWithTab_spec n2 n3 E2 E3 (Hprops n3 I3))
      as (T23 & E23 & _).
    pose proof (merged_without_tabs n2 n3 E2 E3 (Htabs n2 I2) (Htabs n3 I3))
      as N23.
    destruct (setupParagraphTab_text _ [4500%Z] N01) as (row1 & -> & Hrow1).
    destruct (setupParagraphTab_text _ [4500%Z] N23) as (row2 & -> & Hrow2).
    assert (testOptionPrefix (textContent row1) = false) as Hno.
    { rewrite Hrow1, T01. by apply questionStart_no_option. }
    exists row1, [row2]. split; [done|]. split; [done|].
    split; [by apply Hskip|]. intros Hle. lia.
Qed.

(** ** The sections of a variant *)

Lemma ofType_partition (qs : list QuestionBlock.t) :
  ofType MCQ qs ++ ofType TRUE_FALSE qs ++ ofType SHORT_ANSWER qs
  ++ ofType ESSAY qs ++ ofType UNKNOWN qs ≡ₚ qs.
Proof.
  unfold ofType. induction qs as [|q qs IH]; [done|].
  rewrite !filter_cons.
  set (m := filter _ qs) in *. set (t := filter _ qs) in *.
  set (s := filter _ qs) in *. set (e := filter _ qs) in *.
  set (u := filter _ qs) in *.
  destruct (QuestionBlock.type q) eqn:Ht;
    repeat (rewrite decide_True by done || rewrite decide_False by done);
    simpl; rewrite <-?Permutation_middle; by constructor.
Qed.

Lemma balancedKeys_length (random : nat → nat) (n k : nat) :
  length (generateBalancedKeys random n k).1 = n.
Proof.
  destruct (balanced_before_shuffle random n k)
    as (extra & k' & Hp & _ & _ & Hlen & _).
  rewrite Hp, length_app, length_base, Hlen.
  pose proof (Nat.div_mod_eq n 4). lia.
Qed.

Section SectionFacts.

Variable random : nat → nat.
Variables shuffleQuestions shuffleOptions : bool.

(** X14. The questions of a section group are rendered by type (MCQ,
    TRUE_FALSE, SHORT_ANSWER, ESSAY, then UNKNOWN), and the rendered list is
    a permutation of the group: no question is lost or repeated.  The
    questions of unknown type keep their order, and so does every list when
    the questions are not shuffled or the order of the group is kept; the MCQ
    questions get one balanced key each when the options are shuffled. *)
Theorem orderSectionGroup_permutes (groupQuestions : list QuestionBlock.t)
    (keepOrder : bool) (k : nat) :
  let o :=
    (orderSectionGroup random shuffleQuestions shuffleOptions groupQuestions
       keepOrder k).1 in
  rendered o ≡ₚ groupQuestions
  ∧ finalMCQs o ≡ₚ ofType MCQ groupQuestions
  ∧ finalTFs o ≡ₚ ofType TRUE_FALSE groupQuestions
  ∧ finalSAs o ≡ₚ ofType SHORT_ANSWER groupQuestions
  ∧ finalEssays o ≡ₚ ofType ESSAY groupQuestions
  ∧ unknowns o = ofType UNKNOWN groupQuestions
  ∧ (shuffleQuestions && negb keepOrder = false →
     rendered o
     = ofType MCQ groupQuestions ++ ofType TRUE_FALSE groupQuestions
       ++ ofType SHORT_ANSWER groupQuestions ++ ofType ESSAY groupQuestions
       ++ ofType UNKNOWN groupQuestions)
  ∧ length (balancedKeys o)
    = (if shuffleOptions then length (ofType MCQ groupQuestions) else 0).
Proof.
  unfold orderSectionGroup. cbv zeta.
  set (doShuffle := shuffleQuestions && negb keepOrder).
  assert (∀ (l : list QuestionBlock.t) k,
    ∃ l' k', (if doShuffle then shuffleArray random l k else (l, k)) = (l', k')
             ∧ l' ≡ₚ l ∧ (doShuffle = false → l' = l)) as Hstep.
  { intros l k0. destruct doShuffle.
    - destruct (shuffleArray random l k0) as [l' k'] eqn:Hs.
      exists l', k'. split; [done|]. split; [|done].
      change l' with (l', k').1. rewrite <-Hs. apply shuffleArray_Permutation.
    - by exists l, k0. }
  destruct (Hstep (ofType MCQ groupQuestions) k) as (m & k1 & -> & Hm & Hm').
  destruct (Hstep (ofType TRUE_FALSE groupQuestions) k1)
    as (t & k2 & -> & Ht & Ht').
  destruct (Hstep (ofType SHORT_ANSWER groupQuestions) k2)
    as (s & k3 & -> & Hs & Hs').
  destruct (Hstep (ofType ESSAY groupQuestions) k3)
    as (e & k4 & -> & He & He').
  assert (∃ keys k5,
    (if shuffleOptions then generateBalancedKeys random (length m) k4
     else ([], k4)) = (keys, k5)
    ∧ length keys = if shuffleOptions then length m else 0)
    as (keys & k5 & -> & Hkeys).
  { destruct shuffleOptions; [|by eexists _, _].
    destruct (generateBalancedKeys random (length m) k4) as [keys k5] eqn:Hk.
    exists keys, k5. split; [done|]. change keys with (keys, k5).1.
    rewrite <-Hk. apply balancedKeys_length. }
  cbn [fst]. unfold rendered. cbn [finalMCQs finalTFs finalSAs finalEssays
    unknowns balancedKeys].
  split_and!; try done.
  - rewrite Hm, Ht, Hs, He. apply ofType_partition.
  - intros Hd. by rewrite Hm', Ht', Hs', He'.
  - rewrite Hkeys. destruct shuffleOptions; [|done]. by rewrite Hm.
Qed.

End SectionFacts.

Lemma section_lists_partition (questions : list QuestionBlock.t) :
  (∀ q, q ∈ questions →
     inPartOne q && (inPartTwo q || inPartThree q || inPartFour q)
     || inPartTwo q && (inPartThree q || inPartFour q)
     || inPartThree q && inPartFour q = false) →
  p1Questions questions ++ p2Questions questions ++ p3Questions questions
  ++ p4Questions questions ++ otherQuestions questions ≡ₚ questions.
Proof.
  unfold p1Questions, p2Questions, p3Questions, p4Questions, otherQuestions.
  induction questions as [|q qs IH]; intros Hone; [done|].
  specialize (IH (λ q' Hq', Hone q' (list_elem_of_further _ _ _ Hq'))).
  specialize (Hone q (list_elem_of_here _ _)).
  rewrite !filter_cons.
  set (l1 := filter _ qs) in *. set (l2 := filter _ qs) in *.
  set (l3 := filter _ qs) in *. set (l4 := filter _ qs) in *.
  set (l5 := filter _ qs) in *.
  unfold inPartFour in *.
  destruct (inPartOne q), (inPartTwo q), (inPartThree q),
    (testPart _ (QuestionBlock.section q)),
    (testEssayWord (QuestionBlock.section q)); simpl in Hone; try done;
    simpl;
    repeat (rewrite decide_True by done || rewrite decide_False by done);
    simpl; rewrite <-?Permutation_middle; by constructor.
Qed.

(** X15. The section split of [generateVariants] drops no question: every
    question lies in one of the four part lists or in the list of the other
    questions, which holds exactly the questions that lie in no part list;
    each list keeps the questions in their order in the document.  When no
    question belongs to two parts, the five lists together are a permutation
    of the questions: each question is rendered once. *)
Theorem section_lists_cover (questions : list QuestionBlock.t) :
  (∀ q, q ∈ questions →
     q ∈ p1Questions questions ∨ q ∈ p2Questions questions
     ∨ q ∈ p3Questions questions ∨ q ∈ p4Questions questions
     ∨ q ∈ otherQuestions questions)
  ∧ (∀ q, q ∈ otherQuestions questions ↔
       q ∈ questions ∧ (q ∉ p1Questions questions)
       ∧ (q ∉ p2Questions questions) ∧ (q ∉ p3Questions questions)
       ∧ (q ∉ p4Questions questions))
  ∧ sublist (p1Questions questions) questions
  ∧ sublist (p2Questions questions) questions
  ∧ sublist (p3Questions questions) questions
  ∧ sublist (p4Questions questions) questions
  ∧ sublist (otherQuestions questions) questions
  ∧ ((∀ q, q ∈ questions →
        inPartOne q && (inPartTwo q || inPartThree q || inPartFour q)
        || inPartTwo q && (inPartThree q || inPartFour q)
        || inPartThree q && inPartFour q = false) →
     p1Questions questions ++ p2Questions questions ++ p3Questions questions
     ++ p4Questions questions ++ otherQuestions questions ≡ₚ questions).
Proof.
  split_and!; [| |apply sublist_filter..|apply section_lists_partition].
  - unfold p1Questions, p2Questions, p3Questions, p4Questions, otherQuestions.
    intros q Hq. rewrite !list_elem_of_filter. unfold inPartFour.
    destruct (inPartOne q), (inPartTwo q), (inPartThree q),
      (testPart _ (QuestionBlock.section q)),
      (testEssayWord (QuestionBlock.section q)); simpl; tauto.
  - unfold p1Questions, p2Questions, p3Questions, p4Questions, otherQuestions.
    intros q. rewrite !list_elem_of_filter. unfold inPartFour.
    destruct (inPartOne q), (inPartTwo q), (inPartThree q),
      (testPart _ (QuestionBlock.section q)),
      (testEssayWord (QuestionBlock.section q)); simpl;
      intuition congruence.
Qed.

(** ** An answer fixed by hand is the answer that is read *)

Lemma removeFirstChild_count name ps :
  Forall (λ c, isProp c = true) ps →
  match removeFirstChild name ps with
  | Updated ps' =>
    Forall (λ c, isProp c = true) ps'
    ∧ length (filter (λ c, named name c = true) ps)
      = S (length (filter (λ c, named name c = true) ps'))
  | Absent => filter (λ c, named name c = true) ps = []
  | Failed => False
  end.
Proof.
  induction 1 as [|c ps Hc Hps IH]; [done|]. simpl.
  rewrite filter_cons. destruct (named name c) eqn:Hn.
  - by rewrite decide_True.
  - rewrite decide_False by (by intros [=]).
    destruct c as [d|nm attrs [|? ?]]; try done.
    change (getElementsByTagName name (Elem nm attrs [])) with (@nil Node).
    destruct (removeFirstChild name ps) as [ps'| |]; simpl; [|done|done].
    destruct IH as [IH1 IH2]. split; [by constructor|].
    by rewrite filter_cons, decide_False by (by rewrite Hn; intros [=]).
Qed.

Lemma setUnderline_props nm attrs ps :
  Forall (λ c, isProp c = true) ps →
  length (filter (λ c, named "w:u" c = true) ps) ≤ 1 →
  ∃ ps',
    setUnderline (Elem nm attrs ps) = Some (Elem nm attrs ps')
    ∧ Forall (λ c, isProp c = true) ps'
    ∧ underlineOf (Elem nm attrs ps') = true.
Proof.
  intros Hps Hone. unfold setUnderline.
  pose proof (removeFirstChild_count "w:u" ps Hps) as Hrem.
  destruct (removeFirstChild "w:u" ps) as [ps1| |]; [| |done].
  - destruct Hrem as [H1 H2]. exists (ps1 ++ [newUnderline]).
    assert (Hp : Forall (λ c, isProp c = true) (ps1 ++ [newUnderline])).
    { apply Forall_app. split; [done|]. by apply Forall_singleton. }
    split_and!; [done..|].
    rewrite underlineOf_props, filter_app by done.
    assert (filter (λ c, named "w:u" c = true) ps1 = []) as ->.
    { apply length_zero_iff_nil. lia. }
    done.
  - exists (ps ++ [newUnderline]).
    assert (Hp : Forall (λ c, isProp c = true) (ps ++ [newUnderline])).
    { apply Forall_app. split; [done|]. by apply Forall_singleton. }
    split_and!; [done..|].
    by rewrite underlineOf_props, filter_app, Hrem by done.
Qed.

(** After [setUnderline] the first [w:rPr] of a run is underlined when it
    held at most one [w:u], as the format requires. *)
Lemma underlineRun_children rcs :
  Forall (λ c, simpleRunChild c = true) rcs →
  (∀ p, p ∈ propsNamed rcs → length (getElementsByTagName "w:u" p) ≤ 1) →
  match updateFirstList "w:rPr" setUnderline rcs with
  | Updated rcs' =>
    Forall (λ c, simpleRunChild c = true) rcs'
    ∧ concat (map textContent rcs') = concat (map textContent rcs)
    ∧ underlinedProps rcs' = true
  | Absent => propsNamed rcs = []
  | Failed => False
  end.
Proof.
  intros Hrcs. induction Hrcs as [|c rcs Hc Hrcs IH]; intros Hone; [done|].
  cbn [updateFirstList]. destruct (named "w:rPr" c) eqn:Hn.
  - destruct c as [d|nm attrs ps]; [done|].
    assert (Hin : Elem nm attrs ps ∈ propsNamed (Elem nm attrs ps :: rcs)).
    { unfold propsNamed. rewrite filter_cons, decide_True by done.
      apply list_elem_of_here. }
    apply Hone in Hin.
    apply bool_decide_eq_true in Hn. simpl in Hn. subst nm.
    simpl in Hc. apply forallb_Forall in Hc.
    rewrite props_descendants in Hin by done.
    destruct (setUnderline_props "w:rPr" attrs ps Hc Hin)
      as (ps' & -> & Hps' & Hu).
    split_and!.
    + constructor; [|done]. simpl. by apply forallb_Forall.
    + by rewrite !concat_text_cons, !elem_props_text.
    + unfold underlinedProps, propsNamed. rewrite filter_cons.
      by rewrite decide_True by done.
  - rewrite updateFirst_absent
      by (apply simpleRunChild_descendants; done || by repeat constructor).
    assert (Hnp : ∀ rest, propsNamed (c :: rest) = propsNamed rest).
    { intros rest. unfold propsNamed. rewrite filter_cons, decide_False; [done|].
      by rewrite Hn. }
    rewrite Hnp in Hone. specialize (IH Hone).
    destruct (updateFirstList "w:rPr" setUnderline rcs) as [rcs'| |];
      cbn [updMap]; [| |done].
    + destruct IH as (H1 & H2 & H3). split_and!.
      * by constructor.
      * by rewrite !concat_text_cons, H2.
      * unfold underlinedProps in *. by rewrite Hnp.
    + by rewrite Hnp.
Qed.

Lemma underlineRun_simple nm attrs rcs :
  Forall (λ c, simpleRunChild c = true) rcs →
  (∀ p, p ∈ propsNamed rcs → length (getElementsByTagName "w:u" p) ≤ 1) →
  ∃ rcs',
    underlineRun (Elem nm attrs rcs) = Some (Elem nm attrs rcs')
    ∧ Forall (λ c, simpleRunChild c = true) rcs'
    ∧ concat (map textContent rcs') = concat (map textContent rcs)
    ∧ underlinedProps rcs' = true.
Proof.
  intros Hrcs Hone. unfold underlineRun. rewrite run_props by done.
  destruct (propsNamed rcs) as [|p rest] eqn:Hp.
  - cbn [prependChild]. rewrite updateFirst_Elem.
    rewrite updateFirstList_named by done.
    destruct (setUnderline_props "w:rPr" [("xmlns:w"%string, W_NAMESPACE)] []
                (Forall_nil_2 _)) as (ps' & Hset & Hps' & Hu); [simpl; lia|].
    change (setUnderline newRunProps)
      with (setUnderline (Elem "w:rPr" [("xmlns:w"%string, W_NAMESPACE)] [])).
    rewrite Hset. simpl. eexists. split_and!; [done| | |].
    + constructor; [|done]. simpl. by apply forallb_Forall.
    + by rewrite concat_text_cons, elem_props_text.
    + unfold underlinedProps, propsNamed.
      by rewrite filter_cons, decide_True by done.
  - rewrite updateFirst_Elem.
    pose proof (underlineRun_children rcs Hrcs) as Hup.
    rewrite Hp in Hup. specialize (Hup Hone).
    destruct (updateFirstList "w:rPr" setUnderline rcs) as [rcs'| |];
      simpl; [|congruence|done].
    by exists rcs'.
Qed.

Lemma underlineRunsWithin_no_runs depth n :
  getElementsByTagName "w:r" n = [] → underlineRunsWithin depth n = Some n.
Proof.
  revert n. induction depth as [|depth IH]; intros n Hn; [done|].
  destruct n as [d|nm attrs cs]; [done|]. cbn [underlineRunsWithin].
  rewrite getElementsByTagName_Elem in Hn.
  assert (mapM (λ c, c' ← (if named "w:r" c then underlineRun c else Some c);
                     underlineRunsWithin depth c') cs = Some cs) as ->; [|done].
  induction cs as [|c cs IHcs]; [done|].
  cbn [map concat] in Hn. apply app_nil_inv in Hn as [Hc Hcs].
  apply app_nil_inv in Hc as [Hname Hc].
  cbn [mapM]. destruct (named "w:r" c); [done|]. cbn [mbind option_bind].
  rewrite (IH c Hc). cbn [mbind option_bind]. by rewrite (IHcs Hcs).
Qed.

Lemma underline_par_children depth cs :
  Forall (λ c, simpleParChild c = true) cs →
  Forall (λ c, ∀ d, d ∈ descendants c → named "w:rPr" d = true →
                    length (getElementsByTagName "w:u" d) ≤ 1) cs →
  ∃ cs',
    mapM (λ c, c' ← (if named "w:r" c then underlineRun c else Some c);
               underlineRunsWithin depth c') cs = Some cs'
    ∧ Forall (λ c, simpleParChild c = true) cs'
    ∧ concat (map textContent cs') = concat (map textContent cs)
    ∧ existsb runUnderlined (runsOf cs') = hasRun cs.
Proof.
  unfold hasRun.
  induction 1 as [|c cs Hc Hcs IH]; intros Hone.
  { by exists []. }
  apply Forall_cons in Hone as [Hone1 Hone].
  destruct (IH Hone) as (cs' & Hmap & Hcs' & Htext & Hu). clear IH.
  cbn [mapM]. destruct c as [d|nm attrs rcs]; [done|]. simpl in Hc.
  case_bool_decide as Hr.
  - subst nm. apply forallb_Forall in Hc.
    change (named "w:r" (Elem "w:r" attrs rcs)) with true. cbv iota.
    destruct (underlineRun_simple "w:r" attrs rcs Hc)
      as (rcs' & -> & H1 & H2 & H3).
    { intros p Hp. apply Hone1.
      - apply descendants_Elem. exists p. split; [|by left].
        by apply list_elem_of_filter in Hp as [_ ?].
      - by apply list_elem_of_filter in Hp as [? _]. }
    cbn [mbind option_bind].
    rewrite underlineRunsWithin_no_runs by (by apply run_no_runs).
    cbn [mbind option_bind]. rewrite Hmap. cbn [mbind option_bind mret option_ret].
    eexists. split_and!; [done| | |].
    + constructor; [|done]. simpl. by apply forallb_Forall.
    + rewrite !concat_text_cons, Htext. cbn [textContent]. by rewrite H2.
    + unfold runsOf. rewrite !filter_cons, !decide_True by done.
      cbn [existsb]. by rewrite runUnderlined_simple, H3.
  - change (inert ["w:r"; "w:t"]%string (Elem nm attrs rcs) = true) in Hc.
    assert (named "w:r" (Elem nm attrs rcs) = false) as Hn.
    { by apply (inert_named _ "w:r" _ Hc); repeat constructor. }
    rewrite Hn. cbn [mbind option_bind].
    rewrite underlineRunsWithin_no_runs
      by (by apply (inert_no_descendant _ "w:r" _ Hc); repeat constructor).
    cbn [mbind option_bind]. rewrite Hmap. cbn [mbind option_bind mret option_ret].
    assert (Hnr : ∀ rest, runsOf (Elem nm attrs rcs :: rest) = runsOf rest).
    { intros rest. unfold runsOf. rewrite filter_cons, decide_False; [done|].
      by rewrite Hn. }
    eexists. split_and!; [done| | |].
    + constructor; [|done]. simpl. by rewrite bool_decide_false.
    + by rewrite !concat_text_cons, Htext.
    + by rewrite !Hnr.
Qed.

Lemma text_needs_run cs :
  Forall (λ c, simpleParChild c = true) cs →
  concat (map textContent cs) ≠ [] → hasRun cs = true.
Proof.
  unfold hasRun. induction 1 as [|c cs Hc Hcs IH]; [done|].
  rewrite concat_text_cons. destruct c as [d|nm attrs rcs]; [done|].
  simpl in Hc. case_bool_decide as Hr.
  - subst nm. intros _. unfold runsOf. by rewrite filter_cons, decide_True.
  - change (inert ["w:r"; "w:t"]%string (Elem nm attrs rcs) = true) in Hc.
    rewrite (inert_text _ _ Hc). intros Ht.
    unfold runsOf in *. rewrite filter_cons, decide_False; [by apply IH|].
    rewrite (inert_named _ "w:r" _ Hc) by (by repeat constructor).
    by intros [=].
Qed.

Lemma underlineRuns_simple node :
  simplePar node = true →
  (∀ d, d ∈ descendants node → named "w:rPr" d = true →
        length (getElementsByTagName "w:u" d) ≤ 1) →
  ∃ node',
    underlineRuns node = Some node'
    ∧ simplePar node' = true
    ∧ textContent node' = textContent node
    ∧ (textContent node ≠ [] → hasUnderline node' = true).
Proof.
  destruct node as [d|nm attrs cs]; [done|]. cbn [simplePar].
  intros [Hnm Hcs%forallb_Forall]%andb_true_iff Hone.
  cbn [underlineRuns height underlineRunsWithin].
  destruct (underline_par_children
              (foldr (λ c h, height c `max` h) 0 cs) cs Hcs)
    as (cs' & -> & H1 & H2 & H3).
  { apply Forall_forall. intros c Hc d Hd Hn. apply Hone; [|done].
    apply descendants_Elem. exists c. split; [done|by right]. }
  exists (Elem nm attrs cs'). split_and!; [done| |done|].
  - simpl. rewrite Hnm. by apply forallb_Forall.
  - intros Ht. rewrite hasUnderline_simple, H3 by done.
    by apply text_needs_run.
Qed.

Lemma sameLetter_upper letter fixValue :
  isOptionLetter letter = true → sameLetter letter fixValue = true →
  ∃ c, fixValue = [c] ∧ isOptionLetter c = true
       ∧ toUpperLetter letter = toUpperLetter c.
Proof.
  unfold sameLetter. destruct fixValue as [|c [|? ?]]; try done.
  intros Hl [Hc Heq%N.eqb_eq]%andb_true_iff. exists c. split_and!; [done..|].
  unfold isOptionLetter, toUpperLetter, toLowerLetter, isUpperAD, isLowerAD
    in *.
  repeat match goal with
  | H : context [(?a <=? ?b)%N] |- _ => destruct (N.leb_spec a b)
  | |- context [(?a <=? ?b)%N] => destruct (N.leb_spec a b)
  end; simpl in *; try done; lia.
Qed.

Lemma option_text_not_empty text :
  testOptionPrefix text = true → text ≠ [].
Proof. by intros H ->. Qed.

Lemma underlineOptions_spec fixValue nodes :
  (∀ node, node ∈ nodes → testOptionPrefix (textContent node) = true →
     simplePar node = true) →
  (∀ node d, node ∈ nodes → d ∈ descendants node → named "w:rPr" d = true →
     length (getElementsByTagName "w:u" d) ≤ 1) →
  (∀ node, node ∈ nodes → hasUnderline node = false) →
  ∃ nodes' modified,
    underlineOptions fixValue nodes = Some (nodes', modified)
    ∧ modified = existsb (optionWithLetter fixValue) nodes
    ∧ (modified = false → nodes' = nodes)
    ∧ Forall2 (λ node node',
         textContent node' = textContent node
         ∧ hasUnderline node' = optionWithLetter fixValue node) nodes nodes'.
Proof.
  induction nodes as [|node nodes IH]; intros Hsimple Hone Hplain.
  { by exists [], false. }
  destruct IH as (rest' & modifiedRest & Hrest & Hmod & Hsame & Hall).
  { intros n Hn. apply Hsimple. by apply list_elem_of_further. }
  { intros n d Hn. apply Hone. by apply list_elem_of_further. }
  { intros n Hn. apply Hplain. by apply list_elem_of_further. }
  cbn [underlineOptions existsb]. unfold optionWithLetter at 1 3.
  pose proof (Hplain node (list_elem_of_here _ _)) as Hnode.
  destruct (matchOptionPrefix (textContent node)) as [m|] eqn:Hm.
  - destruct (sameLetter (om_letter m) fixValue) eqn:Hletter.
    + assert (Htest : testOptionPrefix (textContent node) = true).
      { unfold testOptionPrefix. rewrite Hm. by apply bool_decide_eq_true. }
      destruct (underlineRuns_simple node) as (node' & -> & _ & Htext & Hu).
      { by apply Hsimple; [apply list_elem_of_here|]. }
      { intros d. apply Hone, list_elem_of_here. }
      cbn [mbind option_bind]. rewrite Hrest. cbn [mbind option_bind].
      exists (node' :: rest'), true. split_and!; [done|done|done|].
      constructor; [|done]. split; [done|].
      unfold optionWithLetter. rewrite Hm, Hletter.
      by apply Hu, option_text_not_empty.
    + cbn [mbind option_bind]. rewrite Hrest. cbn [mbind option_bind].
      exists (node :: rest'), modifiedRest. split_and!; [done|done| |].
      * intros Hf. by rewrite (Hsame Hf).
      * constructor; [|done]. split; [done|].
        unfold optionWithLetter. by rewrite Hm, Hletter.
  - cbn [mbind option_bind]. rewrite Hrest. cbn [mbind option_bind].
    exists (node :: rest'), modifiedRest. split_and!; [done|done| |].
    + intros Hf. by rewrite (Hsame Hf).
    + constructor; [|done]. split; [done|].
      unfold optionWithLetter. by rewrite Hm.
Qed.

Lemma scan_fixed fixValue labels nodes nodes' :
  Forall2 (λ node node',
    textContent node' = textContent node
    ∧ hasUnderline node' = optionWithLetter fixValue node) nodes nodes' →
  existsb (optionWithLetter fixValue) nodes = true →
  ∃ c, fixValue = [c] ∧ isOptionLetter c = true
       ∧ ∀ i acc, scanAnswer labels nodes' i acc = [toUpperLetter c].
Proof.
  induction 1 as [|node node' nodes nodes' [Htext Hu] _ IH]; [done|].
  cbn [existsb scanAnswer]. rewrite Htext, Hu.
  unfold optionWithLetter at 1 3. unfold testOptionPrefix.
  destruct (matchOptionPrefix (textContent node)) as [m|] eqn:Hm.
  - rewrite bool_decide_true by done.
    destruct (sameLetter (om_letter m) fixValue) eqn:Hletter.
    + intros _.
      destruct (sameLetter_upper (om_letter m) fixValue) as (c & -> & Hc & Heq);
        [by eapply matchOptionPrefix_letter|done|].
      exists c. split_and!; [done..|]. intros i acc. by rewrite Heq.
    + cbn [orb]. intros Hex. destruct (IH Hex) as (c & -> & Hc & Hscan).
      exists c. split_and!; [done..|]. intros i acc. apply Hscan.
  - rewrite bool_decide_false by (by intros [? ?]).
    cbn [orb]. intros Hex. destruct (IH Hex) as (c & -> & Hc & Hscan).
    exists c. split_and!; [done..|]. intros i acc. apply Hscan.
Qed.

(** X16. The answer of an MCQ or TRUE_FALSE question fixed by hand is the
    answer that is read back.  For a question none of whose nodes is
    underlined, whose options are plain paragraphs and whose run properties
    hold at most one underline each, the loop of [applyFixToQuestion] ends
    without an exception and keeps the text of every node; it reports a
    change exactly when some option carries the letter of [fixValue], and
    changes nothing otherwise.  After a change [getAnswerFromNodes] reads the
    upper case of that letter as the answer of an MCQ question, and for a
    TRUE_FALSE question the mark of truth on the options with that letter and
    the mark of falsehood on the others. *)
Theorem fixed_answer_is_read (nodes : list Node)
    (fixValue originalText : list N) :
  (∀ node, node ∈ nodes → testOptionPrefix (textContent node) = true →
     simplePar node = true) →
  (∀ node d, node ∈ nodes → d ∈ descendants node → named "w:rPr" d = true →
     length (getElementsByTagName "w:u" d) ≤ 1) →
  (∀ node, node ∈ nodes → hasUnderline node = false) →
  ∃ nodes' modified,
    underlineOptions fixValue nodes = Some (nodes', modified)
    ∧ map textContent nodes' = map textContent nodes
    ∧ modified = existsb (optionWithLetter fixValue) nodes
    ∧ (modified = false → nodes' = nodes)
    ∧ (modified = true →
       ∃ c, fixValue = [c] ∧ isOptionLetter c = true
            ∧ getAnswerFromNodes nodes' MCQ originalText = [toUpperLetter c])
    ∧ getAnswerFromNodes nodes' TRUE_FALSE originalText
      = concat (map (λ node,
          if testOptionPrefix (textContent node) then
            if optionWithLetter fixValue node then js "Đ" else js "S"
          else []) nodes).
Proof.
  intros Hsimple Hone Hplain.
  destruct (underlineOptions_spec fixValue nodes Hsimple Hone Hplain)
    as (nodes' & modified & Hrun & Hmod & Hsame & Hall).
  exists nodes', modified. split_and!; [done| |done|done| |].
  - clear -Hall. induction Hall as [|???? [Htext _] _ IH]; [done|].
    cbn [map]. by rewrite IH, Htext.
  - intros ->.
    destruct (scan_fixed fixValue [js "A"; js "B"; js "C"; js "D"] nodes nodes'
                Hall (eq_sym Hmod)) as (c & -> & Hc & Hscan).
    exists c. split_and!; [done..|]. apply Hscan.
  - cbn [getAnswerFromNodes]. clear -Hall.
    induction Hall as [|???? [Htext Hu] _ IH]; [done|].
    cbn [map concat]. by rewrite IH, Htext, Hu.
Qed.

Lemma fixed_answer_is_read_witness :
  ∃ nodes',
    underlineOptions (js "b") unmarkedQuestion = Some (nodes', true)
    ∧ getAnswerFromNodes nodes' MCQ [] = js "B".
Proof.
  destruct (fixed_answer_is_read unmarkedQuestion (js "b") [])
    as (nodes' & modified & Hrun & _ & Hmod & _ & Hanswer & _).
  - intros node Hin _. unfold unmarkedQuestion in Hin.
    rewrite !elem_of_cons, elem_of_nil in Hin.
    destruct Hin as [->|[->|[->|[->|[]]]]]; vm_compute; reflexivity.
  - intros node d Hin. unfold unmarkedQuestion in Hin.
    rewrite !elem_of_cons, elem_of_nil in Hin.
    destruct Hin as [->|[->|[->|[->|[]]]]]; intros Hd Hn;
      unfold paragraph, plainRun in Hd;
      cbn [descendants map concat app] in Hd;
      rewrite !elem_of_cons, elem_of_nil in Hd;
      destruct_or!; try done; subst d;
      first [discriminate Hn | vm_compute; lia].
  - intros node Hin. unfold unmarkedQuestion in Hin.
    rewrite !elem_of_cons, elem_of_nil in Hin.
    destruct Hin as [->|[->|[->|[->|[]]]]]; vm_compute; reflexivity.
  - assert (modified = true) as -> by (rewrite Hmod; vm_compute; reflexivity).
    exists nodes'. split; [done|].
    destruct (Hanswer eq_refl) as (c & [= <-] & _ & ->). reflexivity.
Defined.

(** ** The footer files of the archive *)

Lemma stripPrefix_spec p s r : stripPrefix p s = Some r ↔ s = p ++ r.
Proof.
  revert s. induction p as [|a p IH]; intros s; simpl.
  - split; [by intros [= ->]|by intros ->].
  - destruct s as [|b s]; [done|].
    destruct (N.eqb_spec a b) as [->|Hne].
    + rewrite IH. split; [by intros ->|by intros [= ->]].
    + split; [done|]. by intros [= <- _].
Qed.

Lemma includes_spec needle hay :
  includes needle hay = true ↔ ∃ a b, hay = a ++ needle ++ b.
Proof.
  induction hay as [|c hay IH]; simpl.
  - destruct (stripPrefix needle []) as [r|] eqn:Hs.
    + apply stripPrefix_spec in Hs. split; [|done]. intros _. by exists [], r.
    + split; [done|]. intros (a & b & Hab).
      symmetry in Hab. apply app_nil_inv in Hab as [-> Hab].
      assert (stripPrefix needle [] = Some b) as Hs'
        by (by apply stripPrefix_spec).
      congruence.
  - destruct (stripPrefix needle (c :: hay)) as [r|] eqn:Hs.
    + apply stripPrefix_spec in Hs. split; [|done]. intros _. by exists [], r.
    + rewrite IH. split.
      * intros (a & b & ->). by exists (c :: a), b.
      * intros ([|c' a] & b & Hab).
        -- assert (stripPrefix needle (c :: hay) = Some b) as Hs'
             by (by apply stripPrefix_spec).
           congruence.
        -- injection Hab as -> ->. by exists a, b.
Qed.

Lemma replaceFirst_spec pattern replacement s :
  includes pattern s = true →
  ∃ a b, s = a ++ pattern ++ b
         ∧ replaceFirst pattern replacement s = a ++ replacement ++ b.
Proof.
  induction s as [|c s IH]; simpl.
  - destruct (stripPrefix pattern []) as [r|] eqn:Hs; [|done].
    apply stripPrefix_spec in Hs. intros _. by exists [], r.
  - destruct (stripPrefix pattern (c :: s)) as [r|] eqn:Hs.
    + apply stripPrefix_spec in Hs. intros _. by exists [], r.
    + intros (a & b & -> & ->)%IH. by exists (c :: a), b.
Qed.

Lemma replaceFirst_absent pattern replacement s :
  includes pattern s = false → replaceFirst pattern replacement s = s.
Proof.
  induction s as [|c s IH]; simpl.
  - by destruct (stripPrefix pattern []).
  - destruct (stripPrefix pattern (c :: s)); [done|]. by intros ->%IH.
Qed.

Lemma override_declares_footer a b :
  includes footerPartName (a ++ (overrideStr ++ js "</Types>") ++ b) = true.
Proof.
  apply includes_spec. unfold overrideStr.
  exists (a ++ js "<Override "). eexists.
  rewrite <-!app_assoc. reflexivity.
Qed.

Section FooterFacts.

Variable parseFromString : list N → Node.

(** X17. [setupFooterFiles] returns a relationship id that is not empty, so
    that its caller always writes the footer reference.  It adds and removes
    no file and touches only the content types and the relationships of the
    document.  Content types that close with the end tag of [Types] declare
    the footer part after the call; a second call leaves them as the first
    one wrote them.  The relationships are unchanged, or the id is
    "rIdFooterGen1" and a relationship with that id was put before the first
    end tag of [Relationships]. *)
Theorem setupFooterFiles_spec (zip : gmap string (list N)) :
  let zip' := (setupFooterFiles parseFromString zip).1 in
  let footerRid := (setupFooterFiles parseFromString zip).2 in
  footerRid ≠ []
  ∧ (∀ path, is_Some (zip' !! path) ↔ is_Some (zip !! path))
  ∧ (∀ path, path ≠ contentTypesPath → path ≠ relsPath →
       zip' !! path = zip !! path)
  ∧ (∀ contentTypesXml,
       zip !! contentTypesPath = Some contentTypesXml →
       includes (js "</Types>") contentTypesXml = true →
       ∃ declared,
         zip' !! contentTypesPath = Some declared
         ∧ includes footerPartName declared = true)
  ∧ (setupFooterFiles parseFromString zip').1 !! contentTypesPath
    = zip' !! contentTypesPath
  ∧ (∀ relsXml,
       zip !! relsPath = Some relsXml →
       zip' !! relsPath = Some relsXml
       ∨ footerRid = js "rIdFooterGen1"
         ∧ ∃ a b,
             relsXml = a ++ js "</Relationships>" ++ b
             ∧ zip' !! relsPath
               = Some (a ++ newRel (js "rIdFooterGen1")
                         ++ js "</Relationships>" ++ b)).
Proof.
  assert (Hpaths : contentTypesPath ≠ relsPath) by done.
  (* the first half of the call *)
  set (declare := λ zip : gmap string (list N),
    match zip !! contentTypesPath with
    | Some contentTypesXml =>
      if negb (includes footerPartName contentTypesXml)
         && includes (js "</Types>") contentTypesXml
      then
        <[contentTypesPath :=
            replaceFirst (js "</Types>") (overrideStr ++ js "</Types>")
              contentTypesXml]> zip
      else zip
    | None => zip
    end).
  assert (Hfirst : ∀ z,
    (∀ path, is_Some (declare z !! path) ↔ is_Some (z !! path))
    ∧ (∀ path, path ≠ contentTypesPath → declare z !! path = z !! path)
    ∧ (∀ x, z !! contentTypesPath = Some x →
         includes (js "</Types>") x = true →
         ∃ declared, declare z !! contentTypesPath = Some declared
                     ∧ includes footerPartName declared = true)
    ∧ (∀ x, z !! contentTypesPath = Some x →
         includes footerPartName x = true ∨ includes (js "</Types>") x = false →
         declare z = z)
    ∧ (z !! contentTypesPath = None → declare z = z)).
  { intros z. unfold declare.
    destruct (z !! contentTypesPath) as [x|] eqn:Hx; [|by split_and!].
    destruct (includes footerPartName x) eqn:Hdecl; cbn [negb andb].
    { split_and!; try done. intros ? [= <-] _. by exists x. }
    destruct (includes (js "</Types>") x) eqn:Hend.
    - split_and!.
      + intros path. destruct (decide (path = contentTypesPath)) as [->|Hne].
        * rewrite lookup_insert_eq, Hx. by split.
        * by rewrite lookup_insert_ne.
      + intros path Hne. by rewrite lookup_insert_ne.
      + intros ? [= <-] _. rewrite lookup_insert_eq. eexists. split; [done|].
        destruct (replaceFirst_spec (js "</Types>")
                    (overrideStr ++ js "</Types>") x Hend) as (a & b & _ & ->).
        apply override_declares_footer.
      + intros ? [= <-] [?|?]; congruence.
      + done.
    - split_and!; try done. intros ? [= <-]. congruence. }
  (* the second half of the call *)
  assert (Hsecond : ∀ z,
    setupFooterFiles parseFromString z
    = match declare z !! relsPath with
      | Some relsXml =>
        match head (filter (λ r, isFooterTarget r = true)
                (getElementsByTagName "Relationship" (parseFromString relsXml)))
        with
        | Some relationship =>
          (declare z,
           match getAttribute "Id" relationship with
           | Some (c :: id) => c :: id
           | _ => js "rIdFooter1"
           end)
        | None =>
          (if includes (js "</Relationships>") relsXml
           then
             <[relsPath :=
                 replaceFirst (js "</Relationships>")
                   (newRel (js "rIdFooterGen1") ++ js "</Relationships>")
                   relsXml]> (declare z)
           else declare z,
           js "rIdFooterGen1")
        end
      | None => (declare z, js "rIdFooter1")
      end) by reflexivity.
  assert (Hcall : ∀ z,
    (setupFooterFiles parseFromString z).2 ≠ []
    ∧ (∀ path, is_Some ((setupFooterFiles parseFromString z).1 !! path)
               ↔ is_Some (declare z !! path))
    ∧ (∀ path, path ≠ relsPath →
         (setupFooterFiles parseFromString z).1 !! path = declare z !! path)
    ∧ (∀ relsXml, declare z !! relsPath = Some relsXml →
         (setupFooterFiles parseFromString z).1 !! relsPath = Some relsXml
         ∨ (setupFooterFiles parseFromString z).2 = js "rIdFooterGen1"
           ∧ ∃ a b,
               relsXml = a ++ js "</Relationships>" ++ b
               ∧ (setupFooterFiles parseFromString z).1 !! relsPath
                 = Some (a ++ newRel (js "rIdFooterGen1")
                           ++ js "</Relationships>" ++ b))).
  { intros z. rewrite Hsecond.
    destruct (declare z !! relsPath) as [relsXml|] eqn:Hrels;
      [|by split_and!].
    destruct (head _) as [relationship|].
    { cbn [fst snd]. split_and!; try done.
      - by destruct (getAttribute "Id" relationship) as [[|? ?]|].
      - intros ? [= <-]. by left. }
    cbn [fst snd]. destruct (includes (js "</Relationships>") relsXml) eqn:Hend.
    - split_and!; [done| | |].
      + intros path. destruct (decide (path = relsPath)) as [->|Hne].
        * rewrite lookup_insert_eq, Hrels. by split.
        * by rewrite lookup_insert_ne.
      + intros path Hne. by rewrite lookup_insert_ne.
      + intros ? [= <-]. right. split; [done|].
        destruct (replaceFirst_spec (js "</Relationships>")
                    (newRel (js "rIdFooterGen1") ++ js "</Relationships>")
                    relsXml Hend) as (a & b & -> & Hrep).
        exists a, b. split; [done|].
        rewrite lookup_insert_eq, Hrep. by rewrite <-!app_assoc.
    - split_and!; try done. intros ? [= <-]. by left. }
  intros zip' footerRid. subst zip' footerRid.
  destruct (Hfirst zip) as (F1 & F2 & F3 & F4 & F5).
  destruct (Hcall zip) as (C1 & C2 & C3 & C4).
  split_and!.
  - done.
  - intros path. by rewrite C2, F1.
  - intros path H1 H2. by rewrite (C3 path), (F2 path).
  - intros x Hx Hend. rewrite (C3 contentTypesPath) by done. by apply (F3 x).
  - set (z1 := (setupFooterFiles parseFromString zip).1) in *.
    destruct (Hcall z1) as (_ & _ & D3 & _).
    rewrite (D3 contentTypesPath) by done.
    assert (declare z1 = z1) as ->; [|done].
    destruct (Hfirst z1) as (_ & _ & _ & G4 & G5).
    destruct (z1 !! contentTypesPath) as [x1|] eqn:Hx1; [|by apply G5].
    apply (G4 x1); [done|].
    rewrite (C3 contentTypesPath) in Hx1 by done.
    destruct (zip !! contentTypesPath) as [x|] eqn:Hx.
    + destruct (includes (js "</Types>") x) eqn:Hend.
      * left. destruct (F3 x eq_refl Hend) as (d & Hd & Hdecl). congruence.
      * right. rewrite (F4 x eq_refl (or_intror Hend)) in Hx1. congruence.
    + rewrite (F5 eq_refl) in Hx1. congruence.
  - intros relsXml Hrels. apply C4. by rewrite (F2 relsPath).
Qed.

End FooterFacts.

(** ** The labels of the questions *)

Lemma digit_not_space d : isDigit d = true → isSpace d = false.
Proof.
  unfold isDigit, isSpace.
  intros [H1%N.leb_le H2%N.leb_le]%andb_true_iff.
  repeat match goal with
  | |- context [(?a <=? ?b)%N] => destruct (N.leb_spec a b); try lia
  | |- context [(?a =? ?b)%N] => destruct (N.eqb_spec a b); try lia
  end; done.
Qed.

Lemma last_trimStart s d :
  last s = Some d → isSpace d = false → last (trimStart s) = Some d.
Proof.
  unfold trimStart. intros Hl Hd.
  destruct (spanClass_spec isSpace s) as (Hs & Hws & _).
  rewrite Hs, last_app in Hl.
  destruct (last (spanClass isSpace s).2) as [d'|]; [done|].
  apply last_Some_elem_of in Hl. rewrite Forall_forall in Hws.
  apply Hws in Hl. congruence.
Qed.

Lemma trimEnd_last s d :
  last s = Some d → isSpace d = false → trimEnd s = s.
Proof.
  intros [s' ->]%last_Some Hd. unfold trimEnd, trimStart.
  rewrite reverse_snoc. simpl. rewrite Hd. simpl.
  by rewrite reverse_cons, reverse_involutive.
Qed.

Lemma ciPrefix_last w l r d :
  forallb (λ p, negb (isDigit p.1) && negb (isDigit p.2)) w = true →
  ciPrefix w l = Some r → last l = Some d → isDigit d = true →
  last r = Some d.
Proof.
  revert l. induction w as [|p w IH]; intros l Hw; simpl.
  { by intros [= ->]. }
  simpl in Hw.
  apply andb_true_iff in Hw
    as [[H1%negb_true_iff H2%negb_true_iff]%andb_true_iff Hw].
  destruct l as [|c l]; [done|].
  destruct (ciChar p c) eqn:Hc; [|done]. intros Hr Hl Hd.
  destruct l as [|c' l].
  - simpl in Hl. injection Hl as ->. unfold ciChar in Hc.
    apply orb_true_iff in Hc as [->%N.eqb_eq| ->%N.eqb_eq]; congruence.
  - rewrite last_cons_cons in Hl. by apply (IH (c' :: l)).
Qed.

Lemma questionNumber_shape s num rest :
  questionNumber s = Some (num, rest) →
  s = num ++ rest
  ∧ ∃ d, last num = Some d ∧ isDigit d = true.
Proof.
  unfold questionNumber.
  destruct (spanClass_spec isSpace s) as (Hs & _ & _).
  destruct (spanClass isSpace s) as [sp r1]. simpl in Hs.
  destruct (spanClass_spec isDigit r1) as (Hr & Hdigits & _).
  destruct (spanClass isDigit r1) as [digits r2]. simpl in Hr, Hdigits.
  destruct digits as [|d0 digits]; [done|]. intros [= <- <-].
  split; [by rewrite Hs, Hr, app_assoc|].
  destruct (last (d0 :: digits)) as [d|] eqn:Hl; [|by apply last_None in Hl].
  exists d. split; [by rewrite last_app, Hl|].
  apply last_Some_elem_of in Hl. rewrite Forall_forall in Hdigits.
  by apply Hdigits.
Qed.

Lemma questionWord_shape w s g rest :
  questionWord w s = Some (g, rest) →
  ∃ d, last g = Some d ∧ isDigit d = true.
Proof.
  unfold questionWord. destruct (ciPrefix (ci w) s) as [r|]; [|done].
  cbn [mbind option_bind].
  destruct (questionNumber r) as [[num rest']|] eqn:Hnum; [|done].
  cbn [mbind option_bind]. intros [= <- <-].
  destruct (questionNumber_shape _ _ _ Hnum) as (_ & d & Hl & Hd).
  exists d. split; [|done]. by rewrite last_app, Hl.
Qed.

Lemma matchQuestionStart_shape text g1 g2 rest :
  matchQuestionStart text = Some (g1, g2, rest) →
  ∃ d, last g1 = Some d ∧ isDigit d = true.
Proof.
  unfold matchQuestionStart.
  destruct (spanClass isSpace text) as [lead r0].
  set (word := match questionWord "Câu" r0 with
               | Some m => Some m
               | None =>
                 match questionWord "Bài" r0 with
                 | Some m => Some m
                 | None => questionWord "Câu hỏi" r0
                 end
               end).
  assert (∀ g r, word = Some (g, r) → ∃ d, last g = Some d ∧ isDigit d = true)
    as Hword.
  { intros g r. unfold word.
    destruct (questionWord "Câu" r0) as [m|] eqn:H1.
    { intros [= ->]. by eapply questionWord_shape. }
    destruct (questionWord "Bài" r0) as [m|] eqn:H2.
    { intros [= ->]. by eapply questionWord_shape. }
    apply questionWord_shape. }
  destruct word as [[g r]|]; [|done]. cbn [mbind option_bind].
  destruct (spanClass _ r) as [g2' rest']. intros [= <- <- <-].
  destruct (Hword g r eq_refl) as (d & Hl & Hd).
  exists d. split; [|done]. by rewrite last_app, Hl.
Qed.

Lemma questionLabel_number text :
  is_Some (matchQuestionStart text) →
  ∃ d, last (questionLabel text) = Some d ∧ isDigit d = true.
Proof.
  intros [[[g1 g2] rest] Hm]. unfold questionLabel. rewrite Hm.
  destruct (matchQuestionStart_shape _ _ _ _ Hm) as (d & Hl & Hd).
  pose proof (digit_not_space d Hd) as Hs.
  assert (last (trim g1) = Some d) as Ht.
  { unfold trim. rewrite (trimEnd_last _ d); [| |done]; by apply last_trimStart. }
  exists d. split; [|done].
  destruct (ciPrefix (ci "Bài") (trim g1)) as [r|] eqn:H1.
  { rewrite last_app, (last_trimStart r d); [done| |done].
    by apply (ciPrefix_last (ci "Bài") (trim g1)). }
  destruct (ciPrefix (ci "Câu hỏi") (trim g1)) as [r|] eqn:H2; [|done].
  rewrite last_app, (last_trimStart r d); [done| |done].
  by apply (ciPrefix_last (ci "Câu hỏi") (trim g1)).
Qed.

Lemma ciPrefix_extend w s r more :
  ciPrefix w s = Some r → ciPrefix w (s ++ more) = Some (r ++ more).
Proof.
  revert s. induction w as [|l w IH]; intros s; simpl.
  { by intros [= ->]. }
  destruct s as [|c s]; [done|]. simpl.
  destruct (ciChar l c); [apply IH|done].
Qed.

Lemma questionNumber_extend s more :
  is_Some (questionNumber s) → is_Some (questionNumber (s ++ more)).
Proof.
  unfold questionNumber. rewrite spanClass_app.
  destruct (spanClass isSpace s) as [sp r1]. cbn [fst snd].
  destruct r1 as [|c y].
  { simpl. by intros [? ?]. }
  cbn [spanClass]. destruct (isDigit c) eqn:Hc.
  - intros _. destruct (spanClass isDigit (y ++ more)). by eexists.
  - simpl. by intros [? ?].
Qed.

Lemma questionWord_extend w s more :
  is_Some (questionWord w s) → is_Some (questionWord w (s ++ more)).
Proof.
  unfold questionWord. destruct (ciPrefix (ci w) s) as [r|] eqn:Hr;
    [|by intros [? ?]].
  rewrite (ciPrefix_extend _ _ _ more Hr). cbn [mbind option_bind].
  destruct (questionNumber r) as [[num rest]|] eqn:Hnum; [|by intros [? ?]].
  intros _.
  destruct (questionNumber_extend r more) as [[num' rest'] ->];
    [by rewrite Hnum|].
  by eexists.
Qed.

Lemma matchQuestionStart_extend text more :
  isQuestionStart text = true → is_Some (matchQuestionStart (text ++ more)).
Proof.
  unfold isQuestionStart, testQuestionStart, trimStart.
  intros Hm%bool_decide_eq_true.
  destruct (spanClass_spec isSpace text) as (Hs & Hws & Hhead).
  destruct (spanClass isSpace text) as [lead r0]. cbn [fst snd] in *.
  destruct r0 as [|c r0]; [by destruct Hm as [? Hm]; vm_compute in Hm|].
  unfold matchQuestionStart in *.
  assert (spanClass isSpace (c :: r0) = ([], c :: r0)) as Hsp
    by (by apply (spanClass_build isSpace [] (c :: r0))).
  rewrite Hsp in Hm.
  rewrite Hs, <-app_assoc.
  rewrite (spanClass_build isSpace lead ((c :: r0) ++ more)) by done.
  assert (is_Some (questionWord "Câu" (c :: r0))
          ∨ is_Some (questionWord "Bài" (c :: r0))
          ∨ is_Some (questionWord "Câu hỏi" (c :: r0))) as Hany.
  { destruct Hm as [m Hm].
    destruct (questionWord "Câu" (c :: r0)); [by left; eexists|].
    destruct (questionWord "Bài" (c :: r0)); [by right; left; eexists|].
    destruct (questionWord "Câu hỏi" (c :: r0)); [by right; right; eexists|].
    done. }
  clear Hm.
  assert (∀ o : option (list N * list N), is_Some o →
    is_Some (o ≫= λ '(g1, r),
      let '(g2, rest) :=
        spanClass (λ c, isSpace c || (c =? ch ".")%N || (c =? ch ":")%N) r in
      Some (lead ++ g1, g2, rest))) as Hbind.
  { intros [[g r]|] [? ?]; [|done]. simpl. destruct (spanClass _ r).
    by eexists. }
  apply Hbind.
  destruct Hany as [H|[H|H]]; apply (questionWord_extend _ _ more) in H.
  - destruct (questionWord "Câu" _); [by eexists|by destruct H].
  - destruct (questionWord "Câu" _); [by eexists|].
    destruct (questionWord "Bài" _); [by eexists|by destruct H].
  - destruct (questionWord "Câu" _); [by eexists|].
    destruct (questionWord "Bài" _); [by eexists|done].
Qed.

Section LabelFacts.

Variable parseFromString : list N → Node.
Variable serializeToString : Node → list N.
Variable randomUUID : nat → list N.

Lemma finishCurrentSegment_labels st :
  labelInvariant st →
  labelInvariant (finishCurrentSegment serializeToString randomUUID st)
  ∧ currentSegment (finishCurrentSegment serializeToString randomUUID st)
    = None.
Proof.
  intros [Hq Hcur]. unfold finishCurrentSegment.
  destruct (currentSegment st) as [seg|] eqn:Hseg;
    [|split; [split; [done|by intros ?; rewrite Hseg]|done]].
  destruct (DocSegment.type seg) eqn:Htype; simpl; (split; [|done]).
  - by split.
  - split; [|done]. simpl. apply Forall_app. split; [done|].
    constructor; [|done]. simpl. split; [|done]. by apply Hcur.
Qed.

Lemma segmentNode_labels st node :
  labelInvariant st →
  labelInvariant (segmentNode serializeToString randomUUID st node).
Proof.
  intros Hinv. unfold segmentNode.
  destruct (finishCurrentSegment_labels st Hinv) as [[Hq Hcur] Hnone].
  destruct (named "w:p" node && isSectionHeader (textContent node)).
  { split; [done|]. simpl. by intros seg [= <-]. }
  destruct (named "w:p" node && isQuestionStart (textContent node)) eqn:Hstart.
  { split; [done|]. simpl. intros seg [= <-] _. simpl.
    apply andb_true_iff in Hstart as [_ Hstart].
    exists (textContent node), []. by rewrite app_nil_r. }
  destruct Hinv as [Hq' Hcur']. split; [done|]. simpl.
  intros seg [= <-]. simpl.
  destruct (currentSegment st) as [seg|]; [|done]. simpl.
  intros Htype. destruct (Hcur' seg eq_refl Htype) as (start & more & -> & Hs).
  exists start. eexists. split; [|done]. by rewrite <-app_assoc.
Qed.

Lemma segment_labels children st :
  labelInvariant st →
  labelInvariant (foldl (segmentNode serializeToString randomUUID) st children).
Proof.
  revert st. induction children as [|c cs IH]; intros st H; [done|].
  simpl. by apply IH, segmentNode_labels.
Qed.

(** X18. Every question of [processDocxFile] has a text that begins with the
    paragraph at which the question starts, and a label read from it that ends
    with a digit of its number: the label "Câu ?" of a text without a number is
    never given. *)
Theorem processDocxFile_labels (zip : gmap string (list N))
    (pd : ProcessedDoc.t) :
  processDocxFile parseFromString serializeToString randomUUID zip = Ok pd →
  ∀ q, q ∈ ProcessedDoc.questions pd →
    beginsQuestion (QuestionBlock.textContent q)
    ∧ QuestionBlock.label q = questionLabel (QuestionBlock.textContent q)
    ∧ (∃ d, last (QuestionBlock.label q) = Some d ∧ isDigit d = true)
    ∧ QuestionBlock.label q ≠ js "Câu ?".
Proof.
  unfold processDocxFile.
  destruct (zip !! "word/document.xml"%string) as [xml|]; [|done].
  destruct (head (getElementsByTagName "w:body" (parseFromString xml)))
    as [body|]; [|done].
  destruct (extractSectPr (childNodes body)) as [sectPr children].
  intros [= <-]. simpl.
  assert (labelInvariant (mkSegmenter [] [] None [] [])) as H0.
  { by split. }
  apply (segment_labels children) in H0.
  apply finishCurrentSegment_labels in H0 as [[Hq _] _].
  intros q Hin. rewrite Forall_forall in Hq.
  destruct (Hq q Hin) as [Hbegin Hlabel].
  assert (∃ d, last (QuestionBlock.label q) = Some d ∧ isDigit d = true)
    as (d & Hl & Hd).
  { rewrite Hlabel. apply questionLabel_number.
    destruct Hbegin as (start & more & -> & Hs).
    by apply matchQuestionStart_extend. }
  split_and!; [done|done|by exists d|].
  intros Heq. rewrite Heq in Hl. vm_compute in Hl. injection Hl as <-.
  by vm_compute in Hd.
Qed.

End LabelFacts.

(** ** The preamble of a variant *)

Lemma header_here test before s rest :
  Forall (λ x, isHeader test x = false) before →
  isHeader test s = true →
  headerSegment test (before ++ s :: rest) = Some (length before, s).
Proof.
  unfold headerSegment. intros Hb Hs.
  induction Hb as [|x before Hx _ IH]; simpl.
  - by rewrite decide_True.
  - rewrite decide_False by congruence. by rewrite IH.
Qed.

Lemma header_found test segments i s :
  headerSegment test segments = Some (i, s) →
  segments !! i = Some s ∧ isHeader test s = true.
Proof.
  unfold headerSegment. intros H%list_find_Some. by destruct H as (? & ? & _).
Qed.

Lemma anyHeader_spec s :
  anyHeader s = true ↔ ∃ test, test ∈ headerTests ∧ isHeader test s = true.
Proof.
  unfold anyHeader. rewrite existsb_exists. split.
  - intros (test & Hin & H). exists test. by rewrite list_elem_of_In.
  - intros (test & Hin & H). exists test. by rewrite <-list_elem_of_In.
Qed.

Lemma header_index before s rest :
  Forall (λ x, anyHeader x = false) before →
  length before ∈ headerIndices (before ++ s :: rest) ↔ anyHeader s = true.
Proof.
  intros Hb. unfold headerIndices. rewrite list_elem_of_omap, anyHeader_spec.
  split.
  - intros (test & Hin & Hfind). exists test. split; [done|].
    destruct (headerSegment test (before ++ s :: rest)) as [[i x]|] eqn:Hh;
      [|done].
    injection Hfind as ->.
    apply header_found in Hh as [Hx Hh].
    rewrite lookup_app_r, Nat.sub_diag in Hx by lia. by injection Hx as ->.
  - intros (test & Hin & Hs). exists test. split; [done|].
    rewrite (header_here test before s rest); [done| |done].
    apply Forall_forall. intros x Hx. rewrite Forall_forall in Hb.
    destruct (isHeader test x) eqn:Hhx; [|done].
    assert (anyHeader x = true) by (apply anyHeader_spec; eauto).
    rewrite Hb in *; done.
Qed.

Lemma preambleFrom_spec all before rest :
  all = before ++ rest →
  Forall (λ x, anyHeader x = false) before →
  ∃ post,
    rest = preambleFrom (headerIndices all) (length before) rest ++ post
    ∧ Forall (λ s, DocSegment.type s = static ∧ anyHeader s = false)
        (preambleFrom (headerIndices all) (length before) rest)
    ∧ match post with
      | [] => True
      | s :: _ => DocSegment.type s = question ∨ anyHeader s = true
      end.
Proof.
  revert before. induction rest as [|s rest IH]; intros before -> Hb.
  { by exists []. }
  cbn [preambleFrom]. case_bool_decide as Hq.
  { exists (s :: rest). split_and!; [done|done|by left]. }
  case_bool_decide as Hh.
  { exists (s :: rest). split_and!; [done|done|].
    right. by apply (header_index before s rest). }
  assert (anyHeader s = false) as Hs.
  { destruct (anyHeader s) eqn:Hs; [|done].
    by apply (header_index before s rest) in Hs. }
  assert (DocSegment.type s = static) as Hstatic
    by (by destruct (DocSegment.type s)).
  rewrite bool_decide_true by done.
  destruct (IH (before ++ [s])) as (post & Hrest & Hpre & Hpost).
  { by rewrite <-app_assoc. }
  { apply Forall_app. split; [done|]. by constructor. }
  rewrite length_app, Nat.add_1_r in Hrest, Hpre.
  exists post. split_and!; [|by constructor|done].
  simpl. by rewrite <-Hrest.
Qed.

(** X19. The preamble that [generateVariants] copies when no header is
    configured is the longest run of segments at the start of the document
    that are static and are no header of a part: the segments are the
    preamble followed by the rest, and the rest, when there is one, begins
    with a question or with a segment whose text matches the pattern of a
    part. *)
Theorem preambleSegments_spec (segments : list DocSegment.t) :
  ∃ rest,
    segments = preambleSegments segments ++ rest
    ∧ Forall (λ s, DocSegment.type s = static ∧ anyHeader s = false)
        (preambleSegments segments)
    ∧ match rest with
      | [] => True
      | s :: _ => DocSegment.type s = question ∨ anyHeader s = true
      end.
Proof. by apply (preambleFrom_spec segments [] segments). Qed.

(** ** The theorems at sample inputs *)

Lemma processDocxFile_keeps_nodes_witness :
  ∃ pd,
    processDocxFile (λ _, sampleDoc) textContent (λ _, []) sampleZip = Ok pd
    ∧ ∀ seg, seg ∈ ProcessedDoc.segments pd → DocSegment.xmlContent seg ≠ [].
Proof.
  assert (∃ pd,
    processDocxFile (λ _, sampleDoc) textContent (λ _, []) sampleZip = Ok pd)
    as [pd Hpd].
  { eexists. vm_compute. reflexivity. }
  destruct (processDocxFile_keeps_nodes _ _ _ _ pd Hpd)
    as (xml & body & before & after & _ & _ & _ & _ & Hne & _).
  exists pd. split; assumption.
Defined.

Lemma processDocxFile_questions_witness :
  ∃ pd,
    processDocxFile (λ _, sampleDoc) textContent (λ _, []) sampleZip = Ok pd
    ∧ omap DocSegment.questionData (ProcessedDoc.segments pd)
      = ProcessedDoc.questions pd.
Proof.
  assert (∃ pd,
    processDocxFile (λ _, sampleDoc) textContent (λ _, []) sampleZip = Ok pd)
    as [pd Hpd].
  { eexists. vm_compute. reflexivity. }
  destruct (processDocxFile_questions _ _ _ _ pd Hpd) as (_ & Hq & _).
  exists pd. split; assumption.
Defined.


Lemma invalid_questions_are_reported_witness :
  ∃ pd,
    processDocxFile (λ _, sampleDoc) textContent (λ _, []) sampleZip = Ok pd
    ∧ ∀ issue,
        issue ∈ getValidationIssues (ProcessedDoc.questions pd) →
        ValidationIssue.questionType issue ≠ SHORT_ANSWER.
Proof.
  assert (∃ pd,
    processDocxFile (λ _, sampleDoc) textContent (λ _, []) sampleZip = Ok pd)
    as [pd Hpd].
  { eexists. vm_compute. reflexivity. }
  destruct (invalid_questions_are_reported _ _ _ _ pd Hpd) as [_ Hno].
  exists pd. split; assumption.
Defined.

Lemma processDocxFile_labels_witness :
  ∃ pd q,
    processDocxFile (λ _, sampleDoc) textContent (λ _, []) sampleZip = Ok pd
    ∧ q ∈ ProcessedDoc.questions pd
    ∧ QuestionBlock.label q = js "Câu 2".
Proof.
  assert (∃ pd q0 q,
    processDocxFile (λ _, sampleDoc) textContent (λ _, []) sampleZip = Ok pd
    ∧ ProcessedDoc.questions pd = [q0; q]
    ∧ questionLabel (QuestionBlock.textContent q) = js "Câu 2")
    as (pd & q0 & q & Hpd & Hqs & Hl).
  { eexists _, _, _. split_and!; vm_compute; reflexivity. }
  assert (q ∈ ProcessedDoc.questions pd) as Hq.
  { rewrite Hqs. apply list_elem_of_further, list_elem_of_here. }
  destruct (processDocxFile_labels _ _ _ _ pd Hpd q Hq) as (_ & Hlabel & _).
  exists pd, q. split; [assumption|]. split; [assumption|].
  rewrite Hlabel. exact Hl.
Defined.


Lemma shuffle_true_false_answers_witness :
  ∃ out k',
    shuffleQuestionOptions (λ _, 0) trueFalseQuestion TRUE_FALSE None 0
    = Some (out, k')
    ∧ getAnswerFromNodes out TRUE_FALSE []
      ≡ₚ getAnswerFromNodes trueFalseQuestion TRUE_FALSE [].
Proof.
  apply (shuffle_true_false_answers (λ _, 0) trueFalseQuestion 0 []).
  - intros node Hin _. unfold trueFalseQuestion in Hin.
    rewrite !elem_of_cons, elem_of_nil in Hin.
    destruct Hin as [->|[->|[->|[]]]]; vm_compute; reflexivity.
  - vm_compute. lia.
Defined.

Lemma reformatMCQLayout_keeps_text_witness :
  ∃ out,
    reformatMCQLayout shortQuestion = Some out
    ∧ concat (map textContent out) = concat (map textContent shortQuestion).
Proof.
  destruct (reformatMCQLayout_keeps_text shortQuestion)
    as (out & Hout & Htext & _).
  - unfold shortQuestion. repeat constructor.
  - intros n d Hin. unfold shortQuestion in Hin.
    rewrite !elem_of_cons, elem_of_nil in Hin.
    destruct Hin as [->|[->|[->|[->|[]]]]]; intros Hd;
      unfold paragraph, plainRun, underlinedRun in Hd;
      cbn [descendants map concat app] in Hd;
      rewrite !elem_of_cons, elem_of_nil in Hd;
      destruct_or!; try done; subst d; reflexivity.
  - intros n c Hin. unfold shortQuestion in Hin.
    rewrite !elem_of_cons, elem_of_nil in Hin.
    destruct Hin as [->|[->|[->|[->|[]]]]]; intros Hc;
      unfold paragraph, plainRun, underlinedRun in Hc;
      cbn [childNodes] in Hc;
      rewrite !elem_of_cons, elem_of_nil in Hc;
      destruct_or!; try done; subst c; intros Hn; discriminate Hn.
  - exists out. split; assumption.
Defined.

Lemma answer_after_layout_witness :
  ∃ first,
    reformatMCQLayout shortQuestion = Some [first]
    ∧ getAnswerFromNodes [first] MCQ [] = [].
Proof.
  destruct (answer_after_layout
              (paragraph [plainRun "Câu 1: x"]) (paragraph [plainRun "A. 1"])
              (paragraph [underlinedRun "B."; plainRun " 2"])
              (paragraph [plainRun "C. 3"]) [])
    as (first & others & Hout & _ & _ & Hone).
  - repeat constructor.
  - intros n d Hin.
    rewrite !elem_of_cons, elem_of_nil in Hin.
    destruct Hin as [->|[->|[->|[->|[]]]]]; intros Hd;
      unfold paragraph, plainRun, underlinedRun in Hd;
      cbn [descendants map concat app] in Hd;
      rewrite !elem_of_cons, elem_of_nil in Hd;
      destruct_or!; try done; subst d; reflexivity.
  - intros n c Hin.
    rewrite !elem_of_cons, elem_of_nil in Hin.
    destruct Hin as [->|[->|[->|[->|[]]]]]; intros Hc;
      unfold paragraph, plainRun, underlinedRun in Hc;
      cbn [childNodes] in Hc;
      rewrite !elem_of_cons, elem_of_nil in Hc;
      destruct_or!; try done; subst c; intros Hn; discriminate Hn.
  - vm_compute. reflexivity.
  - vm_compute. lia.
  - destruct Hone as [-> Hanswer]; [vm_compute; lia|].
    exists first. split; assumption.
Defined.
